(** * AudioNova playback engine: source selection, rate limiting,
      queue control and the processing graph.

    Shallow embedding of
      - src/utils/audioSourceOptimizer.ts   (module [SourceSelector])
      - src/utils/apiRateLimit.ts           (module [RateLimit])
      - src/context/MusicContext.tsx        (module [Player])
      - utils/audioProcessor.ts             (module [Processor])
    JavaScript strings are held as their UTF-8 bytes, integers (indices,
    millisecond timestamps, bitrates) as [Z]. *)

From Stdlib Require Import ZArith QArith Ascii String List Sorted Permutation Bool Lia.
From stdpp Require Import base option list strings gmap pretty.

Local Open Scope string_scope.
Local Open Scope list_scope.
Local Open Scope Z_scope.

(* ===================================================================== *)
(** ** JavaScript string helpers *)
(* ===================================================================== *)

Module JsString.

(** [String.prototype.includes] *)
Fixpoint includes (s sub : string) : bool :=
  if String.prefix sub s then true
  else match s with
       | EmptyString => false
       | String _ rest => includes rest sub
       end.

Definition lower_ascii (c : ascii) : ascii :=
  let n := nat_of_ascii c in
  if ((65 <=? n) && (n <=? 90))%nat then ascii_of_nat (n + 32) else c.

(** The byte at the head of a string, as a number. *)
Definition code (c : ascii) : N := N_of_ascii c.

(** U+0130 (bytes C4 B0) and U+212A (bytes E2 84 AA), the two code points
    outside ASCII whose lower case contains an ASCII letter. *)
Definition isCapitalIWithDot (c1 c2 : ascii) : bool :=
  ((code c1 =? 196) && (code c2 =? 176))%N.
Definition isKelvinSign (c1 c2 c3 : ascii) : bool :=
  ((code c1 =? 226) && (code c2 =? 132) && (code c3 =? 170))%N.

(** [String.prototype.toLowerCase]: A-Z become a-z, U+212A becomes k and
    U+0130 becomes i followed by U+0307 (bytes CC 87). Every other code
    point has a lower case outside ASCII and is left as it is; the
    patterns the strings are compared with are ASCII. *)
Fixpoint toLowerCase (s : string) : string :=
  match s with
  | EmptyString => EmptyString
  | String c1 rest1 =>
      match rest1 with
      | EmptyString => String (lower_ascii c1) EmptyString
      | String c2 rest2 =>
          if isCapitalIWithDot c1 c2 then
            String "i" (String (ascii_of_nat 204) (String (ascii_of_nat 135)
                                                      (toLowerCase rest2)))
          else
            match rest2 with
            | EmptyString => String (lower_ascii c1) (toLowerCase rest1)
            | String c3 rest3 =>
                if isKelvinSign c1 c2 c3 then String "k" (toLowerCase rest3)
                else String (lower_ascii c1) (toLowerCase rest1)
            end
      end
  end.

(** White space and line terminators, by the bytes of their code point.
    One byte: TAB, LF, VT, FF, CR and SPACE. *)
Definition whiteSpace1 (c : ascii) : bool :=
  ((code c =? 32) || ((9 <=? code c) && (code c <=? 13)))%N.

(** Two bytes: U+00A0 (C2 A0). *)
Definition whiteSpace2 (c1 c2 : ascii) : bool :=
  ((code c1 =? 194) && (code c2 =? 160))%N.

(** Three bytes: U+1680 (E1 9A 80), U+2000 to U+200A (E2 80 80 to 8A),
    U+2028 and U+2029 (E2 80 A8, A9), U+202F (E2 80 AF), U+205F
    (E2 81 9F), U+3000 (E3 80 80) and U+FEFF (EF BB BF). *)
Definition whiteSpace3 (c1 c2 c3 : ascii) : bool :=
  (((code c1 =? 225) && (code c2 =? 154) && (code c3 =? 128))
   || ((code c1 =? 226) && (code c2 =? 128)
       && (((128 <=? code c3) && (code c3 <=? 138))
           || (code c3 =? 168) || (code c3 =? 169) || (code c3 =? 175)))
   || ((code c1 =? 226) && (code c2 =? 129) && (code c3 =? 159))
   || ((code c1 =? 227) && (code c2 =? 128) && (code c3 =? 128))
   || ((code c1 =? 239) && (code c2 =? 187) && (code c3 =? 191)))%N.

(** Remove the white-space code points a string starts with. With
    [backwards] the string is read from its end, so the bytes of a code
    point arrive last byte first. *)
Fixpoint skipWhiteSpace (backwards : bool) (s : string) : string :=
  match s with
  | EmptyString => EmptyString
  | String c1 rest1 =>
      if whiteSpace1 c1 then skipWhiteSpace backwards rest1
      else
        match rest1 with
        | EmptyString => s
        | String c2 rest2 =>
            if (if backwards then whiteSpace2 c2 c1 else whiteSpace2 c1 c2)
            then skipWhiteSpace backwards rest2
            else
              match rest2 with
              | EmptyString => s
              | String c3 rest3 =>
                  if (if backwards then whiteSpace3 c3 c2 c1
                      else whiteSpace3 c1 c2 c3)
                  then skipWhiteSpace backwards rest3
                  else s
              end
        end
  end.

Fixpoint reverseOnto (s acc : string) : string :=
  match s with
  | EmptyString => acc
  | String c rest => reverseOnto rest (String c acc)
  end.

Definition reverse (s : string) : string := reverseOnto s EmptyString.

Definition trimStart (s : string) : string := skipWhiteSpace false s.

Definition trimEnd (s : string) : string :=
  reverse (skipWhiteSpace true (reverse s)).

(** [String.prototype.trim] *)
Definition trim (s : string) : string := trimEnd (trimStart s).

(** The string of the given bytes. *)
Definition ofBytes (bytes : list nat) : string :=
  foldr (fun n rest => String (ascii_of_nat n) rest) EmptyString bytes.

(** A string that is the single code point U+00A0, no-break space. *)
Definition noBreakSpace : string := ofBytes [194; 160]%nat.

(** [s.trim() !== ''] *)
Definition nonblank (s : string) : bool :=
  negb (String.eqb (trim s) "").

(** truthiness of a string value *)
Definition truthy (s : string) : bool := negb (String.eqb s "").

End JsString.

(* ===================================================================== *)
(** ** Source Selector (audioSourceOptimizer.ts) *)
(* ===================================================================== *)

Module SourceSelector.
Import JsString.

(** AudioQuality['quality'] *)
Inductive Tier := low | medium | high | unknown.

Global Instance Tier_eq_dec : EqDecision Tier.
Proof. solve_decision. Defined.

(** An element of [downloadUrl]: [{ quality?: string; link: string }]. *)
Record DownloadItem := {
  quality_tag : option string;
  link : string
}.

Record AudioQuality := {
  url : string;
  bitrate : option Z;
  format : string;
  quality : Tier
}.

Record AudioSourceInfo := {
  selectedUrl : string;
  detectedQuality : Tier;
  detectedBitrate : option Z;
  detectedFormat : option string;
  availableQualities : list AudioQuality
}.

(** The decision returned for an empty or unusable candidate list. *)
Definition emptyDecision : AudioSourceInfo :=
  {| selectedUrl := ""; detectedQuality := unknown; detectedBitrate := None;
     detectedFormat := None; availableQualities := [] |}.

(** [item && item.link && item.link.trim() !== ''] *)
Definition usable (item : DownloadItem) : bool :=
  truthy (link item) && nonblank (link item).

(** The quality-tag ladder (lines 45-68). *)
Definition parseQualityTag (q : string) : Tier * option Z :=
  let qualityLower := toLowerCase q in
  if includes qualityLower "320" || String.eqb qualityLower "320kbps" || String.eqb qualityLower "high"
  then (high, Some 320)
  else if includes qualityLower "256" || String.eqb qualityLower "256kbps"
  then (high, Some 256)
  else if includes qualityLower "160" || String.eqb qualityLower "160kbps" || String.eqb qualityLower "medium"
  then (medium, Some 160)
  else if includes qualityLower "128" || String.eqb qualityLower "128kbps"
  then (medium, Some 128)
  else if includes qualityLower "96" || String.eqb qualityLower "96kbps" || String.eqb qualityLower "low"
  then (low, Some 96)
  else if includes qualityLower "64" || String.eqb qualityLower "64kbps"
  then (low, Some 64)
  else (unknown, None).

(** The URL-pattern ladder (lines 71-89). *)
Definition parseUrlPattern (u : string) : Tier * option Z :=
  let urlLower := toLowerCase u in
  if includes urlLower "_320." || includes urlLower "320kbps" then (high, Some 320)
  else if includes urlLower "_256." || includes urlLower "256kbps" then (high, Some 256)
  else if includes urlLower "_160." || includes urlLower "160kbps" then (medium, Some 160)
  else if includes urlLower "_128." || includes urlLower "128kbps" then (medium, Some 128)
  else if includes urlLower "_96." || includes urlLower "96kbps" then (low, Some 96)
  else (unknown, None).

(** Container format from the URL (lines 92-99). *)
Definition detectFormat (u : string) : string :=
  if includes u ".m4a" || includes u "aac" then "aac"
  else if includes u ".opus" then "opus"
  else if includes u ".mp4" then "mp4"
  else "mp3".

(** The body of the [.map] callback. *)
Definition parseCandidate (item : DownloadItem) : AudioQuality :=
  let u := link item in
  (* item.quality || 'unknown' *)
  let q := match quality_tag item with
           | Some s => if truthy s then s else "unknown"
           | None => "unknown"
           end in
  let '(detected, estimated) := parseQualityTag q in
  let '(detected, estimated) :=
    match detected with
    | unknown => if truthy u then parseUrlPattern u else (detected, estimated)
    | _ => (detected, estimated)
    end in
  {| url := u; bitrate := estimated; format := detectFormat u; quality := detected |}.

Definition qualityPriority (t : Tier) : Z :=
  match t with high => 4 | medium => 3 | low => 2 | unknown => 1 end.

(** truthiness of an optional number: [undefined] and [0] are falsy *)
Definition hasBitrate (a : AudioQuality) : bool :=
  match bitrate a with Some n => negb (n =? 0) | None => false end.

Definition bitrateValue (a : AudioQuality) : Z := default 0 (bitrate a).

(** The comparator handed to [Array.prototype.sort] (lines 112-126). *)
Definition compareQualities (a b : AudioQuality) : Z :=
  let priorityDiff := qualityPriority (quality b) - qualityPriority (quality a) in
  if negb (priorityDiff =? 0) then priorityDiff
  else if hasBitrate a && hasBitrate b then bitrateValue b - bitrateValue a
  else if hasBitrate a && negb (hasBitrate b) then -1
  else if negb (hasBitrate a) && hasBitrate b then 1
  else 0.

(** [Array.prototype.sort] is a stable sort: an element is placed before
    the first element it does not compare greater than. *)
Fixpoint insertSorted {A} (cmp : A -> A -> Z) (x : A) (l : list A) : list A :=
  match l with
  | [] => [x]
  | y :: rest => if cmp x y <=? 0 then x :: y :: rest
                 else y :: insertSorted cmp x rest
  end.

(** [a] may stand before [b] in an array sorted with comparator [cmp]. *)
Definition precedes {A} (cmp : A -> A -> Z) (a b : A) : Prop := cmp a b <= 0.

Definition sortBy {A} (cmp : A -> A -> Z) (l : list A) : list A :=
  foldr (insertSorted cmp) [] l.

Definition selectOptimalAudioSource (downloadUrls : list DownloadItem) : AudioSourceInfo :=
  match downloadUrls with
  | [] => emptyDecision
  | _ =>
      let audioQualities := map parseCandidate (List.filter usable downloadUrls) in
      let sortedQualities := sortBy compareQualities audioQualities in
      match sortedQualities with
      | [] => emptyDecision
      | selectedAudio :: _ =>
          {| selectedUrl := url selectedAudio;
             detectedQuality := quality selectedAudio;
             detectedBitrate := bitrate selectedAudio;
             detectedFormat := Some (format selectedAudio);
             (* the array is sorted in place, so this is the sorted list *)
             availableQualities := sortedQualities |}
      end
  end.

(** The order of the specification, in its own words and on the fields
    of the candidates themselves: high is above medium, medium above low
    and low above unknown; *)
Inductive tierAbove : Tier -> Tier -> Prop :=
| high_above_medium : tierAbove high medium
| high_above_low : tierAbove high low
| high_above_unknown : tierAbove high unknown
| medium_above_low : tierAbove medium low
| medium_above_unknown : tierAbove medium unknown
| low_above_unknown : tierAbove low unknown.

(** a candidate carries the bitrate [n], or carries none ([undefined], or
    the number 0, which counts as absent); *)
Definition carries (a : AudioQuality) (n : Z) : Prop :=
  bitrate a = Some n /\ n <> 0.
Definition carriesNone (a : AudioQuality) : Prop :=
  bitrate a = None \/ bitrate a = Some 0.

(** [a] ranks no lower than [b]: its tier is above, or the tiers are the
    same and its bitrate is at least as high, or it carries a bitrate
    and [b] does not, or neither carries one. *)
Definition ranksNoLower (a b : AudioQuality) : Prop :=
  tierAbove (quality a) (quality b)
  \/ (quality a = quality b
      /\ ((exists x y, carries a x /\ carries b y /\ y <= x)
          \/ ((exists x, carries a x) /\ carriesNone b)
          \/ (carriesNone a /\ carriesNone b))).

(** A candidate as the API lists it: [{ quality: q, link: u }]. *)
Definition tagged (q u : string) : DownloadItem :=
  {| quality_tag := Some q; link := u |}.

(** [getQualityDescription]; a template literal prints an integer
    bitrate in decimal. *)
Definition getQualityDescription (q : Tier) (b : option Z) : string :=
  let given := match b with Some n => negb (n =? 0) | None => false end in
  let shown := pretty (default 0 b) in
  match q with
  | high =>
      if given then ("High Quality (" ++ shown ++ "kbps)")%string
      else "High Quality (320kbps)"
  | medium =>
      if given then ("Standard Quality (" ++ shown ++ "kbps)")%string
      else "Standard Quality (160kbps)"
  | low =>
      if given then ("Basic Quality (" ++ shown ++ "kbps)")%string
      else "Basic Quality (96kbps)"
  | unknown => "Good Quality (JioSaavn)"
  end.

(** The bitrates each tier is detected with. *)
Definition tierBitrate (q : Tier) (b : option Z) : Prop :=
  match q with
  | high => b = Some 320 \/ b = Some 256
  | medium => b = Some 160 \/ b = Some 128
  | low => b = Some 96 \/ b = Some 64
  | unknown => b = None
  end.

End SourceSelector.

(* ===================================================================== *)
(** ** Resilience Layer (apiRateLimit.ts) *)
(* ===================================================================== *)

Module RateLimit.

Record RateLimitInfo := {
  lastCall : Z;
  callCount : Z;
  resetTime : Z
}.

Definition DEFAULT_DELAY : Z := 500.
Definition MAX_CALLS_PER_MINUTE : Z := 60.
Definition RESET_INTERVAL : Z := 60 * 1000.

(** [RateLimitManager.shouldDelay]; [now] is the value of [Date.now()].
    Returns the suggested delay and the updated [limits] map. *)
Definition shouldDelay (now : Z) (endpoint : string)
    (limits : gmap string RateLimitInfo) : Z * gmap string RateLimitInfo :=
  match limits !! endpoint with
  | None =>
      (0, <[endpoint := {| lastCall := now; callCount := 1;
                           resetTime := now + RESET_INTERVAL |}]> limits)
  | Some info =>
      if resetTime info <? now then
        (0, <[endpoint := {| lastCall := now; callCount := 1;
                             resetTime := now + RESET_INTERVAL |}]> limits)
      else if MAX_CALLS_PER_MINUTE <=? callCount info then
        let waitTime := resetTime info - now in
        (waitTime, limits)
      else
        let timeSinceLastCall := now - lastCall info in
        let suggestedDelay := Z.max 0 (DEFAULT_DELAY - timeSinceLastCall) in
        (suggestedDelay,
         <[endpoint := {| lastCall := now; callCount := callCount info + 1;
                          resetTime := resetTime info |}]> limits)
  end.

(** Successive [shouldDelay] calls at the given times. *)
Fixpoint delaysAt (times : list Z) (endpoint : string)
    (limits : gmap string RateLimitInfo) : list Z * gmap string RateLimitInfo :=
  match times with
  | [] => ([], limits)
  | t :: rest =>
      let '(d, limits') := shouldDelay t endpoint limits in
      let '(ds, limits'') := delaysAt rest endpoint limits' in
      (d :: ds, limits'')
  end.

(** [RateLimitManager.recordFailure] *)
Definition recordFailure (now : Z) (endpoint : string) (statusCode : Z)
    (limits : gmap string RateLimitInfo) : gmap string RateLimitInfo :=
  if statusCode =? 403 then
    match limits !! endpoint with
    | Some info =>
        <[endpoint := {| lastCall := lastCall info;
                         callCount := MAX_CALLS_PER_MINUTE;
                         resetTime := now + RESET_INTERVAL * 2 |}]> limits
    | None => limits
    end
  else limits.

(** [RateLimitManager.getStatus] *)
Definition getStatus (now : Z) (endpoint : string)
    (limits : gmap string RateLimitInfo) : Z * Z * bool :=
  match limits !! endpoint with
  | None => (0, 0, false)
  | Some info =>
      let timeUntilReset := Z.max 0 (resetTime info - now) in
      let isLimited := (MAX_CALLS_PER_MINUTE <=? callCount info) && (0 <? timeUntilReset) in
      (callCount info, timeUntilReset, isLimited)
  end.

(** *** makeRateLimitedCall *)

(** What [fn] rejected with; [status] is [error?.response?.status]. *)
Record ApiError := {
  err_name : string;
  status : option Z
}.

Inductive Settled (T : Type) :=
| Resolved (v : T)
| Rejected (e : ApiError).
Arguments Resolved {T} v.
Arguments Rejected {T} e.

(** What the wrapper itself ends with. [FailedToComplete] is the
    [new Error(`Failed to complete ${endpoint} after ${maxRetries} retries`)]
    of the last line. *)
Inductive Completion (T : Type) :=
| Returned (v : T)
| Rethrown (e : ApiError)
| FailedToComplete (endpoint : string) (maxRetries : Z).
Arguments Returned {T} v.
Arguments Rethrown {T} e.
Arguments FailedToComplete {T} endpoint maxRetries.

(** Observable steps of one wrapped call. *)
Inductive Event :=
| RateDelay (ms : Z)          (* setTimeout on the recommended delay *)
| Invoke (attempt : Z)        (* apiCall() *)
| Backoff (ms : Z).           (* setTimeout before a retry *)

Record World := {
  clock : Z;                               (* Date.now() *)
  limits : gmap string RateLimitInfo;      (* rateLimitManager.limits *)
  trace : list Event
}.

Record Options := {
  maxRetries : option Z;
  retryDelay : option Z
}.

Definition sleep (ms : Z) (w : World) : World :=
  {| clock := clock w + ms; limits := limits w; trace := trace w |}.

Definition emit (e : Event) (w : World) : World :=
  {| clock := clock w; limits := limits w; trace := trace w ++ [e] |}.

(** truthiness of [error?.response?.status] *)
Definition statusTruthy (e : ApiError) : option Z :=
  match status e with
  | Some s => if s =? 0 then None else Some s
  | None => None
  end.

Definition is403 (e : ApiError) : bool :=
  match status e with Some s => s =? 403 | None => false end.

(** Lines 123-127: consult the limiter and wait the delay it returns. *)
Definition consultLimiter (endpoint : string) (w : World) : World :=
  let '(delay, limits') := shouldDelay (clock w) endpoint (limits w) in
  let w := {| clock := clock w; limits := limits'; trace := trace w |} in
  if 0 <? delay then sleep delay (emit (RateDelay delay) w) else w.

(** Lines 134-136: [if (error?.response?.status) recordFailure(...)]. *)
Definition noteFailure (endpoint : string) (error : ApiError) (w : World) : World :=
  match statusTruthy error with
  | Some s => {| clock := clock w;
                 limits := recordFailure (clock w) endpoint s (limits w);
                 trace := trace w |}
  | None => w
  end.

Section Wrapper.
Context {T : Type}.
(** [apiCall]: the k-th invocation takes some time and settles. *)
Variable apiCall : Z -> Z * Settled T.
Variable endpoint : string.
Variable maxRetries_ retryDelay_ : Z.

(** The [for (attempt = 0; attempt <= maxRetries; attempt++)] loop;
    [remaining] counts the iterations the loop guard still admits. *)
Fixpoint attempts (remaining : nat) (attempt : Z) (w : World) : Completion T * World :=
  match remaining with
  | O => (FailedToComplete endpoint maxRetries_, w)
  | S remaining' =>
      let w := consultLimiter endpoint w in
      let w := sleep (fst (apiCall attempt)) (emit (Invoke attempt) w) in
      match snd (apiCall attempt) with
      | Resolved v => (Returned v, w)
      | Rejected error =>
          let w := noteFailure endpoint error w in
          if is403 error && (attempt <? maxRetries_) then
            let waitTime := retryDelay_ * (attempt + 1) in
            attempts remaining' (attempt + 1) (sleep waitTime (emit (Backoff waitTime) w))
          else (Rethrown error, w)
      end
  end.

(** Attempt [j] was rejected with status 403. *)
Definition rateLimited (j : Z) : Prop :=
  exists e, snd (apiCall j) = Rejected e /\ is403 e = true.
End Wrapper.

Definition makeRateLimitedCall {T} (endpoint : string) (apiCall : Z -> Z * Settled T)
    (options : option Options) (w : World) : Completion T * World :=
  let maxRetries_ := default 2 (options ≫= maxRetries) in
  let retryDelay_ := default 1000 (options ≫= retryDelay) in
  attempts apiCall endpoint maxRetries_ retryDelay_
           (Z.to_nat (maxRetries_ + 1)) 0 w.

(** Projections of a trace. *)
Definition backoffs (tr : list Event) : list Z :=
  omap (fun e => match e with Backoff ms => Some ms | _ => None end) tr.
Definition invocations (tr : list Event) : list Z :=
  omap (fun e => match e with Invoke k => Some k | _ => None end) tr.

(** The wait the limiter recommends in world [w], as trace events. *)
Definition recommended (endpoint : string) (w : World) : list Event :=
  let delay := fst (shouldDelay (clock w) endpoint (limits w)) in
  if 0 <? delay then [RateDelay delay] else [].

(** What a run of the retry loop from attempt [a] in world [w] ends
    with: [k] is the attempt that settled the call. *)
Definition settlesAt {T} (apiCall : Z -> Z * Settled T) (endpoint : string)
    (mr rd : Z) (a : Z) (w : World) (out : Completion T * World) (k : Z) : Prop :=
  a <= k <= mr
  /\ (forall j, a <= j < k -> rateLimited apiCall j)
  /\ (exists evs, trace (snd out) = trace w ++ recommended endpoint w ++ Invoke a :: evs)
  /\ invocations (trace (snd out)) = invocations (trace w) ++ seqZ a (k + 1 - a)
  /\ backoffs (trace (snd out))
     = backoffs (trace w) ++ ((fun j => rd * (j + 1)) <$> seqZ a (k - a))
  /\ match snd (apiCall k) with
     | Resolved v => fst out = Returned v
     | Rejected e => fst out = Rethrown e /\ (is403 e = false \/ k = mr)
     end.

(** Sample records used in the examples below. *)
Definition forbidden : ApiError := {| err_name := "AxiosError"; status := Some 403 |}.
Definition alwaysForbidden : Z -> Z * Settled unit := fun _ => (10, Rejected forbidden).
Definition startWorld : World := {| clock := 0; limits := ∅; trace := [] |}.

Definition cappedInfo : RateLimitInfo :=
  {| lastCall := 900; callCount := 60; resetTime := 1000 |}.
Definition cappedLimits : gmap string RateLimitInfo := {[ "songs" := cappedInfo ]}.
Definition freshInfo : RateLimitInfo :=
  {| lastCall := 1000; callCount := 1; resetTime := 61000 |}.
Definition freshLimits : gmap string RateLimitInfo := {[ "songs" := freshInfo ]}.

(** [RateLimitManager.clear] *)
Definition clear (limits : gmap string RateLimitInfo) : gmap string RateLimitInfo := ∅.

(** Every record counts at least the call that created it and never
    more than the cap. *)
Definition wellCounted (limits : gmap string RateLimitInfo) : Prop :=
  map_Forall (fun _ info => 1 <= callCount info <= MAX_CALLS_PER_MINUTE) limits.

(** The world right after attempt [attempt] was rejected with [error]:
    the limiter was consulted, the call made and the failure noted. *)
Definition afterRejection {T} (apiCall : Z -> Z * Settled T) (endpoint : string)
    (attempt : Z) (error : ApiError) (w : World) : World :=
  noteFailure endpoint error
    (sleep (fst (apiCall attempt)) (emit (Invoke attempt) (consultLimiter endpoint w))).

End RateLimit.

(* ===================================================================== *)
(** ** JavaScript numbers used as times *)
(* ===================================================================== *)

Module JsNumber.

Inductive num :=
| NaN
| Infinity (negative : bool)
| Fin (q : Q).

Definition zero : num := Fin 0.

Definition isNaN (n : num) : bool :=
  match n with NaN => true | _ => false end.

Definition isFinite (n : num) : bool :=
  match n with Fin _ => true | _ => false end.

(** [a >= b]; any comparison with NaN is false *)
Definition ge (a b : num) : bool :=
  match a, b with
  | NaN, _ | _, NaN => false
  | Infinity false, _ => true
  | _, Infinity true => true
  | Infinity true, _ => false
  | _, Infinity false => false
  | Fin x, Fin y => Qle_bool y x
  end.

(** [a > b] *)
Definition gt (a b : num) : bool :=
  match a, b with
  | NaN, _ | _, NaN => false
  | Infinity false, Infinity false => false
  | Infinity false, _ => true
  | Infinity true, _ => false
  | Fin _, Infinity true => true
  | Fin _, Infinity false => false
  | Fin x, Fin y => negb (Qle_bool x y)
  end.

End JsNumber.

(* ===================================================================== *)
(** ** Playback Controller (MusicContext.tsx) *)
(* ===================================================================== *)

Module Player.
Import JsNumber.

Record Song := {
  id : string;
  name : string;
  primaryArtists : string;
  song_duration : Q;
  url : string;
  downloadUrl : option (list SourceSelector.DownloadItem);
  language : option string
}.

Record Playlist := {
  pl_id : string;
  pl_name : string;
  tracks : list Song;
  currentIndex : option Z;
  pl_language : option string
}.

Inductive RepeatMode := repeat_none | repeat_one | repeat_all.

Global Instance RepeatMode_eq_dec : EqDecision RepeatMode.
Proof. solve_decision. Defined.

(** The HTMLAudioElement behind [audioRef]. *)
Record AudioElement := {
  paused : bool;
  position : num;          (* audio.currentTime *)
  src : string;
  el_volume : Q
}.

Record State := {
  currentSong : option Song;
  isPlaying : bool;
  queue : list Song;
  queueIndex : Z;
  activePlaylist : option Playlist;
  repeatMode : RepeatMode;
  isShuffle : bool;
  volume : Q;
  currentTime : num;
  duration : num;
  error : option string;
  currentAudioInfo : option SourceSelector.AudioSourceInfo;
  audio : option AudioElement;      (* audioRef.current *)
  playPauseTimeout : option Z;      (* playPauseTimeoutRef.current *)
  tracked : list Song               (* songs handed to trackPlay *)
}.

(** *** State setters *)

Definition setIsPlaying (b : bool) (s : State) : State :=
  {| currentSong := currentSong s; isPlaying := b; queue := queue s;
     queueIndex := queueIndex s; activePlaylist := activePlaylist s;
     repeatMode := repeatMode s; isShuffle := isShuffle s; volume := volume s;
     currentTime := currentTime s; duration := duration s; error := error s;
     currentAudioInfo := currentAudioInfo s; audio := audio s;
     playPauseTimeout := playPauseTimeout s; tracked := tracked s |}.

Definition setCurrentTime (t : num) (s : State) : State :=
  {| currentSong := currentSong s; isPlaying := isPlaying s; queue := queue s;
     queueIndex := queueIndex s; activePlaylist := activePlaylist s;
     repeatMode := repeatMode s; isShuffle := isShuffle s; volume := volume s;
     currentTime := t; duration := duration s; error := error s;
     currentAudioInfo := currentAudioInfo s; audio := audio s;
     playPauseTimeout := playPauseTimeout s; tracked := tracked s |}.

Definition setError (e : option string) (s : State) : State :=
  {| currentSong := currentSong s; isPlaying := isPlaying s; queue := queue s;
     queueIndex := queueIndex s; activePlaylist := activePlaylist s;
     repeatMode := repeatMode s; isShuffle := isShuffle s; volume := volume s;
     currentTime := currentTime s; duration := duration s; error := e;
     currentAudioInfo := currentAudioInfo s; audio := audio s;
     playPauseTimeout := playPauseTimeout s; tracked := tracked s |}.

Definition setCurrentSong (x : option Song) (s : State) : State :=
  {| currentSong := x; isPlaying := isPlaying s; queue := queue s;
     queueIndex := queueIndex s; activePlaylist := activePlaylist s;
     repeatMode := repeatMode s; isShuffle := isShuffle s; volume := volume s;
     currentTime := currentTime s; duration := duration s; error := error s;
     currentAudioInfo := currentAudioInfo s; audio := audio s;
     playPauseTimeout := playPauseTimeout s; tracked := tracked s |}.

Definition setCurrentAudioInfo (x : option SourceSelector.AudioSourceInfo) (s : State) : State :=
  {| currentSong := currentSong s; isPlaying := isPlaying s; queue := queue s;
     queueIndex := queueIndex s; activePlaylist := activePlaylist s;
     repeatMode := repeatMode s; isShuffle := isShuffle s; volume := volume s;
     currentTime := currentTime s; duration := duration s; error := error s;
     currentAudioInfo := x; audio := audio s;
     playPauseTimeout := playPauseTimeout s; tracked := tracked s |}.

Definition setQueueIndex (i : Z) (s : State) : State :=
  {| currentSong := currentSong s; isPlaying := isPlaying s; queue := queue s;
     queueIndex := i; activePlaylist := activePlaylist s;
     repeatMode := repeatMode s; isShuffle := isShuffle s; volume := volume s;
     currentTime := currentTime s; duration := duration s; error := error s;
     currentAudioInfo := currentAudioInfo s; audio := audio s;
     playPauseTimeout := playPauseTimeout s; tracked := tracked s |}.

Definition setActivePlaylist (p : option Playlist) (s : State) : State :=
  {| currentSong := currentSong s; isPlaying := isPlaying s; queue := queue s;
     queueIndex := queueIndex s; activePlaylist := p;
     repeatMode := repeatMode s; isShuffle := isShuffle s; volume := volume s;
     currentTime := currentTime s; duration := duration s; error := error s;
     currentAudioInfo := currentAudioInfo s; audio := audio s;
     playPauseTimeout := playPauseTimeout s; tracked := tracked s |}.

Definition setAudio (a : option AudioElement) (s : State) : State :=
  {| currentSong := currentSong s; isPlaying := isPlaying s; queue := queue s;
     queueIndex := queueIndex s; activePlaylist := activePlaylist s;
     repeatMode := repeatMode s; isShuffle := isShuffle s; volume := volume s;
     currentTime := currentTime s; duration := duration s; error := error s;
     currentAudioInfo := currentAudioInfo s; audio := a;
     playPauseTimeout := playPauseTimeout s; tracked := tracked s |}.

Definition clearPlayPauseTimeout (s : State) : State :=
  {| currentSong := currentSong s; isPlaying := isPlaying s; queue := queue s;
     queueIndex := queueIndex s; activePlaylist := activePlaylist s;
     repeatMode := repeatMode s; isShuffle := isShuffle s; volume := volume s;
     currentTime := currentTime s; duration := duration s; error := error s;
     currentAudioInfo := currentAudioInfo s; audio := audio s;
     playPauseTimeout := None; tracked := tracked s |}.

(** [trackPlay(song)]: the analytics call is fire-and-forget. *)
Definition trackPlay (song : Song) (s : State) : State :=
  {| currentSong := currentSong s; isPlaying := isPlaying s; queue := queue s;
     queueIndex := queueIndex s; activePlaylist := activePlaylist s;
     repeatMode := repeatMode s; isShuffle := isShuffle s; volume := volume s;
     currentTime := currentTime s; duration := duration s; error := error s;
     currentAudioInfo := currentAudioInfo s; audio := audio s;
     playPauseTimeout := playPauseTimeout s; tracked := tracked s ++ [song] |}.

(** [arr[i]] for a numeric index *)
Definition nthZ {A} (l : list A) (i : Z) : option A :=
  if i <? 0 then None else l !! Z.to_nat i.

Definition NO_AUDIO_URL : string := "Cannot play song: No audio URL available".

(** *** play *)

(** Source resolution at the head of [proceedWithPlayback] (lines 453-476):
    [None] is the branch that finds no audio URL at all. *)
Definition resolveSource (song : Song) : option SourceSelector.AudioSourceInfo :=
  match downloadUrl song with
  | Some (d :: ds) => Some (SourceSelector.selectOptimalAudioSource (d :: ds))
  | _ =>
      if JsString.truthy (url song) && JsString.nonblank (url song) then
        Some {| SourceSelector.selectedUrl := url song;
                SourceSelector.detectedQuality := SourceSelector.unknown;
                SourceSelector.detectedBitrate := None;
                SourceSelector.detectedFormat := None;
                SourceSelector.availableQualities := [] |}
      else None
  end.

(** [!selectedUrl || selectedUrl.trim() === ''] *)
Definition urlMissing (u : string) : bool :=
  negb (JsString.truthy u) || negb (JsString.nonblank u).

Definition proceedWithPlayback (song : Song) (s : State) : State :=
  match resolveSource song with
  | None => setError (Some NO_AUDIO_URL) s
  | Some audioSourceInfo =>
      if urlMissing (SourceSelector.selectedUrl audioSourceInfo) then
        setError (Some NO_AUDIO_URL) s
      else
        let s := setError None s in
        let s := setCurrentSong (Some song) s in
        let s := setCurrentAudioInfo (Some audioSourceInfo) s in
        let s := trackPlay song s in
        match audio s with
        | None => s
        | Some _ =>
            (* pause if playing, rewind, assign the source, then play() *)
            setAudio (Some {| paused := false; position := zero;
                              src := SourceSelector.selectedUrl audioSourceInfo;
                              el_volume := volume s |}) s
        end
  end.

(** [playSong]; [None] is a falsy [song] argument. *)
Definition playSong (song : option Song) (s : State) : State :=
  match song with
  | None => s
  | Some song => proceedWithPlayback song (clearPlayPauseTimeout s)
  end.

(** How the promise returned by [audio.play()] settles. *)
Inductive PlaySettled :=
| Started
| AbortError
| NotAllowedError
| NotSupportedError
| OtherError (message : string).

(** Continuation of [attemptPlay] once the play promise settles. *)
Definition attemptPlaySettled (o : PlaySettled) (s : State) : State :=
  match o with
  | Started => setIsPlaying true s
  | AbortError => s
  | NotAllowedError =>
      setIsPlaying false (setError (Some "Playback not allowed. Please click play to start.") s)
  | NotSupportedError =>
      setIsPlaying false (setError (Some "Audio format not supported") s)
  | OtherError message =>
      if JsString.includes message "network"
      then setIsPlaying false (setError (Some "Network error: Unable to load audio") s)
      else setIsPlaying false (setError (Some ("Failed to play song: " ++ message)%string) s)
  end.

(** *** next *)

(** The values [playNext] reads from its render closure rather than
    through a ref. *)
Record Closure := {
  c_repeatMode : RepeatMode;
  c_isShuffle : bool
}.

Definition liveClosure (s : State) : Closure :=
  {| c_repeatMode := repeatMode s; c_isShuffle := isShuffle s |}.

(** [currentPlaylist?.tracks || currentQueue] *)
Definition playlistToUse (s : State) : list Song :=
  match activePlaylist s with
  | Some p => tracks p
  | None => queue s
  end.

(** [currentPlaylist?.currentIndex !== undefined ? ... : currentIndex] *)
Definition playlistIndex (s : State) : Z :=
  match activePlaylist s with
  | Some p => default (queueIndex s) (currentIndex p)
  | None => queueIndex s
  end.

(** [currentPlaylist?.language] when truthy *)
Definition playlistLanguage (s : State) : option string :=
  match activePlaylist s with
  | Some p => match pl_language p with
              | Some l => if JsString.truthy l then Some l else None
              | None => None
              end
  | None => None
  end.

(** [song.language === lang] *)
Definition languageIs (lang : string) (song : Song) : bool :=
  match language song with
  | Some l => String.eqb l lang
  | None => false
  end.

(** [.map((song, index) => ({ song, index })).filter(...)] *)
Definition sameLanguageSongs (lang : string) (pl : list Song) : list (Song * Z) :=
  List.filter (fun e => languageIs lang (fst e))
              (imap (fun i song => (song, Z.of_nat i)) pl).

(** [Array.prototype.findIndex] *)
Fixpoint findIndexFrom {A} (p : A -> bool) (l : list A) (k : Z) : Z :=
  match l with
  | [] => -1
  | x :: rest => if p x then k else findIndexFrom p rest (k + 1)
  end.
Definition findIndex {A} (p : A -> bool) (l : list A) : Z := findIndexFrom p l 0.

(** [do { x = Math.floor(Math.random() * len) } while (x === avoid && len > 1)].
    [draws] lists the successive values of [Math.floor(Math.random() * len)];
    [None] means the loop is still running when the draws are used up. *)
Fixpoint drawOther (draws : list Z) (avoid len : Z) : option Z :=
  match draws with
  | [] => None
  | d :: rest => if (d =? avoid) && (1 <? len) then drawOther rest avoid len
                 else Some d
  end.

Inductive Next :=
| Advance (nextIndex : Z)
| Stop               (* reached end, stopping *)
| Spin               (* the random loop has not finished *)
| Crash.             (* TypeError on an undefined pool entry *)

(** [nextIndex = playlistIndex + 1; if (nextIndex >= length) nextIndex = 0] *)
Definition wrapNext (idx len : Z) : Z :=
  let nextIndex := idx + 1 in
  if len <=? nextIndex then 0 else nextIndex.

(** The non-shuffle branch (lines 729-745). *)
Definition sequentialNext (rm : RepeatMode) (idx len : Z) : Next :=
  let nextIndex := idx + 1 in
  if len <=? nextIndex then
    match rm with
    | repeat_all => Advance 0
    | _ => Stop
    end
  else Advance nextIndex.

(** Choice of [nextIndex] (lines 695-746). *)
Definition resolveNext (c : Closure) (draws : list Z) (s : State) : Next :=
  let pl := playlistToUse s in
  let idx := playlistIndex s in
  let len := Z.of_nat (length pl) in
  if c_isShuffle c && (1 <? len) then
    match playlistLanguage s with
    | Some lang =>
        let pool := sameLanguageSongs lang pl in
        let poolLen := Z.of_nat (length pool) in
        if 1 <? poolLen then
          let currentSongLanguageIndex := findIndex (fun e => snd e =? idx) pool in
          match drawOther draws currentSongLanguageIndex poolLen with
          | None => Spin
          | Some nextLanguageSongIndex =>
              match nthZ pool nextLanguageSongIndex with
              | Some e => Advance (snd e)
              | None => Crash
              end
          end
        else Advance (wrapNext idx len)
    | None =>
        match drawOther draws idx len with
        | None => Spin
        | Some nextIndex => Advance nextIndex
        end
    end
  else sequentialNext (c_repeatMode c) idx len.

(** [setIsPlaying(false); audio.pause(); audio.currentTime = 0] *)
Definition stopPlayback (s : State) : State :=
  let s := setIsPlaying false s in
  match audio s with
  | Some a => setAudio (Some {| paused := true; position := zero;
                                src := src a; el_volume := el_volume a |}) s
  | None => s
  end.

Definition withCurrentIndex (i : Z) (p : Playlist) : Playlist :=
  {| pl_id := pl_id p; pl_name := pl_name p; tracks := tracks p;
     currentIndex := Some i; pl_language := pl_language p |}.

Inductive Outcome :=
| Done (s : State)
| OutOfDraws
| TypeError.

Definition playNext (c : Closure) (draws : list Z) (s : State) : Outcome :=
  let pl := playlistToUse s in
  let idx := playlistIndex s in
  if (0 <? Z.of_nat (length pl)) && (0 <=? idx) then
    match resolveNext c draws s with
    | Advance nextIndex =>
        let nextSong := nthZ pl nextIndex in
        let s := match activePlaylist s with
                 | Some p => setActivePlaylist (Some (withCurrentIndex nextIndex p)) s
                 | None => s
                 end in
        let s := setQueueIndex nextIndex s in
        Done (playSong nextSong s)
    | Stop => Done (stopPlayback s)
    | Spin => OutOfDraws
    | Crash => TypeError
    end
  else Done (stopPlayback s).

(** The 'ended' listener; [c] is the closure of the render in which the
    listener was created. *)
Definition handleEnded (c : Closure) (draws : list Z) (s : State) : Outcome :=
  playNext c draws (setCurrentTime zero (setIsPlaying false s)).

(** *** seek *)

(** Assigning a non-finite value to [audio.currentTime] raises a
    TypeError, which [seekTo] catches and logs. *)
Definition seekTo (time : num) (s : State) : State :=
  match audio s with
  | Some a =>
      if negb (isNaN time) && ge time zero then
        if isFinite time then
          setCurrentTime time
            (setAudio (Some {| paused := paused a; position := time;
                               src := src a; el_volume := el_volume a |}) s)
        else s
      else s
  | None => s
  end.

(** *** Derived notions used in the statements *)

(** The state after the provider's [useState] initialisers, with the
    audio element mounted. *)
Definition initialState : State :=
  {| currentSong := None; isPlaying := false; queue := []; queueIndex := 0;
     activePlaylist := None; repeatMode := repeat_none; isShuffle := false;
     volume := 1%Q; currentTime := zero; duration := zero; error := None;
     currentAudioInfo := None;
     audio := Some {| paused := true; position := zero; src := ""; el_volume := 1%Q |};
     playPauseTimeout := None; tracked := [] |}.

(** The URL [proceedWithPlayback] ends up assigning to the element. *)
Definition playableUrl (song : Song) : option string :=
  match resolveSource song with
  | Some info =>
      if urlMissing (SourceSelector.selectedUrl info) then None
      else Some (SourceSelector.selectedUrl info)
  | None => None
  end.

(** No candidate link is usable, or, without candidates, the track's
    own [url] is blank. *)
Definition unplayable (song : Song) : Prop :=
  match downloadUrl song with
  | Some (d :: ds) => Forall (fun item => SourceSelector.usable item = false) (d :: ds)
  | _ => JsString.truthy (url song) && JsString.nonblank (url song) = false
  end.

(** Playlist positions in the same-language pool. *)
Definition poolIndices (lang : string) (pl : list Song) : list Z :=
  snd <$> sameLanguageSongs lang pl.


(** Draws that [Math.floor(Math.random() * len)] can produce. *)
Definition validDraws (len : Z) (draws : list Z) : Prop :=
  Forall (fun d => 0 <= d < len) draws.

(** Sample data used in the examples below. *)
Definition mkSong (i : string) (lang : option string) (u : string)
    (links : option (list SourceSelector.DownloadItem)) : Song :=
  {| id := i; name := i; primaryArtists := "artist"; song_duration := 180%Q;
     url := u; downloadUrl := links; language := lang |}.

Definition link320 (u : string) : SourceSelector.DownloadItem :=
  {| SourceSelector.quality_tag := Some "320kbps"; SourceSelector.link := u |}.

Definition songA : Song :=
  mkSong "a" (Some "hindi") "" (Some [link320 "https://cdn/a_320.mp4"]).
Definition songB : Song :=
  mkSong "b" (Some "english") "" (Some [link320 "https://cdn/b_320.mp4"]).
(** zero audio candidates, but a stream address of its own *)
Definition songUrlOnly : Song := mkSong "c" None "https://cdn/c.mp3" (Some []).

(** candidates present, but every link blank: spaces, nothing, a
    no-break space *)
Definition songBlankLinks : Song :=
  mkSong "d" None "https://cdn/d.mp3"
    (Some [link320 "   "; link320 ""; link320 JsString.noBreakSpace]).

(** The cursors after [setActivePlaylist(updatedPlaylist); setQueueIndex(i)]. *)
Definition moveCursor (i : Z) (s : State) : State :=
  setQueueIndex i
    match activePlaylist s with
    | Some p => setActivePlaylist (Some (withCurrentIndex i p)) s
    | None => s
    end.

Definition repeatAllNoShuffle : Closure :=
  {| c_repeatMode := repeat_all; c_isShuffle := false |}.

Definition withRepeatMode (m : RepeatMode) (s : State) : State :=
  {| currentSong := currentSong s; isPlaying := isPlaying s; queue := queue s;
     queueIndex := queueIndex s; activePlaylist := activePlaylist s;
     repeatMode := m; isShuffle := isShuffle s; volume := volume s;
     currentTime := currentTime s; duration := duration s; error := error s;
     currentAudioInfo := currentAudioInfo s; audio := audio s;
     playPauseTimeout := playPauseTimeout s; tracked := tracked s |}.

Definition withQueue (q : list Song) (i : Z) (s : State) : State :=
  {| currentSong := nthZ q i; isPlaying := true; queue := q; queueIndex := i;
     activePlaylist := activePlaylist s; repeatMode := repeatMode s;
     isShuffle := isShuffle s; volume := volume s; currentTime := currentTime s;
     duration := duration s; error := error s;
     currentAudioInfo := currentAudioInfo s; audio := audio s;
     playPauseTimeout := playPauseTimeout s; tracked := tracked s |}.

(** A hindi-tagged playlist whose last track is its only hindi one. *)
Definition hindiPlaylist : Playlist :=
  {| pl_id := "playlist-1"; pl_name := "Search results";
     tracks := [songB; songA]; currentIndex := Some 1;
     pl_language := Some "hindi" |}.


(** Two tracks queued, the first one playing, repeat mode 'one'. *)
Definition repeatOneState : State :=
  withRepeatMode repeat_one (withQueue [songA; songB] 0 initialState).

(** *** previous *)

(** Choice of [prevIndex] (lines 790-808). *)
Definition resolvePrevious (c : Closure) (draws : list Z) (s : State) : Next :=
  let pl := playlistToUse s in
  let idx := playlistIndex s in
  let len := Z.of_nat (length pl) in
  if c_isShuffle c && (1 <? len) then
    match drawOther draws idx len with
    | None => Spin
    | Some prevIndex => Advance prevIndex
    end
  else
    let prevIndex := idx - 1 in
    if prevIndex <? 0 then
      match c_repeatMode c with
      | repeat_all => Advance (len - 1)
      | _ => Advance 0
      end
    else Advance prevIndex.

(** [audioRef.current && audioRef.current.currentTime > 3] *)
Definition pastRestartThreshold (s : State) : bool :=
  match audio s with
  | Some a => gt (position a) (Fin 3)
  | None => false
  end.

Definition playPrevious (c : Closure) (draws : list Z) (s : State) : Outcome :=
  let pl := playlistToUse s in
  let idx := playlistIndex s in
  if pastRestartThreshold s then
    match audio s with
    | Some a => Done (setAudio (Some {| paused := paused a; position := zero;
                                        src := src a; el_volume := el_volume a |}) s)
    | None => Done s
    end
  else if (0 <? Z.of_nat (length pl)) && (0 <=? idx) then
    match resolvePrevious c draws s with
    | Advance prevIndex =>
        let prevSong := nthZ pl prevIndex in
        let s := match activePlaylist s with
                 | Some p => setActivePlaylist (Some (withCurrentIndex prevIndex p)) s
                 | None => s
                 end in
        let s := setQueueIndex prevIndex s in
        Done (playSong prevSong s)
    | Stop => Done s
    | Spin => OutOfDraws
    | Crash => TypeError
    end
  else Done s.

(** *** setPlaylistAndPlay *)

Definition setQueue (q : list Song) (s : State) : State :=
  {| currentSong := currentSong s; isPlaying := isPlaying s; queue := q;
     queueIndex := queueIndex s; activePlaylist := activePlaylist s;
     repeatMode := repeatMode s; isShuffle := isShuffle s; volume := volume s;
     currentTime := currentTime s; duration := duration s; error := error s;
     currentAudioInfo := currentAudioInfo s; audio := audio s;
     playPauseTimeout := playPauseTimeout s; tracked := tracked s |}.

(** [song && song.id && song.name] *)
Definition validSong (song : Song) : bool :=
  JsString.truthy (id song) && JsString.truthy (name song).

(** [now] is [Date.now()], used for the playlist id. *)
Definition setPlaylistAndPlay (now : Z) (playlist : list Song) (index : Z)
    (s : State) : State :=
  let len := Z.of_nat (length playlist) in
  if len =? 0 then s
  else if (index <? 0) || (len <=? index) then s
  else
    let validPlaylist := List.filter validSong playlist in
    if Z.of_nat (length validPlaylist) =? 0 then
      setError (Some "No valid songs to play") s
    else
      let validIndex :=
        if Z.of_nat (length validPlaylist) <=? index then 0 else index in
      let newActivePlaylist :=
        {| pl_id := ("playlist-" ++ pretty now)%string; pl_name := "Current Playlist";
           tracks := validPlaylist; currentIndex := Some validIndex;
           pl_language := None |} in
      let s := setActivePlaylist (Some newActivePlaylist) s in
      let s := setQueue validPlaylist s in
      let s := setQueueIndex validIndex s in
      playSong (nthZ validPlaylist validIndex) s.

(** *** togglePlayPause *)

Definition setPlayPauseTimeout (t : option Z) (s : State) : State :=
  {| currentSong := currentSong s; isPlaying := isPlaying s; queue := queue s;
     queueIndex := queueIndex s; activePlaylist := activePlaylist s;
     repeatMode := repeatMode s; isShuffle := isShuffle s; volume := volume s;
     currentTime := currentTime s; duration := duration s; error := error s;
     currentAudioInfo := currentAudioInfo s; audio := audio s;
     playPauseTimeout := t; tracked := tracked s |}.

(** What the debounced callback has captured: [isCurrentlyPlaying]. *)
Record PendingToggle := { wasPlaying : bool }.

(** The synchronous part; [timerId] is what [setTimeout] returns. A timer
    still pending is cleared, so only the returned callback will run. *)
Definition togglePlayPause (timerId : Z) (s : State) : State * option PendingToggle :=
  match currentSong s, audio s with
  | Some _, Some a =>
      let isCurrentlyPlaying := negb (paused a) in
      let s := clearPlayPauseTimeout s in
      let s := setIsPlaying (negb isCurrentlyPlaying) s in
      (setPlayPauseTimeout (Some timerId) s, Some {| wasPlaying := isCurrentlyPlaying |})
  | _, _ => (s, None)
  end.

Inductive ToggleStep :=
| Settled (s : State)           (* nothing is awaited *)
| AwaitingPlay (s : State).     (* audio.play() was called *)

(** The callback run 150 ms later. *)
Definition toggleTimerFired (p : PendingToggle) (s : State) : ToggleStep :=
  match audio s with
  | None => Settled s
  | Some a =>
      if wasPlaying p then
        Settled (setAudio (Some {| paused := true; position := position a;
                                   src := src a; el_volume := el_volume a |}) s)
      else if negb (JsString.truthy (src a)) then
        Settled (setIsPlaying false (setError (Some "No audio source available") s))
      else
        AwaitingPlay (setAudio (Some {| paused := false; position := position a;
                                        src := src a; el_volume := el_volume a |}) s)
  end.

(** Continuation once the play promise of a resume settles. *)
Definition resumeSettled (o : PlaySettled) (s : State) : State :=
  match o with
  | Started => s
  | AbortError => s
  | NotAllowedError =>
      setIsPlaying false
        (setError (Some "Playback not allowed. Please interact with the page first.") s)
  | NotSupportedError =>
      setIsPlaying false (setError (Some "Audio format not supported") s)
  | OtherError message =>
      if JsString.truthy message && JsString.includes message "network"
      then setIsPlaying false (setError (Some "Network error during playback") s)
      else setIsPlaying false
             (setError (Some ("Failed to resume playback: " ++ message)%string) s)
  end.

(** *** Media element events *)

Definition setDuration (d : num) (s : State) : State :=
  {| currentSong := currentSong s; isPlaying := isPlaying s; queue := queue s;
     queueIndex := queueIndex s; activePlaylist := activePlaylist s;
     repeatMode := repeatMode s; isShuffle := isShuffle s; volume := volume s;
     currentTime := currentTime s; duration := d; error := error s;
     currentAudioInfo := currentAudioInfo s; audio := audio s;
     playPauseTimeout := playPauseTimeout s; tracked := tracked s |}.

(** truthiness of a number: NaN and zero are falsy *)
Definition numTruthy (n : num) : bool :=
  match n with
  | NaN => false
  | Infinity _ => true
  | Fin q => negb (Qeq_bool q 0)
  end.

Definition handleTimeUpdate (s : State) : State :=
  match audio s with
  | Some a => if negb (isNaN (position a)) then setCurrentTime (position a) s else s
  | None => s
  end.

(** [audioDuration] is the element's [duration] when the event fires. *)
Definition handleLoadedMetadata (audioDuration : num) (s : State) : State :=
  let newDuration := if numTruthy audioDuration then audioDuration else zero in
  setCurrentTime zero (setDuration newDuration s).

Definition handleLoadStart (s : State) : State := setCurrentTime zero s.
Definition handlePlay (s : State) : State := setIsPlaying true s.
Definition handlePause (s : State) : State := setIsPlaying false s.

(** [target.error]: its [code], when there is an error object. *)
Definition handleError (code : option Z) (s : State) : State :=
  let s :=
    match code with
    | Some 1 => s                                                (* MEDIA_ERR_ABORTED *)
    | Some 2 => setError (Some "Network error loading audio") s  (* MEDIA_ERR_NETWORK *)
    | Some 3 => setError (Some "Audio format error") s           (* MEDIA_ERR_DECODE *)
    | Some 4 => setError (Some "Audio format not supported") s   (* SRC_NOT_SUPPORTED *)
    | Some _ => setError (Some "Audio playback error") s
    | None => s
    end in
  setIsPlaying false s.

(** *** Liked songs and saved playlists *)

Definition isSongLiked (likedSongs : list Song) (songId : string) : bool :=
  existsb (fun song => String.eqb (id song) songId) likedSongs.

(** [addToLikedSongs]. The test reads [rendered], the [likedSongs] of the
    render the callback was created in; the update
    [prev => [...prev, song]] is applied to the latest list. *)
Definition addToLikedSongs (rendered : list Song) (song : Song)
    (likedSongs : list Song) : list Song :=
  if negb (isSongLiked rendered (id song)) then likedSongs ++ [song] else likedSongs.

(** [setLikedSongs(prev => prev.filter(...))] *)
Definition removeFromLikedSongs (songId : string) (likedSongs : list Song) : list Song :=
  List.filter (fun song => negb (String.eqb (id song) songId)) likedSongs.

(** [savePlaylist]. [rendered] is the [savedPlaylists] of the render the
    callback was created in: [findIndex] reads it, and an existing entry
    is replaced in a copy of it, which becomes the new list whatever the
    latest list is (the index found is inside that copy). A new entry is
    appended to the latest list by [prev => [...prev, playlist]]. *)
Definition savePlaylist (rendered : list Playlist) (playlist : Playlist)
    (savedPlaylists : list Playlist) : list Playlist :=
  let existingIndex :=
    findIndex (fun p => String.eqb (pl_id p) (pl_id playlist)) rendered in
  if 0 <=? existingIndex then <[Z.to_nat existingIndex := playlist]> rendered
  else savedPlaylists ++ [playlist].

(** [p => p.id === playlist.id] *)
Definition sameId (playlist : Playlist) (q : Playlist) : bool :=
  String.eqb (pl_id q) (pl_id playlist).

(** Both times shown to the user are numbers. *)
Definition timesAreNumbers (s : State) : Prop :=
  isNaN (currentTime s) = false /\ isNaN (duration s) = false.

(** The cursor points into the list in use. *)
Definition cursorInRange (s : State) : Prop :=
  0 <= playlistIndex s < Z.of_nat (length (playlistToUse s)).

End Player.

(* ===================================================================== *)
(** ** Processing Graph (AudioProcessor) *)
(* ===================================================================== *)

Module Processor.

Definition NodeId := nat.
Definition CtxId := nat.

Inductive NodeKind :=
| MediaElementSource | Gain | Analyser | BiquadFilter | DynamicsCompressor.

(** Calls into the Web Audio API. *)
Inductive Call :=
| NewContext
| Resume (ctx : CtxId)
| Close (ctx : CtxId)
| Create (ctx : CtxId) (k : NodeKind)
| Configure (n : NodeId)
| Connect (from to : NodeId)
| ConnectDestination (from : NodeId) (ctx : CtxId)
| Disconnect (n : NodeId).

(** Exceptions the platform raises. *)
Inductive Exn :=
| InvalidStateAlreadyConnected   (* InvalidStateError, 'already connected' *)
| OtherException (name : string).

Record Config := {
  enableEQ : bool;
  enableLimiter : bool
}.

Record AudioProcessor := {
  audioContext : option CtxId;
  sourceNode : option NodeId;
  gainNode : option NodeId;
  lowShelf : option NodeId;       (* eqNodes.lowShelf *)
  midPeaking : option NodeId;     (* eqNodes.midPeaking *)
  highShelf : option NodeId;      (* eqNodes.highShelf *)
  compressorNode : option NodeId;
  limiterNode : option NodeId;
  analyserNode : option NodeId;
  isInitialized : bool;
  config : Config
}.

(** The object after [new AudioProcessor(config)]. *)
Definition newProcessor (cfg : Config) : AudioProcessor :=
  {| audioContext := None; sourceNode := None; gainNode := None;
     lowShelf := None; midPeaking := None; highShelf := None;
     compressorNode := None; limiterNode := None; analyserNode := None;
     isInitialized := false; config := cfg |}.

(** The processor together with the calls made so far and the next
    fresh platform object. *)
Record Machine := {
  proc : AudioProcessor;
  calls : list Call;
  fresh : nat
}.

Inductive Slot :=
| SourceNode | GainNode | AnalyserNode
| LowShelf | MidPeaking | HighShelf
| CompressorNode | LimiterNode.

Definition getSlot (sl : Slot) (p : AudioProcessor) : option NodeId :=
  match sl with
  | SourceNode => sourceNode p | GainNode => gainNode p
  | AnalyserNode => analyserNode p | LowShelf => lowShelf p
  | MidPeaking => midPeaking p | HighShelf => highShelf p
  | CompressorNode => compressorNode p | LimiterNode => limiterNode p
  end.

Definition setSlot (sl : Slot) (v : option NodeId) (p : AudioProcessor) : AudioProcessor :=
  {| audioContext := audioContext p;
     sourceNode := match sl with SourceNode => v | _ => sourceNode p end;
     gainNode := match sl with GainNode => v | _ => gainNode p end;
     lowShelf := match sl with LowShelf => v | _ => lowShelf p end;
     midPeaking := match sl with MidPeaking => v | _ => midPeaking p end;
     highShelf := match sl with HighShelf => v | _ => highShelf p end;
     compressorNode := match sl with CompressorNode => v | _ => compressorNode p end;
     limiterNode := match sl with LimiterNode => v | _ => limiterNode p end;
     analyserNode := match sl with AnalyserNode => v | _ => analyserNode p end;
     isInitialized := isInitialized p; config := config p |}.

Definition setContext (v : option CtxId) (p : AudioProcessor) : AudioProcessor :=
  {| audioContext := v; sourceNode := sourceNode p; gainNode := gainNode p;
     lowShelf := lowShelf p; midPeaking := midPeaking p; highShelf := highShelf p;
     compressorNode := compressorNode p; limiterNode := limiterNode p;
     analyserNode := analyserNode p; isInitialized := isInitialized p;
     config := config p |}.

Definition setInitialized (b : bool) (p : AudioProcessor) : AudioProcessor :=
  {| audioContext := audioContext p; sourceNode := sourceNode p; gainNode := gainNode p;
     lowShelf := lowShelf p; midPeaking := midPeaking p; highShelf := highShelf p;
     compressorNode := compressorNode p; limiterNode := limiterNode p;
     analyserNode := analyserNode p; isInitialized := b; config := config p |}.

(** *** A state-and-exception monad for methods of the class *)

Definition M (A : Type) : Type := Machine -> (Exn + A) * Machine.

Definition ret {A} (a : A) : M A := fun m => (inr a, m).

Definition bind {A B} (x : M A) (f : A -> M B) : M B :=
  fun m => match x m with
           | (inr a, m') => f a m'
           | (inl e, m') => (inl e, m')
           end.

Definition throw {A} (e : Exn) : M A := fun m => (inl e, m).

(** [try { body } catch (e) { handler(e) }] *)
Definition tryCatch {A} (body : M A) (handler : Exn -> M A) : M A :=
  fun m => match body m with
           | (inr a, m') => (inr a, m')
           | (inl e, m') => handler e m'
           end.

Definition get : M AudioProcessor := fun m => (inr (proc m), m).

Definition modify (f : AudioProcessor -> AudioProcessor) : M unit :=
  fun m => (inr tt, {| proc := f (proc m); calls := calls m; fresh := fresh m |}).

Notation "x <- a ;; b" := (bind a (fun x => b))
  (at level 100, a at next level, right associativity).
Notation "a ;;; b" := (bind a (fun _ => b))
  (at level 100, right associativity).

Definition when (b : bool) (body : M unit) : M unit :=
  if b then body else ret tt.

Section Platform.
(** Whether a call raises, given the calls made before it. *)
Variable platform : list Call -> Call -> option Exn.
(** [window.AudioContext || window.webkitAudioContext] exists. *)
Variable supported : bool.
(** A new context starts in state 'suspended'. *)
Variable suspended : bool.

Definition call (c : Call) : M unit :=
  fun m =>
    let m' := {| proc := proc m; calls := (calls m ++ [c])%list; fresh := fresh m |} in
    match platform (calls m) c with
    | Some e => (inl e, m')
    | None => (inr tt, m')
    end.

(** A call that returns a new platform object. *)
Definition construct (c : Call) : M nat :=
  fun m =>
    let logged := (calls m ++ [c])%list in
    match platform (calls m) c with
    | Some e => (inl e, {| proc := proc m; calls := logged; fresh := fresh m |})
    | None => (inr (fresh m), {| proc := proc m; calls := logged; fresh := S (fresh m) |})
    end.

(** [try { node.disconnect() } catch (e) { }] *)
Definition disconnectQuietly (n : NodeId) : M unit :=
  tryCatch (call (Disconnect n)) (fun _ => ret tt).

(** [if (this.x) { try { this.x.disconnect() } catch {} this.x = null }] *)
Definition release (sl : Slot) : M unit :=
  p <- get ;;
  match getSlot sl p with
  | Some n => disconnectQuietly n ;;; modify (setSlot sl None)
  | None => ret tt
  end.

(** One step of [Object.keys(this.eqNodes).forEach(...)] *)
Definition disconnectEq (sl : Slot) : M unit :=
  p <- get ;;
  match getSlot sl p with
  | Some n => disconnectQuietly n
  | None => ret tt
  end.

Definition dispose : M unit :=
  release SourceNode ;;;
  release GainNode ;;;
  release AnalyserNode ;;;
  disconnectEq LowShelf ;;;
  disconnectEq MidPeaking ;;;
  disconnectEq HighShelf ;;;
  modify (fun p => setSlot LowShelf None (setSlot MidPeaking None (setSlot HighShelf None p))) ;;;
  release CompressorNode ;;;
  release LimiterNode ;;;
  (p <- get ;;
   match audioContext p with
   | Some ctx =>
       tryCatch (call (Close ctx)) (fun _ => ret tt) ;;;
       modify (setContext None)
   | None => ret tt
   end) ;;;
  modify (setInitialized false).

Definition setupEqualizer : M unit :=
  p <- get ;;
  match lowShelf p, midPeaking p, highShelf p with
  | Some l, Some m, Some h =>
      call (Configure l) ;;; call (Configure m) ;;; call (Configure h)
  | _, _, _ => ret tt
  end.

Definition setupDynamicsProcessing : M unit :=
  p <- get ;;
  match compressorNode p, limiterNode p with
  | Some c, Some l => call (Configure c) ;;; call (Configure l)
  | _, _ => ret tt
  end.

Definition connectProcessingChain : M unit :=
  p <- get ;;
  match sourceNode p, audioContext p with
  | Some source, Some ctx =>
      currentNode <-
        (match enableEQ (config p), lowShelf p, midPeaking p, highShelf p with
         | true, Some l, Some m, Some h =>
             call (Connect source l) ;;; call (Connect l m) ;;;
             call (Connect m h) ;;; ret h
         | _, _, _, _ => ret source
         end) ;;
      currentNode <-
        (match enableLimiter (config p), compressorNode p, limiterNode p with
         | true, Some c, Some l =>
             call (Connect currentNode c) ;;; call (Connect c l) ;;; ret l
         | _, _, _ => ret currentNode
         end) ;;
      currentNode <-
        (match gainNode p with
         | Some g => call (Connect currentNode g) ;;; ret g
         | None => ret currentNode
         end) ;;
      (match analyserNode p with
       | Some a => call (Connect currentNode a)
       | None => ret tt
       end) ;;;
      call (ConnectDestination currentNode ctx)
  | _, _ => ret tt
  end.

(** The body of the outer [try] of [initializeProcessing]. *)
Definition initializeBody : M bool :=
  p <- get ;;
  when (isInitialized p) dispose ;;;
  if negb supported then ret false
  else
    ctx <- construct NewContext ;;
    modify (setContext (Some ctx)) ;;;
    when suspended (call (Resume ctx)) ;;;
    attached <-
      tryCatch
        (src <- construct (Create ctx MediaElementSource) ;;
         modify (setSlot SourceNode (Some src)) ;;; ret true)
        (fun e => match e with
                  | InvalidStateAlreadyConnected =>
                      call (Close ctx) ;;; modify (setContext None) ;;; ret false
                  | _ => throw e
                  end) ;;
    if negb attached then ret false
    else
      g <- construct (Create ctx Gain) ;;
      modify (setSlot GainNode (Some g)) ;;;
      a <- construct (Create ctx Analyser) ;;
      modify (setSlot AnalyserNode (Some a)) ;;;
      when (enableEQ (config p))
        (l <- construct (Create ctx BiquadFilter) ;;
         modify (setSlot LowShelf (Some l)) ;;;
         m <- construct (Create ctx BiquadFilter) ;;
         modify (setSlot MidPeaking (Some m)) ;;;
         h <- construct (Create ctx BiquadFilter) ;;
         modify (setSlot HighShelf (Some h)) ;;;
         setupEqualizer) ;;;
      when (enableLimiter (config p))
        (c <- construct (Create ctx DynamicsCompressor) ;;
         modify (setSlot CompressorNode (Some c)) ;;;
         l <- construct (Create ctx DynamicsCompressor) ;;
         modify (setSlot LimiterNode (Some l)) ;;;
         setupDynamicsProcessing) ;;;
      connectProcessingChain ;;;
      modify (setInitialized true) ;;;
      ret true.

Definition initializeProcessing : M bool :=
  tryCatch initializeBody (fun _ => dispose ;;; ret false).

End Platform.

(** Every node and the context are released. *)
Definition released (p : AudioProcessor) : Prop :=
  audioContext p = None /\ sourceNode p = None /\ gainNode p = None
  /\ analyserNode p = None /\ lowShelf p = None /\ midPeaking p = None
  /\ highShelf p = None /\ compressorNode p = None /\ limiterNode p = None
  /\ isInitialized p = false.

(** The calls [dispose] makes on processor [p], in order. *)
Definition disposeCalls (p : AudioProcessor) : list Call :=
  option_list (Disconnect <$> sourceNode p)
  ++ option_list (Disconnect <$> gainNode p)
  ++ option_list (Disconnect <$> analyserNode p)
  ++ option_list (Disconnect <$> lowShelf p)
  ++ option_list (Disconnect <$> midPeaking p)
  ++ option_list (Disconnect <$> highShelf p)
  ++ option_list (Disconnect <$> compressorNode p)
  ++ option_list (Disconnect <$> limiterNode p)
  ++ option_list (Close <$> audioContext p).

(** The machine [dispose] leaves behind. *)
Definition disposed (m : Machine) : Machine :=
  {| proc := newProcessor (config (proc m));
     calls := calls m ++ disposeCalls (proc m);
     fresh := fresh m |}.

Definition logCalls (cs : list Call) (m : Machine) : Machine :=
  {| proc := proc m; calls := calls m ++ cs; fresh := fresh m |}.

(** A platform that refuses to create the gain node. *)
Definition failsOnGain (_ : list Call) (c : Call) : option Exn :=
  match c with
  | Create _ Gain => Some (OtherException "NotSupportedError")
  | _ => None
  end.

Definition startMachine : Machine :=
  {| proc := newProcessor {| enableEQ := true; enableLimiter := true |};
     calls := []; fresh := O |}.

(** Every node the configuration asks for exists and the processor is
    marked initialized. *)
Definition built (p : AudioProcessor) : Prop :=
  isInitialized p = true
  /\ is_Some (audioContext p) /\ is_Some (sourceNode p)
  /\ is_Some (gainNode p) /\ is_Some (analyserNode p)
  /\ (enableEQ (config p) = true ->
      is_Some (lowShelf p) /\ is_Some (midPeaking p) /\ is_Some (highShelf p))
  /\ (enableLimiter (config p) = true ->
      is_Some (compressorNode p) /\ is_Some (limiterNode p)).

(** Either initialized or holding nothing at all. *)
Definition settled (p : AudioProcessor) : Prop :=
  isInitialized p = true \/ released p.

(** *** The connections between nodes *)

(** Where an output is connected to: the input of another node, or the
    destination of a context. *)
Inductive Target :=
| ToNode (n : NodeId)
| ToDestination (ctx : CtxId).

#[global] Instance Target_eq_dec : EqDecision Target.
Proof. solve_decision. Defined.

#[global] Instance Target_countable : Countable Target.
Proof.
  refine (inj_countable'
            (fun t => match t with ToNode n => inl n | ToDestination c => inr c end)
            (fun x => match x with inl n => ToNode n | inr c => ToDestination c end)
            _).
  by intros [].
Defined.

Definition Edge : Type := nat * Target.
Definition Graph : Type := gset Edge.

(** What a call that completes does to the connections: [a.connect(b)]
    adds one (connecting twice is the same as once), [a.disconnect()]
    removes every connection leaving [a]. *)
Definition effect (c : Call) (g : Graph) : Graph :=
  match c with
  | Connect a b => g ∪ {[ (a, ToNode b) ]}
  | ConnectDestination a ctx => g ∪ {[ (a, ToDestination ctx) ]}
  | Disconnect a => filter (fun e => e.1 <> a) g
  | _ => g
  end.

(** The calls [connectProcessingChain] makes on processor [p] when none
    of them raises, in order. *)
Definition chainCalls (p : AudioProcessor) : list Call :=
  match sourceNode p, audioContext p with
  | Some source, Some ctx =>
      let eq :=
        match enableEQ (config p), lowShelf p, midPeaking p, highShelf p with
        | true, Some l, Some m, Some h =>
            (h, [Connect source l; Connect l m; Connect m h])
        | _, _, _, _ => (source, [])
        end in
      let dyn :=
        match enableLimiter (config p), compressorNode p, limiterNode p with
        | true, Some c, Some l => (l, [Connect eq.1 c; Connect c l])
        | _, _, _ => (eq.1, [])
        end in
      let out :=
        match gainNode p with
        | Some g => (g, [Connect dyn.1 g])
        | None => (dyn.1, [])
        end in
      eq.2 ++ dyn.2 ++ out.2
      ++ option_list (Connect out.1 <$> analyserNode p)
      ++ [ConnectDestination out.1 ctx]
  | _, _ => []
  end.

(** The connections of the processing chain of [p]. *)
Definition chainEdges (p : AudioProcessor) : Graph :=
  foldr effect ∅ (chainCalls p).

(** The stages a signal passes on its way from the element to the
    speakers. *)
Definition signalPath (p : AudioProcessor) : list NodeId :=
  omap id
    ([sourceNode p]
     ++ (if enableEQ (config p)
         then [lowShelf p; midPeaking p; highShelf p] else [])
     ++ (if enableLimiter (config p)
         then [compressorNode p; limiterNode p] else [])
     ++ [gainNode p]).

(** Each node of the list is connected to the one after it. *)
Fixpoint inOrder (g : Graph) (nodes : list NodeId) : Prop :=
  match nodes with
  | a :: (b :: _) as rest => (a, ToNode b) ∈ g /\ inOrder g rest
  | _ => True
  end.

(** The processing chain is what is connected to the source node. *)
Definition processing (p : AudioProcessor) (g : Graph) : Prop :=
  chainEdges p ⊆ g
  /\ forall s e, sourceNode p = Some s -> e ∈ g -> e.1 = s -> e ∈ chainEdges p.

Section Connections.
Variable platform : list Call -> Call -> option Exn.

(** The connections after the calls [todo], made after the calls [done]
    that led to the connections [g]; a call that raises changes nothing. *)
Fixpoint replay (done : list Call) (g : Graph) (todo : list Call) : Graph :=
  match todo with
  | [] => g
  | c :: rest =>
      replay (done ++ [c])
        (match platform done c with Some _ => g | None => effect c g end)
        rest
  end.

(** None of the calls [todo], made one after the other after the calls
    [done], raises. *)
Fixpoint passes (done : list Call) (todo : list Call) : Prop :=
  match todo with
  | [] => True
  | c :: rest => platform done c = None /\ passes (done ++ [c]) rest
  end.

(** The connections a log of calls leaves. *)
Definition connections (cs : list Call) : Graph := replay [] ∅ cs.

(** The chain of the processor is connected: stage to stage in order,
    the last stage to the analyser and to the speakers. *)
Definition wired (m : Machine) : Prop :=
  let g := connections (calls m) in
  chainEdges (proc m) ⊆ g
  /\ inOrder g (signalPath (proc m))
  /\ exists out ctx,
       gainNode (proc m) = Some out /\ audioContext (proc m) = Some ctx
       /\ (out, ToDestination ctx) ∈ g
       /\ forall a, analyserNode (proc m) = Some a -> (out, ToNode a) ∈ g.

Definition setBypass (bypass : bool) : M unit :=
  p <- get ;;
  match sourceNode p, audioContext p with
  | Some source, Some ctx =>
      if bypass then
        call platform (Disconnect source) ;;;
        call platform (ConnectDestination source ctx)
      else
        call platform (Disconnect source) ;;;
        connectProcessingChain platform
  | _, _ => ret tt
  end.

End Connections.

Definition connects (c : Call) : bool :=
  match c with
  | Connect _ _ | ConnectDestination _ _ => true
  | _ => false
  end.

(** A platform on which no call raises. *)
Definition quiet (_ : list Call) (_ : Call) : option Exn := None.

(** The default processor after a construction on which nothing raised,
    and after the bypass was then switched on. *)
Definition builtMachine : Machine :=
  Eval vm_compute in snd (initializeProcessing quiet true false startMachine).

Definition bypassedMachine : Machine :=
  Eval vm_compute in snd (setBypass quiet true builtMachine).

End Processor.

(* ===================================================================== *)
(** * Properties *)
(* ===================================================================== *)

(** ** Source Selector *)

Module SelectorProofs.
Import JsString SourceSelector.

Section StableSort.
Context {A : Type} (cmp : A -> A -> Z).

Hypothesis cmp_total : forall a b, 0 < cmp a b -> cmp b a <= 0.
Hypothesis cmp_trans : forall a b c, cmp a b <= 0 -> cmp b c <= 0 -> cmp a c <= 0.

Lemma insertSorted_perm x l : insertSorted cmp x l ≡ₚ x :: l.
Proof.
  induction l as [|y l IH]; simpl; [done|].
  destruct (cmp x y <=? 0); [done|].
  rewrite IH. apply perm_swap.
Qed.

Lemma sortBy_perm l : sortBy cmp l ≡ₚ l.
Proof.
  induction l as [|x l IH]; simpl; [done|].
  rewrite insertSorted_perm. by rewrite IH.
Qed.

Lemma insertSorted_sorted x l :
  StronglySorted (precedes cmp) l -> StronglySorted (precedes cmp) (insertSorted cmp x l).
Proof.
  induction 1 as [|y l Hs IH Hall]; simpl.
  - repeat constructor.
  - destruct (Z.leb_spec (cmp x y) 0) as [Hle|Hgt].
    + constructor; [by constructor|].
      constructor; [exact Hle|].
      eapply Forall_impl; [exact Hall|].
      intros z Hz. unfold precedes in *. eauto.
    + constructor; [exact IH|].
      rewrite insertSorted_perm. constructor; [|exact Hall].
      unfold precedes. auto.
Qed.

Lemma sortBy_sorted l : StronglySorted (precedes cmp) (sortBy cmp l).
Proof.
  induction l as [|x l IH]; simpl; [constructor|].
  by apply insertSorted_sorted.
Qed.
End StableSort.

Lemma tierAbove_priority t u :
  tierAbove t u <-> qualityPriority u < qualityPriority t.
Proof.
  split.
  - by destruct 1.
  - destruct t, u; simpl; intros H; try lia; constructor.
Qed.

Lemma same_priority t u : qualityPriority t = qualityPriority u <-> t = u.
Proof. split; [|by intros ->]. destruct t, u; simpl; intros H; try lia; done. Qed.

Lemma hasBitrate_carries a :
  (hasBitrate a = true <-> exists x, carries a x)
  /\ (hasBitrate a = false <-> carriesNone a).
Proof.
  unfold hasBitrate, carries, carriesNone.
  destruct (bitrate a) as [n|]; [destruct (Z.eqb_spec n 0) as [->|Hn]|]; simpl.
  - split; split; try done; [intros (x & [= <-] & Hx); done | by right].
  - split; split; try done; [by exists n | intros [H|[= H]]; done].
  - split; split; try done; [intros (x & H & _); done | by left].
Qed.

Lemma compare_precedes_ranks a b :
  compareQualities a b <= 0 <-> ranksNoLower a b.
Proof.
  unfold compareQualities, ranksNoLower.
  rewrite tierAbove_priority, <- same_priority.
  destruct (hasBitrate_carries a) as [Ha1 Ha0], (hasBitrate_carries b) as [Hb1 Hb0].
  destruct (Z.eqb_spec (qualityPriority (quality b) - qualityPriority (quality a)) 0)
    as [He|Hne]; simpl.
  2:{ split; intros H; [left; lia|]. destruct H as [H|[H _]]; lia. }
  destruct (hasBitrate a) eqn:Ea, (hasBitrate b) eqn:Eb; simpl.
  - destruct (proj1 Ha1 eq_refl) as (x & Hx), (proj1 Hb1 eq_refl) as (y & Hy).
    unfold bitrateValue. rewrite (proj1 Hx), (proj1 Hy). simpl. split.
    + intros H. right. split; [lia|]. left. exists x, y. split; [done|].
      split; [done|lia].
    + intros [H|[_ [(x' & y' & [Hx' _] & [Hy' _] & Hle)|[[_ Hn]|[Hn _]]]]].
      * lia.
      * rewrite (proj1 Hx) in Hx'. rewrite (proj1 Hy) in Hy'.
        injection Hx' as ->. injection Hy' as ->. lia.
      * apply Hb0 in Hn. discriminate.
      * apply Ha0 in Hn. discriminate.
  - split; [intros _|lia]. right. split; [lia|]. right. left.
    split; [by apply Ha1 | by apply Hb0].
  - split; [lia|].
    intros [H|[_ [(x & y & Hx & _)|[[Hx _]|[_ Hn]]]]].
    + lia.
    + assert (false = true) by (apply Ha1; eauto). done.
    + by apply Ha1 in Hx.
    + by apply Hb0 in Hn.
  - split; [intros _|lia]. right. split; [lia|]. right. right.
    split; [by apply Ha0 | by apply Hb0].
Qed.

Lemma compare_total a b :
  0 < compareQualities a b -> compareQualities b a <= 0.
Proof.
  unfold compareQualities.
  destruct (Z.eqb_spec (qualityPriority (quality b) - qualityPriority (quality a)) 0),
           (Z.eqb_spec (qualityPriority (quality a) - qualityPriority (quality b)) 0);
    simpl; try lia.
  destruct (hasBitrate a), (hasBitrate b); simpl; lia.
Qed.

Lemma compare_trans a b c :
  compareQualities a b <= 0 -> compareQualities b c <= 0 -> compareQualities a c <= 0.
Proof.
  unfold compareQualities.
  destruct (Z.eqb_spec (qualityPriority (quality b) - qualityPriority (quality a)) 0),
           (Z.eqb_spec (qualityPriority (quality c) - qualityPriority (quality b)) 0),
           (Z.eqb_spec (qualityPriority (quality c) - qualityPriority (quality a)) 0);
    simpl; try lia;
    destruct (hasBitrate a), (hasBitrate b), (hasBitrate c); simpl; lia.
Qed.

Lemma sorted_by_rank l :
  StronglySorted ranksNoLower (sortBy compareQualities l).
Proof.
  pose proof (sortBy_sorted compareQualities compare_total compare_trans l) as H.
  induction H as [|x xs Hs IH Hall]; constructor; [exact IH|].
  eapply Forall_impl; [exact Hall|].
  intros y Hy. by apply compare_precedes_ranks.
Qed.

Lemma ranksNoLower_refl a : ranksNoLower a a.
Proof.
  apply compare_precedes_ranks. unfold compareQualities.
  rewrite Z.sub_diag. simpl. destruct (hasBitrate a); simpl; lia.
Qed.

(** The decision is the head of the sorted list, or the empty decision. *)
Lemma select_unfold l :
  selectOptimalAudioSource l =
  match sortBy compareQualities (map parseCandidate (List.filter usable l)) with
  | [] => emptyDecision
  | top :: rest =>
      {| selectedUrl := url top; detectedQuality := quality top;
         detectedBitrate := bitrate top; detectedFormat := Some (format top);
         availableQualities := top :: rest |}
  end.
Proof.
  destruct l as [|d l]; [reflexivity|].
  unfold selectOptimalAudioSource.
  destruct (sortBy compareQualities (map parseCandidate (List.filter usable (d :: l))));
    reflexivity.
Qed.

Lemma select_available l :
  availableQualities (selectOptimalAudioSource l)
  = sortBy compareQualities (map parseCandidate (List.filter usable l)).
Proof.
  rewrite select_unfold.
  destruct (sortBy compareQualities (map parseCandidate (List.filter usable l)));
    reflexivity.
Qed.

Lemma filter_all_usable l :
  Forall (fun item => usable item = true) l -> List.filter usable l = l.
Proof. induction 1 as [|x l Hx _ IH]; simpl; [done|]. by rewrite Hx, IH. Qed.

Lemma parse_tagged q u t b :
  truthy q = true -> parseQualityTag q = (t, Some b) -> t <> unknown ->
  parseCandidate {| quality_tag := Some q; link := u |}
  = {| url := u; bitrate := Some b; format := detectFormat u; quality := t |}.
Proof.
  intros Hq Hp Ht. unfold parseCandidate. cbn [quality_tag link].
  rewrite Hq, Hp. destruct t; done.
Qed.

(** C5. [selectOptimalAudioSource] keeps exactly the parsed usable
    candidates, ordered by tier (high, medium, low, unknown), within a
    tier by bitrate from high to low, a candidate with a bitrate before
    one without; the selected source is the head of that list and ranks
    no lower than any other candidate. For candidates tagged 96kbps,
    160kbps and 320kbps with non-blank links, the 320kbps link is
    selected with tier [high]. For candidates tagged 64, 96, 128, 160,
    256 and 320 kbps, listed from the lowest to the highest, the retained
    list is in the opposite order: 320 before 256 in tier high, 160
    before 128 in medium, 96 before 64 in low. *)
Theorem select_orders_and_takes_top :
  (forall downloadUrls : list DownloadItem,
      let info := selectOptimalAudioSource downloadUrls in
      availableQualities info ≡ₚ map parseCandidate (List.filter usable downloadUrls)
      /\ StronglySorted ranksNoLower (availableQualities info)
      /\ forall top rest, availableQualities info = top :: rest ->
           selectedUrl info = url top
           /\ detectedQuality info = quality top
           /\ detectedBitrate info = bitrate top
           /\ forall c, c ∈ availableQualities info -> ranksNoLower top c)
  /\ (forall u96 u160 u320 : string,
        usable {| quality_tag := Some "96kbps"; link := u96 |} = true ->
        usable {| quality_tag := Some "160kbps"; link := u160 |} = true ->
        usable {| quality_tag := Some "320kbps"; link := u320 |} = true ->
        let info := selectOptimalAudioSource
                      [ {| quality_tag := Some "96kbps"; link := u96 |};
                        {| quality_tag := Some "160kbps"; link := u160 |};
                        {| quality_tag := Some "320kbps"; link := u320 |} ] in
        selectedUrl info = u320
        /\ detectedQuality info = high
        /\ detectedBitrate info = Some 320
        /\ map url (availableQualities info) = [u320; u160; u96])
  /\ (forall u64 u96 u128 u160 u256 u320 : string,
        let candidates :=
          [ tagged "64kbps" u64; tagged "96kbps" u96; tagged "128kbps" u128;
            tagged "160kbps" u160; tagged "256kbps" u256; tagged "320kbps" u320 ] in
        Forall (fun item => usable item = true) candidates ->
        let info := selectOptimalAudioSource candidates in
        selectedUrl info = u320
        /\ detectedQuality info = high
        /\ detectedBitrate info = Some 320
        /\ map url (availableQualities info) = [u320; u256; u160; u128; u96; u64]
        /\ map quality (availableQualities info)
           = [high; high; medium; medium; low; low]
        /\ map bitrate (availableQualities info)
           = [Some 320; Some 256; Some 160; Some 128; Some 96; Some 64]).
Proof.
  split; [|split].
  - intros l info. subst info.
    rewrite select_available.
    split; [apply (sortBy_perm compareQualities)|].
    split; [apply sorted_by_rank|].
    intros top rest Heq.
    pose proof (sorted_by_rank (map parseCandidate (List.filter usable l))) as Hs.
    rewrite select_unfold. rewrite Heq in *. simpl.
    repeat split; try reflexivity.
    intros c Hc. apply elem_of_cons in Hc as [->|Hc]; [apply ranksNoLower_refl|].
    apply StronglySorted_inv in Hs as [_ Hall].
    rewrite Forall_forall in Hall. apply Hall. exact Hc.
  - intros u96 u160 u320 H1 H2 H3 info. subst info.
    rewrite select_unfold. simpl List.filter. rewrite H1, H2, H3.
    simpl map.
    rewrite (parse_tagged "96kbps" u96 low 96) by (first [discriminate | vm_compute; reflexivity]).
    rewrite (parse_tagged "160kbps" u160 medium 160) by (first [discriminate | vm_compute; reflexivity]).
    rewrite (parse_tagged "320kbps" u320 high 320) by (first [discriminate | vm_compute; reflexivity]).
    cbn. done.
  - intros u64 u96 u128 u160 u256 u320 candidates Hus info. subst info candidates.
    rewrite select_unfold.
    rewrite (filter_all_usable _ Hus).
    unfold tagged. simpl map.
    rewrite (parse_tagged "64kbps" u64 low 64) by (first [discriminate | vm_compute; reflexivity]).
    rewrite (parse_tagged "96kbps" u96 low 96) by (first [discriminate | vm_compute; reflexivity]).
    rewrite (parse_tagged "128kbps" u128 medium 128) by (first [discriminate | vm_compute; reflexivity]).
    rewrite (parse_tagged "160kbps" u160 medium 160) by (first [discriminate | vm_compute; reflexivity]).
    rewrite (parse_tagged "256kbps" u256 high 256) by (first [discriminate | vm_compute; reflexivity]).
    rewrite (parse_tagged "320kbps" u320 high 320) by (first [discriminate | vm_compute; reflexivity]).
    cbn. done.
Qed.

(** Witness for C5 on JioSaavn-style links. *)
Lemma select_orders_and_takes_top_witness :
  let info := selectOptimalAudioSource
                [ {| quality_tag := Some "96kbps"; link := "https://cdn/a_96.mp4" |};
                  {| quality_tag := Some "160kbps"; link := "https://cdn/a_160.mp4" |};
                  {| quality_tag := Some "320kbps"; link := "https://cdn/a_320.mp4" |} ] in
  selectedUrl info = "https://cdn/a_320.mp4" /\ detectedQuality info = high.
Proof.
  destruct (proj1 (proj2 select_orders_and_takes_top)
              "https://cdn/a_96.mp4" "https://cdn/a_160.mp4" "https://cdn/a_320.mp4"
              eq_refl eq_refl eq_refl) as (H1 & H2 & _).
  split; [exact H1 | exact H2].
Defined.

End SelectorProofs.

(** ** Resilience Layer *)

Module RateLimitProofs.
Import RateLimit.

Lemma shouldDelay_first now ep (limits : gmap string RateLimitInfo) :
  limits !! ep = None -> fst (shouldDelay now ep limits) = 0.
Proof. intros H. unfold shouldDelay. by rewrite H. Qed.

Lemma shouldDelay_after_reset now ep (limits : gmap string RateLimitInfo) info :
  limits !! ep = Some info -> resetTime info < now ->
  fst (shouldDelay now ep limits) = 0.
Proof.
  intros H Hlt. unfold shouldDelay. rewrite H.
  destruct (Z.ltb_spec (resetTime info) now); [done|lia].
Qed.

Lemma shouldDelay_capped now ep (limits : gmap string RateLimitInfo) info :
  limits !! ep = Some info -> MAX_CALLS_PER_MINUTE <= callCount info ->
  now <= resetTime info ->
  shouldDelay now ep limits = (resetTime info - now, limits).
Proof.
  intros H Hcap Hwin. unfold shouldDelay. rewrite H.
  destruct (Z.ltb_spec (resetTime info) now); [lia|].
  destruct (Z.leb_spec MAX_CALLS_PER_MINUTE (callCount info)); [done|lia].
Qed.

Lemma shouldDelay_spacing now ep (limits : gmap string RateLimitInfo) info :
  limits !! ep = Some info -> callCount info < MAX_CALLS_PER_MINUTE ->
  now <= resetTime info ->
  fst (shouldDelay now ep limits) = Z.max 0 (DEFAULT_DELAY - (now - lastCall info)).
Proof.
  intros H Hcap Hwin. unfold shouldDelay. rewrite H.
  destruct (Z.ltb_spec (resetTime info) now); [lia|].
  destruct (Z.leb_spec MAX_CALLS_PER_MINUTE (callCount info)); [lia|done].
Qed.

Lemma delaysAt_capped times ep (limits : gmap string RateLimitInfo) info :
  limits !! ep = Some info -> MAX_CALLS_PER_MINUTE <= callCount info ->
  Forall (fun t => t <= resetTime info) times ->
  delaysAt times ep limits = (map (fun t => resetTime info - t) times, limits).
Proof.
  intros H Hcap. induction 1 as [|t times Ht _ IH]; simpl; [done|].
  rewrite (shouldDelay_capped t ep limits info H Hcap Ht). by rewrite IH.
Qed.

(** C7, as amended. While the endpoint's count is at the cap of 60 and
    the reset time has not passed, every [shouldDelay] call returns the
    remaining window time [resetTime - now] and leaves the record as it
    is; that value is positive at every instant before the reset time
    and 0 at the reset time itself. Below the cap the result is the
    shortfall against the 500 ms spacing, 0 once 500 ms have elapsed;
    the first call to an endpoint and a call after the reset time
    return 0. *)
Theorem shouldDelay_window_and_spacing
    (ep : string) (limits : gmap string RateLimitInfo) (info : RateLimitInfo)
    (Hinfo : limits !! ep = Some info) :
  (MAX_CALLS_PER_MINUTE <= callCount info ->
     forall times, Forall (fun t => t <= resetTime info) times ->
       delaysAt times ep limits = (map (fun t => resetTime info - t) times, limits)
       /\ Forall (fun d => 0 <= d) (fst (delaysAt times ep limits))
       /\ (Forall (fun t => t < resetTime info) times ->
           Forall (fun d => 0 < d) (fst (delaysAt times ep limits))))
  /\ (callCount info < MAX_CALLS_PER_MINUTE ->
      forall now, now <= resetTime info ->
        fst (shouldDelay now ep limits) = Z.max 0 (500 - (now - lastCall info))
        /\ (500 <= now - lastCall info -> fst (shouldDelay now ep limits) = 0))
  /\ (forall now, resetTime info < now -> fst (shouldDelay now ep limits) = 0)
  /\ (forall now, fst (shouldDelay now ep (delete ep limits)) = 0).
Proof.
  repeat split.
  - by apply delaysAt_capped.
  - rewrite (delaysAt_capped times ep limits info) by done. simpl.
    apply Forall_fmap. eapply Forall_impl; [eassumption|]. simpl. intros; lia.
  - intros Hlt. rewrite (delaysAt_capped times ep limits info) by done. simpl.
    apply Forall_fmap. eapply Forall_impl; [exact Hlt|]. simpl. intros; lia.
  - by apply shouldDelay_spacing.
  - intros Hgap. rewrite (shouldDelay_spacing now ep limits info) by done.
    unfold DEFAULT_DELAY. lia.
  - intros now Hlt. by eapply shouldDelay_after_reset.
  - intros now. apply shouldDelay_first. apply lookup_delete_eq.
Qed.

Lemma shouldDelay_window_and_spacing_witness :
  delaysAt [950; 999] "songs" cappedLimits
  = ([50; 1], cappedLimits).
Proof.
  destruct (shouldDelay_window_and_spacing "songs" cappedLimits cappedInfo
              (lookup_singleton_eq "songs" cappedInfo)) as (Hcap & _).
  destruct (Hcap ltac:(simpl; unfold MAX_CALLS_PER_MINUTE; lia) [950; 999]) as (Heq & _).
  - repeat constructor; simpl; lia.
  - exact Heq.
Defined.

(** C7 as stated fails at the reset instant: the count is at the cap, the
    window has not been reset (the record is unchanged), yet the
    returned delay is 0, not positive. *)
Lemma shouldDelay_capped_zero_at_reset_time :
  cappedLimits !! "songs" = Some cappedInfo
  /\ MAX_CALLS_PER_MINUTE <= callCount cappedInfo
  /\ shouldDelay 1000 "songs" cappedLimits = (0, cappedLimits)
  /\ ~ 0 < fst (shouldDelay 1000 "songs" cappedLimits).
Proof.
  assert (Hl : cappedLimits !! "songs" = Some cappedInfo)
    by apply lookup_singleton_eq.
  split; [exact Hl|]. split; [unfold MAX_CALLS_PER_MINUTE; simpl; lia|].
  assert (Heq : shouldDelay 1000 "songs" cappedLimits
                = (0, cappedLimits)).
  { unfold shouldDelay. rewrite Hl. reflexivity. }
  split; [exact Heq|]. rewrite Heq. simpl. lia.
Qed.

(** *** recordFailure *)

Lemma recordFailure_known now ep (limits : gmap string RateLimitInfo) info :
  limits !! ep = Some info ->
  recordFailure now ep 403 limits !! ep
  = Some {| lastCall := lastCall info; callCount := 60; resetTime := now + 120000 |}.
Proof.
  intros Hinfo. unfold recordFailure. simpl. rewrite Hinfo.
  by rewrite lookup_insert_eq.
Qed.

(** C8, as amended. For an endpoint that already has a record, a 403
    failure recorded at [now] sets the count to the cap of 60 and the
    reset time to [now + 120 s], so every [shouldDelay] call made before
    that reset time returns the positive remaining time, whatever the
    count was before. For an endpoint without a record [recordFailure]
    does nothing: the map is the same afterwards, and the next
    [shouldDelay] for that endpoint returns 0. The records of other
    endpoints are never touched, and other status codes change nothing. *)
Theorem recordFailure_saturates_known_endpoint
    (now : Z) (ep : string) (limits : gmap string RateLimitInfo) :
  let limits' := recordFailure now ep 403 limits in
  (forall info, limits !! ep = Some info ->
     limits' !! ep = Some {| lastCall := lastCall info; callCount := 60;
                             resetTime := now + 120000 |}
     /\ (forall next, next < now + 120000 ->
           fst (shouldDelay next ep limits') = now + 120000 - next
           /\ 0 < fst (shouldDelay next ep limits')))
  /\ (limits !! ep = None ->
      limits' = limits
      /\ forall next, fst (shouldDelay next ep limits') = 0)
  /\ (forall other, other <> ep -> limits' !! other = limits !! other)
  /\ (forall statusCode, statusCode <> 403 ->
        recordFailure now ep statusCode limits = limits).
Proof.
  intros limits'. split; [|split; [|split]].
  - intros info Hinfo.
    assert (Hl : limits' !! ep = Some {| lastCall := lastCall info; callCount := 60;
                                         resetTime := now + 120000 |}).
    { by apply recordFailure_known. }
    split; [exact Hl|]. intros next Hnext.
    rewrite (shouldDelay_capped next ep limits' _ Hl); simpl;
      unfold MAX_CALLS_PER_MINUTE; lia.
  - intros Hnone.
    assert (Hsame : limits' = limits).
    { subst limits'. unfold recordFailure. simpl. by rewrite Hnone. }
    split; [exact Hsame|]. intros next. rewrite Hsame.
    by apply shouldDelay_first.
  - intros other Hne. subst limits'. unfold recordFailure. simpl.
    destruct (limits !! ep); [|done]. by rewrite lookup_insert_ne.
  - intros statusCode Hne. unfold recordFailure.
    destruct (Z.eqb_spec statusCode 403); [lia|done].
Qed.

Lemma recordFailure_saturates_known_endpoint_witness :
  fst (shouldDelay 2000 "songs" (recordFailure 1500 "songs" 403 freshLimits)) = 119500.
Proof.
  destruct (proj1 (recordFailure_saturates_known_endpoint 1500 "songs" freshLimits)
              freshInfo (lookup_singleton_eq "songs" freshInfo)) as (_ & Hnext).
  destruct (Hnext 2000 ltac:(lia)) as [Heq _]. exact Heq.
Defined.

(** C8 as stated fails for an endpoint without a record: the failure is
    not recorded and the next [shouldDelay] returns 0. *)
Lemma recordFailure_unknown_endpoint_no_delay :
  recordFailure 1500 "songs" 403 ∅ = ∅
  /\ fst (shouldDelay 1501 "songs" (recordFailure 1500 "songs" 403 ∅)) = 0
  /\ ~ 0 < fst (shouldDelay 1501 "songs" (recordFailure 1500 "songs" 403 ∅))
  /\ fst (shouldDelay 121501 "songs" (recordFailure 1500 "songs" 403 freshLimits)) = 0.
Proof.
  assert (H : recordFailure 1500 "songs" 403 ∅ = ∅) by reflexivity.
  rewrite H. split; [done|].
  rewrite shouldDelay_first by apply lookup_empty. split; [done|]. split; [lia|].
  eapply shouldDelay_after_reset.
  - apply (recordFailure_known 1500 "songs" freshLimits freshInfo).
    apply lookup_singleton_eq.
  - simpl. lia.
Qed.

(** *** makeRateLimitedCall *)

Lemma invocations_app l1 l2 : invocations (l1 ++ l2) = invocations l1 ++ invocations l2.
Proof. apply omap_app. Qed.

Lemma backoffs_app l1 l2 : backoffs (l1 ++ l2) = backoffs l1 ++ backoffs l2.
Proof. apply omap_app. Qed.

Lemma recommended_silent endpoint w :
  invocations (recommended endpoint w) = [] /\ backoffs (recommended endpoint w) = [].
Proof. unfold recommended. by destruct (0 <? _). Qed.

Lemma consultLimiter_trace endpoint w :
  trace (consultLimiter endpoint w) = trace w ++ recommended endpoint w.
Proof.
  unfold consultLimiter, recommended.
  destruct (shouldDelay (clock w) endpoint (limits w)) as [delay limits']. simpl.
  destruct (0 <? delay); simpl; [done|]. by rewrite app_nil_r.
Qed.

Lemma noteFailure_trace endpoint e w : trace (noteFailure endpoint e w) = trace w.
Proof. unfold noteFailure. by destruct (statusTruthy e). Qed.

Section WrapperFacts.
Context {T : Type}.
Variable apiCall : Z -> Z * Settled T.
Variable endpoint : string.
Variable mr rd : Z.

(** The run settles at the attempt at hand. *)
Ltac settle_here :=
  match goal with
  | |- exists k, settlesAt _ _ _ _ ?a _ _ k => exists a; unfold settlesAt; simpl
  end.

Ltac settled_trace :=
  match goal with
  | Hri : invocations (recommended _ _) = [], Hrb : backoffs (recommended _ _) = []
    |- context [seqZ ?a _] =>
      rewrite !invocations_app, !backoffs_app, Hri, Hrb; simpl;
      replace (a + 1 - a) with 1 by lia; replace (a - a) with 0 by lia;
      repeat split; try lia; eauto
  end.

Lemma attempts_settle remaining : forall a w,
  remaining = Z.to_nat (mr + 1 - a) -> 0 <= a <= mr ->
  exists k, settlesAt apiCall endpoint mr rd a w
              (attempts apiCall endpoint mr rd remaining a w) k.
Proof.
  induction remaining as [|r IH]; intros a w Hr Ha; [lia|].
  simpl attempts.
  set (w1 := consultLimiter endpoint w).
  set (w2 := sleep (fst (apiCall a)) (emit (Invoke a) w1)).
  assert (Ht2 : trace w2 = trace w ++ recommended endpoint w ++ [Invoke a]).
  { subst w2 w1. simpl. rewrite consultLimiter_trace. by rewrite <- app_assoc. }
  clearbody w2. clear w1.
  destruct (recommended_silent endpoint w) as [Hri Hrb].
  destruct (snd (apiCall a)) as [v|e] eqn:Hcall.
  - settle_here; rewrite Ht2, Hcall; settled_trace.
  - set (w3 := noteFailure endpoint e w2).
    assert (Ht3 : trace w3 = trace w2) by apply noteFailure_trace.
    clearbody w3.
    destruct (is403 e) eqn:H403; simpl andb.
    + destruct (Z.ltb_spec a mr) as [Hlt|Hge].
      * set (w4 := sleep (rd * (a + 1)) (emit (Backoff (rd * (a + 1))) w3)).
        assert (Ht4 : trace w4 = trace w ++ recommended endpoint w
                                   ++ [Invoke a; Backoff (rd * (a + 1))]).
        { subst w4. simpl. rewrite Ht3, Ht2. by rewrite <- !app_assoc. }
        clearbody w4.
        destruct (IH (a + 1) w4) as [k Hk]; [lia|lia|].
        destruct Hk as (Hk1 & Hk2 & [evs Hk3] & Hk4 & Hk5 & Hk6).
        exists k. unfold settlesAt. repeat split; try lia.
        -- intros j Hj. destruct (decide (j = a)) as [->|Hne].
           ++ exists e. by rewrite Hcall.
           ++ apply Hk2. lia.
        -- eexists. rewrite Hk3, Ht4. rewrite <- !app_assoc. simpl. reflexivity.
        -- rewrite Hk4, Ht4. rewrite !invocations_app, Hri. simpl.
           rewrite <- app_assoc. simpl.
           rewrite (seqZ_cons a (k + 1 - a)) by lia.
           repeat f_equal; lia.
        -- rewrite Hk5, Ht4. rewrite !backoffs_app, Hrb. simpl.
           rewrite <- app_assoc. simpl.
           rewrite (seqZ_cons a (k - a)) by lia. simpl.
           repeat f_equal; lia.
        -- exact Hk6.
      * settle_here; rewrite Ht3, Ht2, Hcall; settled_trace.
    + settle_here; rewrite Ht3, Ht2, Hcall; settled_trace.
Qed.
End WrapperFacts.

(** C6, as amended. With [maxRetries >= 0] the wrapper first waits the
    delay the limiter recommends and invokes the function; attempts
    rejected with status 403 are retried, attempt [j] being followed by a
    wait of [retryDelay * (j + 1)], and the call settles at the first
    attempt [k <= maxRetries] that resolves, is rejected with another
    status, or is the last one allowed. A rejection at that attempt is
    rethrown as it is, also when the retries are used up. The
    [FailedToComplete] error is produced only for a negative
    [maxRetries], without any invocation. *)
Theorem makeRateLimitedCall_retries_then_rethrows {T : Type}
    (endpoint : string) (apiCall : Z -> Z * Settled T)
    (options : option Options) (w : World) :
  let mr := default 2 (options ≫= maxRetries) in
  let rd := default 1000 (options ≫= retryDelay) in
  let out := makeRateLimitedCall endpoint apiCall options w in
  (0 <= mr ->
     exists k,
       0 <= k <= mr
       /\ (forall j, 0 <= j < k -> rateLimited apiCall j)
       /\ (exists evs, trace (snd out)
                       = trace w ++ recommended endpoint w ++ Invoke 0 :: evs)
       /\ invocations (trace (snd out)) = invocations (trace w) ++ seqZ 0 (k + 1)
       /\ backoffs (trace (snd out))
          = backoffs (trace w) ++ ((fun j => rd * (j + 1)) <$> seqZ 0 k)
       /\ match snd (apiCall k) with
          | Resolved v => fst out = Returned v
          | Rejected e => fst out = Rethrown e /\ (is403 e = false \/ k = mr)
          end)
  /\ (mr < 0 -> out = (FailedToComplete endpoint mr, w)).
Proof.
  intros mr rd out. split.
  - intros Hmr.
    destruct (attempts_settle apiCall endpoint mr rd (Z.to_nat (mr + 1)) 0 w)
      as [k Hk]; [f_equal; lia | lia |].
    exists k. unfold settlesAt in Hk.
    replace (k + 1 - 0) with (k + 1) in Hk by lia.
    replace (k - 0) with k in Hk by lia. exact Hk.
  - intros Hneg. subst out. unfold makeRateLimitedCall. fold mr.
    replace (Z.to_nat (mr + 1)) with O by lia. reflexivity.
Qed.

Lemma makeRateLimitedCall_retries_then_rethrows_witness :
  exists k, 0 <= k <= 2
    /\ backoffs (trace (snd (makeRateLimitedCall "songs" alwaysForbidden None startWorld)))
       = (fun j => 1000 * (j + 1)) <$> seqZ 0 k.
Proof.
  destruct (proj1 (makeRateLimitedCall_retries_then_rethrows
                     "songs" alwaysForbidden None startWorld) ltac:(simpl; lia))
    as (k & Hk & _ & _ & _ & Hb & _).
  exists k. split; [exact Hk | exact Hb].
Defined.

(** C6 as stated fails when the retries are used up: with the default
    two retries and a function that is always rejected with 403, the
    three attempts and the waits of 1000 and 2000 ms are followed by a
    rethrow of the last 403 rejection, not by [FailedToComplete]. *)
Lemma makeRateLimitedCall_exhausted_rethrows_last_error :
  let out := makeRateLimitedCall "songs" alwaysForbidden None startWorld in
  fst out = Rethrown forbidden
  /\ fst out <> FailedToComplete "songs" 2
  /\ invocations (trace (snd out)) = [0; 1; 2]
  /\ backoffs (trace (snd out)) = [1000; 2000].
Proof.
  assert (H : fst (makeRateLimitedCall "songs" alwaysForbidden None startWorld)
              = Rethrown forbidden) by (vm_compute; reflexivity).
  cbv zeta. rewrite H. split; [done|]. split; [discriminate|].
  split; vm_compute; reflexivity.
Qed.

End RateLimitProofs.

(** ** Playback Controller *)

Module PlayerProofs.
Import JsNumber Player.

(** *** play *)

Lemma parseCandidate_url item :
  SourceSelector.url (SourceSelector.parseCandidate item) = SourceSelector.link item.
Proof.
  unfold SourceSelector.parseCandidate.
  destruct (SourceSelector.parseQualityTag _) as [t b].
  destruct t; try reflexivity.
  destruct (JsString.truthy _); [|reflexivity].
  by destruct (SourceSelector.parseUrlPattern _).
Qed.

Lemma filter_none_usable l :
  Forall (fun item => SourceSelector.usable item = false) l ->
  List.filter SourceSelector.usable l = [].
Proof.
  induction 1 as [|x l Hx _ IH]; simpl; [done|]. by rewrite Hx.
Qed.

Lemma select_none_usable l :
  Forall (fun item => SourceSelector.usable item = false) l ->
  SourceSelector.selectOptimalAudioSource l = SourceSelector.emptyDecision.
Proof.
  intros H. rewrite SelectorProofs.select_unfold.
  by rewrite (filter_none_usable l H).
Qed.

(** A selected URL is the link of a usable candidate. *)
Lemma select_picks_candidate l u :
  SourceSelector.selectedUrl (SourceSelector.selectOptimalAudioSource l) = u ->
  u <> "" ->
  exists item, item ∈ l /\ SourceSelector.usable item = true
               /\ SourceSelector.link item = u.
Proof.
  rewrite SelectorProofs.select_unfold.
  pose proof (SelectorProofs.sortBy_perm SourceSelector.compareQualities
                (map SourceSelector.parseCandidate
                     (List.filter SourceSelector.usable l))) as Hperm.
  destruct (SourceSelector.sortBy _ _) as [|top rest]; simpl; [congruence|].
  intros <- _.
  assert (Hin : top ∈ map SourceSelector.parseCandidate
                        (List.filter SourceSelector.usable l)).
  { rewrite <- Hperm. apply list_elem_of_here. }
  apply list_elem_of_fmap in Hin as (item & -> & Hitem).
  apply list_elem_of_In, filter_In in Hitem as [Hitem Hus].
  exists item. split; [by apply list_elem_of_In|].
  split; [exact Hus|]. symmetry. apply parseCandidate_url.
Qed.

Lemma usable_not_missing item :
  SourceSelector.usable item = true -> urlMissing (SourceSelector.link item) = false.
Proof.
  unfold SourceSelector.usable, urlMissing.
  intros [-> ->]%andb_true_iff. reflexivity.
Qed.

Lemma urlMissing_empty : urlMissing "" = true.
Proof. reflexivity. Qed.

(** [playSong] never touches the queue, the cursors or the modes. *)
Lemma playSong_keeps_queue o s :
  queue (playSong o s) = queue s
  /\ queueIndex (playSong o s) = queueIndex s
  /\ activePlaylist (playSong o s) = activePlaylist s
  /\ repeatMode (playSong o s) = repeatMode s
  /\ isShuffle (playSong o s) = isShuffle s.
Proof.
  destruct o as [song|]; [|done].
  unfold playSong, proceedWithPlayback.
  destruct (resolveSource song) as [info|]; [|done].
  destruct (urlMissing _); [done|].
  simpl. destruct (audio s) eqn:Hau; simpl; rewrite ?Hau; done.
Qed.

(** What a successful [playSong] leaves behind. *)
Lemma playSong_playable song u s :
  playableUrl song = Some u ->
  currentSong (playSong (Some song) s) = Some song
  /\ error (playSong (Some song) s) = None
  /\ (SourceSelector.selectedUrl <$> currentAudioInfo (playSong (Some song) s)) = Some u
  /\ audio (playSong (Some song) s)
     = (fun _ => {| paused := false; position := zero; src := u;
                    el_volume := volume s |}) <$> audio s.
Proof.
  unfold playableUrl, playSong, proceedWithPlayback.
  destruct (resolveSource song) as [info|]; [|done].
  destruct (urlMissing _); [done|].
  intros [= <-]. simpl. destruct (audio s) eqn:Ha; simpl; rewrite ?Ha; done.
Qed.

Lemma playSong_unplayable song s :
  playableUrl song = None ->
  playSong (Some song) s = setError (Some NO_AUDIO_URL) (clearPlayPauseTimeout s).
Proof.
  unfold playableUrl, playSong, proceedWithPlayback.
  destruct (resolveSource song) as [info|]; [|done].
  by destruct (urlMissing _).
Qed.

Lemma unplayable_no_url song : unplayable song -> playableUrl song = None.
Proof.
  unfold unplayable, playableUrl, resolveSource.
  destruct (downloadUrl song) as [[|d ds]|]; intros H.
  - by rewrite H.
  - by rewrite (select_none_usable _ H).
  - by rewrite H.
Qed.

Lemma filter_nil_none_usable l :
  List.filter SourceSelector.usable l = [] ->
  Forall (fun item => SourceSelector.usable item = false) l.
Proof.
  induction l as [|x l IH]; simpl; [constructor|].
  destruct (SourceSelector.usable x) eqn:Hx; [done|].
  intros H. constructor; [exact Hx | by apply IH].
Qed.

(** With a usable candidate in the list, the selected URL is the link of
    a usable candidate. *)
Lemma select_some_usable l :
  List.filter SourceSelector.usable l <> [] ->
  exists item, item ∈ l /\ SourceSelector.usable item = true
    /\ SourceSelector.selectedUrl (SourceSelector.selectOptimalAudioSource l)
       = SourceSelector.link item.
Proof.
  intros Hne. rewrite SelectorProofs.select_unfold.
  pose proof (SelectorProofs.sortBy_perm SourceSelector.compareQualities
                (map SourceSelector.parseCandidate
                     (List.filter SourceSelector.usable l))) as Hperm.
  destruct (SourceSelector.sortBy _ _) as [|top rest].
  - apply Permutation_nil_l in Hperm. symmetry in Hperm.
    apply map_eq_nil in Hperm. done.
  - assert (Hin : top ∈ map SourceSelector.parseCandidate
                          (List.filter SourceSelector.usable l)).
    { rewrite <- Hperm. apply list_elem_of_here. }
    apply list_elem_of_fmap in Hin as (item & -> & Hitem).
    apply list_elem_of_In, filter_In in Hitem as [Hitem Hus].
    exists item. split; [by apply list_elem_of_In|].
    split; [exact Hus|]. simpl. apply parseCandidate_url.
Qed.

(** A track is unplayable, or a source is found for it among its own
    candidates or, without candidates, in its own [url]. *)
Lemma unplayable_or_source song :
  unplayable song
  \/ exists u,
       playableUrl song = Some u
       /\ JsString.nonblank u = true
       /\ ((exists item ds, downloadUrl song = Some ds /\ item ∈ ds
                            /\ SourceSelector.usable item = true
                            /\ SourceSelector.link item = u)
           \/ ((downloadUrl song = None \/ downloadUrl song = Some [])
               /\ u = url song)).
Proof.
  unfold unplayable, playableUrl, resolveSource.
  destruct (downloadUrl song) as [[|d ds]|] eqn:Hd.
  - destruct (JsString.truthy (url song) && JsString.nonblank (url song)) eqn:Hu;
      [|by left].
    right. exists (url song). simpl. unfold urlMissing.
    apply andb_true_iff in Hu as [Ht Hn]. rewrite Ht, Hn. simpl.
    split; [done|]. split; [done|]. right. auto.
  - destruct (List.filter SourceSelector.usable (d :: ds)) eqn:Hf.
    + left. by apply filter_nil_none_usable.
    + right. destruct (select_some_usable (d :: ds)) as (item & Hin & Hus & Hsel).
      { by rewrite Hf. }
      exists (SourceSelector.link item). rewrite Hsel.
      rewrite (usable_not_missing item Hus). split; [done|].
      split; [by apply andb_true_iff in Hus as [_ ?]|].
      left. exists item, (d :: ds). auto.
  - destruct (JsString.truthy (url song) && JsString.nonblank (url song)) eqn:Hu;
      [|by left].
    right. exists (url song). simpl. unfold urlMissing.
    apply andb_true_iff in Hu as [Ht Hn]. rewrite Ht, Hn. simpl.
    split; [done|]. split; [done|]. right. auto.
Qed.

(** C2, as amended. A track whose candidate list is non-empty but holds
    no usable link, or which has no candidates and a blank [url] of its
    own, is rejected: [playSong] reports the no-audio-URL error and
    leaves the current song, audio info, queue, cursor, playlist, media
    element and play flag as they were. [selectOptimalAudioSource] on
    the empty list gives the empty/unknown decision. Every other track is
    played: it becomes the current song without an error, and the URL
    recorded in the audio info and assigned to the media element as its
    [src] is a non-blank link of one of the track's own usable
    candidates or, when it has no candidates, its own [url]. In
    particular a track without candidates whose own [url] is not blank
    is played from that [url]. *)
Theorem playSong_rejects_unplayable (song : Song) (s : State) :
  (unplayable song ->
     let s' := playSong (Some song) s in
     error s' = Some NO_AUDIO_URL
     /\ currentSong s' = currentSong s
     /\ currentAudioInfo s' = currentAudioInfo s
     /\ queue s' = queue s
     /\ queueIndex s' = queueIndex s
     /\ activePlaylist s' = activePlaylist s
     /\ audio s' = audio s
     /\ isPlaying s' = isPlaying s
     /\ tracked s' = tracked s)
  /\ SourceSelector.selectOptimalAudioSource [] = SourceSelector.emptyDecision
  /\ SourceSelector.selectedUrl SourceSelector.emptyDecision = ""
  /\ (unplayable song
      \/ exists u,
           ((exists item ds, downloadUrl song = Some ds /\ item ∈ ds
                            /\ SourceSelector.usable item = true
                            /\ SourceSelector.link item = u)
            \/ ((downloadUrl song = None \/ downloadUrl song = Some [])
                /\ u = url song))
           /\ JsString.nonblank u = true
           /\ let s' := playSong (Some song) s in
              error s' = None
              /\ currentSong s' = Some song
              /\ (SourceSelector.selectedUrl <$> currentAudioInfo s') = Some u
              /\ audio s'
                 = (fun _ => {| paused := false; position := zero; src := u;
                                el_volume := volume s |}) <$> audio s
              /\ queue s' = queue s
              /\ queueIndex s' = queueIndex s)
  /\ (downloadUrl song = None \/ downloadUrl song = Some [] ->
      JsString.truthy (url song) && JsString.nonblank (url song) = true ->
      let s' := playSong (Some song) s in
      error s' = None
      /\ currentSong s' = Some song
      /\ (SourceSelector.selectedUrl <$> currentAudioInfo s') = Some (url song)
      /\ audio s'
         = (fun _ => {| paused := false; position := zero; src := url song;
                        el_volume := volume s |}) <$> audio s).
Proof.
  split; [|split; [reflexivity|split; [reflexivity|split]]].
  - intros H s'. subst s'.
    rewrite (playSong_unplayable song s (unplayable_no_url song H)).
    repeat split.
  - destruct (unplayable_or_source song) as [H|(u & Hu & Hnb & Hfrom)]; [by left|].
    right. exists u. split; [exact Hfrom|]. split; [exact Hnb|].
    destruct (playSong_playable song u s Hu) as (Hc & He & Hi & Ha).
    destruct (playSong_keeps_queue (Some song) s) as (Hq & Hqi & _).
    simpl. auto 10.
  - intros Hnone Hown s'. subst s'.
    assert (Hu : playableUrl song = Some (url song)).
    { unfold playableUrl, resolveSource.
      destruct Hnone as [-> | ->]; rewrite Hown; simpl; unfold urlMissing;
        apply andb_true_iff in Hown as [-> ->]; reflexivity. }
    destruct (playSong_playable song (url song) s Hu) as (Hc & He & Hi & Ha).
    auto.
Qed.

Lemma playSong_rejects_unplayable_witness :
  error (playSong (Some songBlankLinks) initialState) = Some NO_AUDIO_URL
  /\ currentSong (playSong (Some songBlankLinks) initialState) = None.
Proof.
  destruct (proj1 (playSong_rejects_unplayable songBlankLinks initialState))
    as (He & Hc & _).
  - unfold unplayable. simpl. repeat constructor.
  - split; [exact He | exact Hc].
Defined.

(** C2 as stated fails for a track with zero audio candidates that
    carries a stream address of its own: it is played from that address. *)
Lemma playSong_zero_candidates_uses_own_url :
  downloadUrl songUrlOnly = Some []
  /\ currentSong (playSong (Some songUrlOnly) initialState) = Some songUrlOnly
  /\ currentSong (playSong (Some songUrlOnly) initialState) <> currentSong initialState
  /\ error (playSong (Some songUrlOnly) initialState) = None
  /\ (src <$> audio (playSong (Some songUrlOnly) initialState)) = Some "https://cdn/c.mp3".
Proof.
  assert (H : playableUrl songUrlOnly = Some "https://cdn/c.mp3") by reflexivity.
  destruct (playSong_playable songUrlOnly _ initialState H) as (Hc & He & _ & Ha).
  split; [reflexivity|]. split; [exact Hc|]. split; [by rewrite Hc|].
  split; [exact He|]. by rewrite Ha.
Qed.

(** *** seek *)

Lemma ge_zero_fin q : ge (Fin q) zero = true <-> (0 <= q)%Q.
Proof. unfold ge, zero. apply Qle_bool_iff. Qed.

(** C9, as amended. [seekTo] is a total function, so it never throws.
    It changes nothing when the time is NaN, negative or not finite, or
    when no media element is mounted. For every finite non-negative
    time, within the duration or beyond it, it sets the element's
    position and the [currentTime] state to that time and changes
    nothing else. *)
Theorem seekTo_guards_nan_and_negative (time : num) (s : State) :
  (isNaN time = true \/ ge time zero = false \/ isFinite time = false
     \/ audio s = None -> seekTo time s = s)
  /\ (forall q a, time = Fin q -> (0 <= q)%Q -> audio s = Some a ->
        currentTime (seekTo time s) = Fin q
        /\ audio (seekTo time s)
           = Some {| paused := paused a; position := Fin q; src := src a;
                     el_volume := el_volume a |}
        /\ seekTo time s
           = setCurrentTime (Fin q)
               (setAudio (Some {| paused := paused a; position := Fin q;
                                  src := src a; el_volume := el_volume a |}) s)).
Proof.
  split.
  - unfold seekTo. intros [H|[H|[H|H]]].
    + destruct (audio s); [|done]. by rewrite H.
    + destruct (audio s); [|done]. rewrite H. by rewrite andb_false_r.
    + destruct (audio s); [|done]. rewrite H. by destruct (_ && _).
    + by rewrite H.
  - intros q a -> Hq Ha. unfold seekTo. rewrite Ha. simpl isNaN. simpl isFinite.
    apply ge_zero_fin in Hq. rewrite Hq. simpl. done.
Qed.

Lemma seekTo_guards_nan_and_negative_witness :
  seekTo NaN initialState = initialState
  /\ currentTime (seekTo (Fin 42) initialState) = Fin 42.
Proof.
  split.
  - apply (proj1 (seekTo_guards_nan_and_negative NaN initialState)). by left.
  - eapply (proj2 (seekTo_guards_nan_and_negative (Fin 42) initialState) 42%Q);
      [reflexivity | discriminate | reflexivity].
Defined.

(** C9 as stated fails for a time beyond the duration: with a duration of
    180 s, seeking to 500 s moves both the element's position and the
    [currentTime] state to 500. *)
Lemma seekTo_beyond_duration_is_applied :
  let s := {| currentSong := Some songA; isPlaying := true; queue := [songA];
              queueIndex := 0; activePlaylist := None; repeatMode := repeat_none;
              isShuffle := false; volume := 1%Q; currentTime := Fin 10;
              duration := Fin 180; error := None; currentAudioInfo := None;
              audio := Some {| paused := false; position := Fin 10;
                               src := "https://cdn/a_320.mp4"; el_volume := 1%Q |};
              playPauseTimeout := None; tracked := [] |} in
  gt (Fin 500) (duration s) = true
  /\ currentTime (seekTo (Fin 500) s) = Fin 500
  /\ currentTime (seekTo (Fin 500) s) <> currentTime s
  /\ (position <$> audio (seekTo (Fin 500) s)) = Some (Fin 500).
Proof. cbv zeta. repeat split; try reflexivity. discriminate. Qed.

(** *** next *)

Lemma resolveNext_sequential c draws s :
  c_isShuffle c = false \/ Z.of_nat (length (playlistToUse s)) <= 1 ->
  resolveNext c draws s
  = sequentialNext (c_repeatMode c) (playlistIndex s) (Z.of_nat (length (playlistToUse s))).
Proof.
  intros H. unfold resolveNext.
  destruct H as [->|H]; [done|].
  destruct (Z.ltb_spec 1 (Z.of_nat (length (playlistToUse s)))); [lia|].
  by rewrite andb_false_r.
Qed.

Lemma playNext_advance c draws s i :
  0 < Z.of_nat (length (playlistToUse s)) -> 0 <= playlistIndex s ->
  resolveNext c draws s = Advance i ->
  playNext c draws s = Done (playSong (nthZ (playlistToUse s) i) (moveCursor i s)).
Proof.
  intros Hlen Hidx Hr. unfold playNext, moveCursor.
  destruct (Z.ltb_spec 0 (Z.of_nat (length (playlistToUse s)))); [|lia].
  destruct (Z.leb_spec 0 (playlistIndex s)); [|lia].
  simpl. rewrite Hr. destruct (activePlaylist s) eqn:Hap; simpl; rewrite ?Hap; done.
Qed.

Lemma playNext_stop c draws s :
  resolveNext c draws s = Stop -> playNext c draws s = Done (stopPlayback s).
Proof.
  intros Hr. unfold playNext. rewrite Hr. by destruct (_ && _).
Qed.

Lemma moveCursor_cursors i s :
  queueIndex (moveCursor i s) = i
  /\ playlistIndex (moveCursor i s) = i
  /\ playlistToUse (moveCursor i s) = playlistToUse s
  /\ queue (moveCursor i s) = queue s
  /\ currentSong (moveCursor i s) = currentSong s.
Proof.
  unfold moveCursor, playlistIndex, playlistToUse.
  destruct (activePlaylist s) eqn:Hap; simpl; rewrite ?Hap; done.
Qed.

Lemma playSong_cursors o i s :
  queueIndex (playSong o (moveCursor i s)) = i
  /\ playlistIndex (playSong o (moveCursor i s)) = i
  /\ playlistToUse (playSong o (moveCursor i s)) = playlistToUse s.
Proof.
  destruct (playSong_keeps_queue o (moveCursor i s)) as (Hq & Hi & Hp & _).
  destruct (moveCursor_cursors i s) as (Hi' & Hpi & Hpl & _).
  unfold playlistIndex, playlistToUse in *. rewrite Hq, Hi, Hp. auto.
Qed.

Lemma stopPlayback_effect s :
  isPlaying (stopPlayback s) = false
  /\ audio (stopPlayback s)
     = (fun a => {| paused := true; position := zero; src := src a;
                    el_volume := el_volume a |}) <$> audio s
  /\ queueIndex (stopPlayback s) = queueIndex s
  /\ activePlaylist (stopPlayback s) = activePlaylist s
  /\ queue (stopPlayback s) = queue s
  /\ currentSong (stopPlayback s) = currentSong s
  /\ error (stopPlayback s) = error s.
Proof. unfold stopPlayback. simpl. destruct (audio s) eqn:Hau; simpl; rewrite ?Hau; done. Qed.

(** C4. With shuffle off and the cursor on the last track of a non-empty
    list, [playNext] under repeat-all moves both cursors to 0 and plays
    the first track; under any other repeat mode it clears [isPlaying],
    pauses the media element, rewinds it to 0 and leaves the cursors,
    queue and current song alone. For a list of one track this means
    replaying that track under repeat-all and stopping otherwise,
    whatever the shuffle flag. With shuffle off [playNext] always
    completes, for every state. *)
Theorem playNext_at_end_wraps_or_stops
    (c : Closure) (draws : list Z) (s : State)
    (Hshuffle : c_isShuffle c = false)
    (Hnonempty : playlistToUse s <> [])
    (Hlast : playlistIndex s = Z.of_nat (length (playlistToUse s)) - 1) :
  (c_repeatMode c = repeat_all ->
     exists s', playNext c draws s = Done s'
       /\ s' = playSong (nthZ (playlistToUse s) 0) (moveCursor 0 s)
       /\ queueIndex s' = 0 /\ playlistIndex s' = 0
       /\ (forall first u, nthZ (playlistToUse s) 0 = Some first ->
              playableUrl first = Some u ->
              currentSong s' = Some first
              /\ audio s' = (fun _ => {| paused := false; position := zero; src := u;
                                         el_volume := volume s |}) <$> audio s))
  /\ (c_repeatMode c <> repeat_all ->
      exists s', playNext c draws s = Done s'
        /\ isPlaying s' = false
        /\ audio s' = (fun a => {| paused := true; position := zero; src := src a;
                                   el_volume := el_volume a |}) <$> audio s
        /\ queueIndex s' = queueIndex s
        /\ activePlaylist s' = activePlaylist s
        /\ queue s' = queue s
        /\ currentSong s' = currentSong s
        /\ error s' = error s)
  /\ (forall (c1 : Closure) only, playlistToUse s = [only] ->
        match c_repeatMode c1 with
        | repeat_all => playNext c1 draws s = Done (playSong (Some only) (moveCursor 0 s))
        | _ => playNext c1 draws s = Done (stopPlayback s)
        end)
  /\ (forall s0, exists s', playNext c draws s0 = Done s').
Proof.
  assert (Hlen : 0 < Z.of_nat (length (playlistToUse s))).
  { destruct (playlistToUse s); [done|]. simpl. lia. }
  assert (Hseq : forall c1, c_isShuffle c1 = false
                            \/ Z.of_nat (length (playlistToUse s)) <= 1 ->
            resolveNext c1 draws s
            = match c_repeatMode c1 with repeat_all => Advance 0 | _ => Stop end).
  { intros c1 H1. rewrite (resolveNext_sequential c1 draws s H1).
    unfold sequentialNext. rewrite Hlast.
    destruct (Z.leb_spec (Z.of_nat (length (playlistToUse s)))
                         (Z.of_nat (length (playlistToUse s)) - 1 + 1)); [done|lia]. }
  split; [|split; [|split]].
  - intros Hall. specialize (Hseq c (or_introl Hshuffle)). rewrite Hall in Hseq.
    eexists. split; [apply playNext_advance; [lia|lia|exact Hseq]|].
    split; [reflexivity|].
    destruct (playSong_cursors (nthZ (playlistToUse s) 0) 0 s) as (Hq & Hp & _).
    split; [exact Hq|]. split; [exact Hp|].
    intros first u Hfirst Hu. rewrite Hfirst.
    destruct (playSong_playable first u (moveCursor 0 s) Hu) as (Hc & _ & _ & Ha).
    split; [exact Hc|]. rewrite Ha.
    unfold moveCursor. destruct (activePlaylist s) eqn:Hap; simpl; rewrite ?Hap; done.
  - intros Hnot. specialize (Hseq c (or_introl Hshuffle)).
    exists (stopPlayback s). split.
    + apply playNext_stop. rewrite Hseq. by destruct (c_repeatMode c).
    + apply stopPlayback_effect.
  - intros c1 only Honly.
    assert (H1 : Z.of_nat (length (playlistToUse s)) <= 1) by (rewrite Honly; simpl; lia).
    specialize (Hseq c1 (or_intror H1)).
    destruct (c_repeatMode c1).
    + by apply playNext_stop.
    + by apply playNext_stop.
    + rewrite (playNext_advance c1 draws s 0); [|lia|lia|exact Hseq].
      by rewrite Honly.
  - intros s0. unfold playNext.
    destruct (_ && _); [|eauto].
    rewrite (resolveNext_sequential c draws s0 (or_introl Hshuffle)).
    unfold sequentialNext.
    destruct (_ <=? _); [destruct (c_repeatMode c)|]; eauto.
Qed.

Lemma playNext_at_end_wraps_or_stops_witness :
  exists s', playNext repeatAllNoShuffle [] (withQueue [songA; songB] 1 initialState)
             = Done s'
             /\ queueIndex s' = 0 /\ currentSong s' = Some songA.
Proof.
  destruct (proj1 (playNext_at_end_wraps_or_stops repeatAllNoShuffle []
                     (withQueue [songA; songB] 1 initialState)
                     eq_refl ltac:(discriminate) eq_refl) eq_refl)
    as (s' & Hdone & _ & Hq & _ & Hplay).
  exists s'. split; [exact Hdone|]. split; [exact Hq|].
  exact (proj1 (Hplay songA "https://cdn/a_320.mp4" eq_refl eq_refl)).
Defined.

(** *** the 'ended' event *)

(** C1 (evaluation of the code). While the repeat mode is 'one', the
    'ended' handler makes no exception for it: with shuffle off and a
    track following the current one, both cursors move to the next
    index and that track is played. *)
Theorem handleEnded_repeat_one_advances
    (c : Closure) (draws : list Z) (s : State)
    (Hone : repeatMode s = repeat_one)
    (Hshuffle : c_isShuffle c = false)
    (Hidx : 0 <= playlistIndex s)
    (Hmore : playlistIndex s + 1 < Z.of_nat (length (playlistToUse s))) :
  exists s', handleEnded c draws s = Done s'
    /\ queueIndex s' = playlistIndex s + 1
    /\ playlistIndex s' = playlistIndex s + 1
    /\ (forall next u, nthZ (playlistToUse s) (playlistIndex s + 1) = Some next ->
           playableUrl next = Some u -> currentSong s' = Some next).
Proof.
  unfold handleEnded.
  set (s1 := setCurrentTime zero (setIsPlaying false s)).
  assert (Hpl : playlistToUse s1 = playlistToUse s) by reflexivity.
  assert (Hpi : playlistIndex s1 = playlistIndex s) by reflexivity.
  clearbody s1.
  assert (Hr : resolveNext c draws s1 = Advance (playlistIndex s + 1)).
  { rewrite (resolveNext_sequential c draws s1 (or_introl Hshuffle)).
    unfold sequentialNext. rewrite Hpl, Hpi.
    destruct (Z.leb_spec (Z.of_nat (length (playlistToUse s))) (playlistIndex s + 1));
      [lia|done]. }
  eexists. split; [apply playNext_advance; [rewrite Hpl; lia | rewrite Hpi; lia | exact Hr]|].
  destruct (playSong_cursors (nthZ (playlistToUse s1) (playlistIndex s + 1))
              (playlistIndex s + 1) s1) as (Hq & Hp & _).
  split; [exact Hq|]. split; [exact Hp|].
  intros next u Hnext Hu. rewrite Hpl, Hnext.
  exact (proj1 (playSong_playable next u _ Hu)).
Qed.

Lemma handleEnded_repeat_one_advances_witness :
  exists s', handleEnded (liveClosure repeatOneState) [] repeatOneState = Done s'
    /\ queueIndex s' = 1 /\ currentSong s' = Some songB.
Proof.
  destruct (handleEnded_repeat_one_advances (liveClosure repeatOneState) []
              repeatOneState eq_refl eq_refl ltac:(vm_compute; congruence) ltac:(vm_compute; reflexivity))
    as (s' & Hdone & Hq & _ & Hplay).
  exists s'. split; [exact Hdone|]. split; [exact Hq|].
  exact (Hplay songB "https://cdn/b_320.mp4" eq_refl eq_refl).
Defined.

(** *** shuffle within a language *)

Lemma nthZ_Some {A} (l : list A) i x :
  nthZ l i = Some x <-> 0 <= i /\ l !! Z.to_nat i = Some x.
Proof.
  unfold nthZ. destruct (Z.ltb_spec i 0); split.
  - discriminate.
  - intros [? _]. lia.
  - intros Hx. split; [lia | exact Hx].
  - intros [_ Hx]. exact Hx.
Qed.

Lemma nthZ_of_nat {A} (l : list A) (n : nat) : nthZ l (Z.of_nat n) = l !! n.
Proof.
  unfold nthZ. destruct (Z.ltb_spec (Z.of_nat n) 0); [lia|].
  by rewrite Nat2Z.id.
Qed.

Lemma languageIs_spec lang song :
  languageIs lang song = true <-> language song = Some lang.
Proof.
  unfold languageIs. destruct (language song) as [l|]; [|done].
  rewrite String.eqb_eq. split; congruence.
Qed.

(** Entries of the pool are the tracks of the tagged language, each
    paired with its playlist position. *)
Lemma pool_entry lang pl e :
  e ∈ sameLanguageSongs lang pl
  <-> exists i, pl !! i = Some (fst e) /\ snd e = Z.of_nat i
                /\ language (fst e) = Some lang.
Proof.
  unfold sameLanguageSongs.
  rewrite list_elem_of_In, filter_In, <- list_elem_of_In, list_elem_of_lookup.
  rewrite languageIs_spec. split.
  - intros [[i Hi] Hl]. rewrite list_lookup_imap in Hi.
    destruct (pl !! i) as [song|] eqn:Hs; [|done].
    simpl in Hi. injection Hi as <-. exists i. auto.
  - intros (i & Hs & Hsnd & Hl). split; [|done].
    exists i. rewrite list_lookup_imap, Hs. simpl.
    destruct e as [song k]. simpl in *. by rewrite Hsnd.
Qed.

Lemma poolIndices_spec lang pl i :
  i ∈ poolIndices lang pl
  <-> exists song, nthZ pl i = Some song /\ language song = Some lang.
Proof.
  unfold poolIndices. rewrite list_elem_of_fmap. split.
  - intros (e & -> & He). apply pool_entry in He as (n & Hn & Hsnd & Hl).
    exists (fst e). rewrite Hsnd, nthZ_of_nat. auto.
  - intros (song & Hn & Hl). apply nthZ_Some in Hn as [Hi Hn].
    exists (song, i). split; [done|]. apply pool_entry.
    exists (Z.to_nat i). simpl. split; [done|]. split; [lia|done].
Qed.






Lemma drawOther_inv draws avoid len d :
  drawOther draws avoid len = Some d ->
  exists rejected rest, draws = rejected ++ d :: rest
    /\ Forall (fun r => r = avoid) rejected
    /\ (d <> avoid \/ len <= 1).
Proof.
  induction draws as [|x draws IH]; simpl; [done|].
  destruct (Z.eqb_spec x avoid) as [->|Hne]; simpl.
  - destruct (Z.ltb_spec 1 len).
    + intros H'. destruct (IH H') as (rej & rest & -> & Hrej & Hd).
      exists (avoid :: rej), rest. split; [done|]. split; [by constructor|done].
    + intros [= <-]. exists [], draws. split; [done|]. split; [constructor|lia].
  - intros [= <-]. exists [], draws. split; [done|]. split; [constructor|by left].
Qed.




Section LanguageShuffle.
Variables (c : Closure) (s : State) (lang : string).
Hypothesis Hshuffle : c_isShuffle c = true.
Hypothesis Hlen : 1 < Z.of_nat (length (playlistToUse s)).
Hypothesis Hlang : playlistLanguage s = Some lang.


End LanguageShuffle.

Lemma playNext_done_inv c draws s s' :
  0 < Z.of_nat (length (playlistToUse s)) -> 0 <= playlistIndex s ->
  playNext c draws s = Done s' ->
  (exists i, resolveNext c draws s = Advance i
             /\ s' = playSong (nthZ (playlistToUse s) i) (moveCursor i s))
  \/ (resolveNext c draws s = Stop /\ s' = stopPlayback s).
Proof.
  intros Hlen Hidx.
  destruct (resolveNext c draws s) as [i| | |] eqn:Hr.
  - rewrite (playNext_advance c draws s i Hlen Hidx Hr). intros [= <-]. left. eauto.
  - rewrite (playNext_stop c draws s Hr). intros [= <-]. right. auto.
  - unfold playNext. rewrite Hr.
    destruct (Z.ltb_spec 0 (Z.of_nat (length (playlistToUse s)))); [|lia].
    destruct (Z.leb_spec 0 (playlistIndex s)); [|lia]. done.
  - unfold playNext. rewrite Hr.
    destruct (Z.ltb_spec 0 (Z.of_nat (length (playlistToUse s)))); [|lia].
    destruct (Z.leb_spec 0 (playlistIndex s)); [|lia]. done.
Qed.




End PlayerProofs.

(** ** Processing Graph *)

Module ProcessorProofs.
Import Processor.

Lemma bind_run {A B} (x : M A) (f : A -> M B) m a m' :
  x m = (inr a, m') -> bind x f m = f a m'.
Proof. intros H. unfold bind. by rewrite H. Qed.

Lemma setSlot_absent sl p : getSlot sl p = None -> setSlot sl None p = p.
Proof. destruct p, sl; simpl; by intros ->. Qed.

Section AnyPlatform.
Variable platform : list Call -> Call -> option Exn.
Variables supported suspended : bool.

(** A guarded call completes whether or not the platform raises. *)
Lemma quiet_run (c : Call) m :
  tryCatch (call platform c) (fun _ => ret tt) m = (inr tt, logCalls [c] m).
Proof.
  unfold tryCatch, call, ret, logCalls. by destruct (platform (calls m) c).
Qed.

Lemma release_run sl p cs fr :
  release platform sl {| proc := p; calls := cs; fresh := fr |}
  = (inr tt, {| proc := setSlot sl None p;
                calls := cs ++ option_list (Disconnect <$> getSlot sl p);
                fresh := fr |}).
Proof.
  unfold release, get. unfold bind at 1. cbn [proc].
  destruct (getSlot sl p) as [n|] eqn:Hs.
  - unfold disconnectQuietly. by rewrite (bind_run _ _ _ _ _ (quiet_run _ _)).
  - unfold ret. simpl. by rewrite (setSlot_absent sl p Hs), app_nil_r.
Qed.

Lemma disconnectEq_run sl p cs fr :
  disconnectEq platform sl {| proc := p; calls := cs; fresh := fr |}
  = (inr tt, {| proc := p;
                calls := cs ++ option_list (Disconnect <$> getSlot sl p);
                fresh := fr |}).
Proof.
  unfold disconnectEq, get. unfold bind at 1. cbn [proc].
  destruct (getSlot sl p) as [n|].
  - apply quiet_run.
  - unfold ret. simpl. by rewrite app_nil_r.
Qed.

Lemma setContext_absent p : audioContext p = None -> setContext None p = p.
Proof. destruct p; simpl; by intros ->. Qed.

Lemma closeContext_run p cs fr :
  (bind get (fun q =>
     match audioContext q with
     | Some ctx => bind (tryCatch (call platform (Close ctx)) (fun _ => ret tt))
                        (fun _ => modify (setContext None))
     | None => ret tt
     end)) {| proc := p; calls := cs; fresh := fr |}
  = (inr tt, {| proc := setContext None p;
                calls := cs ++ option_list (Close <$> audioContext p);
                fresh := fr |}).
Proof.
  unfold get. unfold bind at 1. cbn [proc].
  destruct (audioContext p) as [ctx|] eqn:Hc.
  - by rewrite (bind_run _ _ _ _ _ (quiet_run _ _)).
  - unfold ret. simpl. by rewrite (setContext_absent p Hc), app_nil_r.
Qed.

Lemma dispose_run m : dispose platform m = (inr tt, disposed m).
Proof.
  destruct m as [p cs fr]. unfold dispose.
  do 3 (rewrite (bind_run _ _ _ _ _ (release_run _ _ _ _))).
  do 3 (rewrite (bind_run _ _ _ _ _ (disconnectEq_run _ _ _ _))).
  unfold bind at 1. unfold modify at 1. cbn [proc calls fresh].
  do 2 (rewrite (bind_run _ _ _ _ _ (release_run _ _ _ _))).
  rewrite (bind_run _ _ _ _ _ (closeContext_run _ _ _)).
  unfold modify, disposed, disposeCalls, newProcessor. cbn [proc calls fresh].
  destruct p. cbn. rewrite <- !app_assoc. reflexivity.
Qed.

Lemma disposed_released m : released (proc (disposed m)).
Proof. unfold released. simpl. tauto. Qed.

Lemma disposed_twice m :
  proc (disposed (disposed m)) = proc (disposed m)
  /\ calls (disposed (disposed m)) = calls (disposed m).
Proof. unfold disposed. simpl. by rewrite app_nil_r. Qed.

Lemma initializeProcessing_returns m :
  exists ok, fst (initializeProcessing platform supported suspended m) = inr ok.
Proof.
  unfold initializeProcessing, tryCatch.
  destruct (initializeBody platform supported suspended m) as [[e|ok] m'].
  - rewrite (bind_run _ _ _ _ _ (dispose_run m')). simpl. eauto.
  - simpl. eauto.
Qed.
End AnyPlatform.

(** Construction that fails at the gain node is cleaned up by the
    [dispose] of the catch block: the source node is disconnected and
    the context closed. *)
Example initializeProcessing_partial_cleanup :
  initializeProcessing failsOnGain true false startMachine
  = (inr false,
     {| proc := proc startMachine;
        calls := [NewContext; Create 0%nat MediaElementSource; Create 0%nat Gain;
                  Disconnect 1%nat; Close 0%nat];
        fresh := 2%nat |}).
Proof. reflexivity. Qed.

(** C10. Whatever the platform does and whatever state the processor is
    in, fully or partially constructed, [dispose] completes without an
    exception, calls [disconnect] on every node that is present and
    [close] on the context if there is one, and leaves every node and
    the context null with [isInitialized] false. A second [dispose]
    right after completes as well and has nothing left to do. The same
    holds for a [dispose] after [initializeProcessing], which itself
    never lets an exception escape. *)
Theorem dispose_is_safe_and_complete
    (platform : list Call -> Call -> option Exn) (supported suspended : bool)
    (m : Machine) :
  dispose platform m = (inr tt, disposed m)
  /\ released (proc (disposed m))
  /\ (forall sl n, getSlot sl (proc m) = Some n -> Disconnect n ∈ calls (disposed m))
  /\ (forall ctx, audioContext (proc m) = Some ctx -> Close ctx ∈ calls (disposed m))
  /\ (exists m2, dispose platform (disposed m) = (inr tt, m2)
                 /\ proc m2 = proc (disposed m)
                 /\ calls m2 = calls (disposed m))
  /\ (let attempt := initializeProcessing platform supported suspended m in
      (exists ok, fst attempt = inr ok)
      /\ dispose platform (snd attempt) = (inr tt, disposed (snd attempt))
      /\ released (proc (disposed (snd attempt)))).
Proof.
  split; [apply dispose_run|]. split; [apply disposed_released|].
  split; [|split; [|split]].
  - intros sl n Hsl. unfold disposed, disposeCalls. simpl.
    destruct sl; simpl in Hsl; rewrite Hsl; simpl; set_solver.
  - intros ctx Hctx. unfold disposed, disposeCalls. simpl.
    rewrite Hctx. simpl. set_solver.
  - exists (disposed (disposed m)). split; [apply dispose_run|].
    apply disposed_twice.
  - intros attempt. split; [apply initializeProcessing_returns|].
    split; [apply dispose_run | apply disposed_released].
Qed.

End ProcessorProofs.

(* ===================================================================== *)
(** * Further properties *)
(* ===================================================================== *)

(** ** Resilience Layer: the limiter's records *)

Module RateLimitFacts.
Import RateLimit.

(** X1. [shouldDelay] never recommends a negative wait. *)
Theorem shouldDelay_never_negative
    (now : Z) (ep : string) (limits : gmap string RateLimitInfo) :
  0 <= fst (shouldDelay now ep limits).
Proof.
  unfold shouldDelay. destruct (limits !! ep) as [info|]; simpl; [|lia].
  destruct (Z.ltb_spec (resetTime info) now); simpl; [lia|].
  destruct (Z.leb_spec MAX_CALLS_PER_MINUTE (callCount info)); simpl; lia.
Qed.

(** X2. A [shouldDelay] call leaves a record for the endpoint it was asked
    about and does not touch the record of any other endpoint. *)
Theorem shouldDelay_touches_only_its_endpoint
    (now : Z) (ep : string) (limits : gmap string RateLimitInfo) :
  is_Some (snd (shouldDelay now ep limits) !! ep)
  /\ forall other, other <> ep ->
       snd (shouldDelay now ep limits) !! other = limits !! other.
Proof.
  unfold shouldDelay. destruct (limits !! ep) as [info|] eqn:Hinfo; simpl.
  - destruct (resetTime info <? now); simpl.
    + split; [rewrite lookup_insert_eq; eauto|].
      intros other Hne. by rewrite lookup_insert_ne.
    + destruct (MAX_CALLS_PER_MINUTE <=? callCount info); simpl.
      * split; [rewrite Hinfo; eauto | done].
      * split; [rewrite lookup_insert_eq; eauto|].
        intros other Hne. by rewrite lookup_insert_ne.
  - split; [rewrite lookup_insert_eq; eauto|].
    intros other Hne. by rewrite lookup_insert_ne.
Qed.

(** X3. The counters stay between 1 and the cap of 60: [shouldDelay],
    [recordFailure] and [clear] all preserve this for every endpoint. *)
Theorem counters_stay_within_cap
    (now : Z) (ep : string) (statusCode : Z) (limits : gmap string RateLimitInfo)
    (Hwell : wellCounted limits) :
  wellCounted (snd (shouldDelay now ep limits))
  /\ wellCounted (recordFailure now ep statusCode limits)
  /\ wellCounted (clear limits).
Proof.
  unfold wellCounted, MAX_CALLS_PER_MINUTE in *. split; [|split].
  - unfold shouldDelay. destruct (limits !! ep) as [info|] eqn:Hinfo; simpl.
    + pose proof (Hwell ep info Hinfo) as Hc. simpl in Hc.
      destruct (resetTime info <? now); simpl.
      * apply map_Forall_insert_2; [simpl; lia | exact Hwell].
      * destruct (Z.leb_spec MAX_CALLS_PER_MINUTE (callCount info)) as [?|Hlt];
          simpl; [exact Hwell|]. unfold MAX_CALLS_PER_MINUTE in Hlt.
        apply map_Forall_insert_2; [simpl; lia | exact Hwell].
    + apply map_Forall_insert_2; [simpl; lia | exact Hwell].
  - unfold recordFailure. destruct (statusCode =? 403); [|exact Hwell].
    destruct (limits !! ep) as [info|]; [|exact Hwell].
    apply map_Forall_insert_2; [simpl; unfold MAX_CALLS_PER_MINUTE; lia | exact Hwell].
  - unfold clear. apply map_Forall_empty.
Qed.

Lemma counters_stay_within_cap_witness :
  wellCounted (snd (shouldDelay 950 "songs" cappedLimits)).
Proof.
  apply (counters_stay_within_cap 950 "songs" 403 cappedLimits).
  unfold wellCounted, cappedLimits. apply map_Forall_singleton.
  unfold MAX_CALLS_PER_MINUTE. simpl. lia.
Defined.

Lemma delaysAt_counts ep : forall times (limits : gmap string RateLimitInfo) info,
  limits !! ep = Some info -> callCount info <= MAX_CALLS_PER_MINUTE ->
  Forall (fun t => t <= resetTime info) times ->
  exists info', snd (delaysAt times ep limits) !! ep = Some info'
    /\ callCount info'
       = Z.min (callCount info + Z.of_nat (length times)) MAX_CALLS_PER_MINUTE
    /\ resetTime info' = resetTime info.
Proof.
  unfold MAX_CALLS_PER_MINUTE.
  induction times as [|t times IH]; intros limits info Hinfo Hc Hall.
  - exists info. simpl. split; [done|]. split; [lia|done].
  - apply Forall_cons in Hall as [Ht Hall]. simpl.
    destruct (shouldDelay t ep limits) as [d limits'] eqn:Hsd.
    destruct (delaysAt times ep limits') as [ds limits''] eqn:Hds. simpl.
    unfold shouldDelay in Hsd. rewrite Hinfo in Hsd.
    destruct (Z.ltb_spec (resetTime info) t); [lia|].
    unfold MAX_CALLS_PER_MINUTE in Hsd.
    destruct (Z.leb_spec 60 (callCount info)); injection Hsd as <- <-.
    + destruct (IH limits info Hinfo Hc Hall) as (info' & H1 & H2 & H3).
      rewrite Hds in H1. exists info'. split; [done|]. split; [lia|done].
    + destruct (IH (<[ep:={| lastCall := t; callCount := callCount info + 1;
                            resetTime := resetTime info |}]> limits)
                  {| lastCall := t; callCount := callCount info + 1;
                     resetTime := resetTime info |})
        as (info' & H1 & H2 & H3);
        [apply lookup_insert_eq | simpl; lia | done |].
      rewrite Hds in H1. exists info'. simpl in *. split; [done|]. split; [lia|done].
Qed.

Lemma delaysAt_beyond_cap ep : forall times (limits : gmap string RateLimitInfo) info i t,
  limits !! ep = Some info ->
  Forall (fun t => t <= resetTime info) times ->
  times !! i = Some t ->
  MAX_CALLS_PER_MINUTE <= callCount info + Z.of_nat i ->
  fst (delaysAt times ep limits) !! i = Some (resetTime info - t).
Proof.
  unfold MAX_CALLS_PER_MINUTE.
  induction times as [|t0 times IH]; intros limits info i t Hinfo Hall Hi Hc;
    [done|].
  apply Forall_cons in Hall as [Ht Hall]. simpl.
  destruct (shouldDelay t0 ep limits) as [d limits'] eqn:Hsd.
  destruct (delaysAt times ep limits') as [ds limits''] eqn:Hds. simpl.
  unfold shouldDelay in Hsd. rewrite Hinfo in Hsd.
  destruct (Z.ltb_spec (resetTime info) t0); [lia|].
  unfold MAX_CALLS_PER_MINUTE in Hsd.
  destruct (Z.leb_spec 60 (callCount info)); injection Hsd as <- <-.
  - destruct i as [|i]; simpl in *.
    + by injection Hi as ->.
    + specialize (IH limits info i t Hinfo Hall Hi). rewrite Hds in IH.
      apply IH. lia.
  - destruct i as [|i]; simpl in *; [lia|].
    specialize (IH (<[ep:={| lastCall := t0; callCount := callCount info + 1;
                            resetTime := resetTime info |}]> limits)
                  {| lastCall := t0; callCount := callCount info + 1;
                     resetTime := resetTime info |} i t).
    rewrite Hds in IH. simpl in IH. apply IH; [apply lookup_insert_eq|done|done|lia].
Qed.

(** X4. Counting within a window. For an endpoint seen for the first time
    at [t0], any further calls made up to the end of its 60 s window are
    counted one by one until the count reaches 60, the window end stays
    at [t0 + 60 s], and every call from the 61st on is answered with the
    time left in the window. *)
Theorem shouldDelay_counts_calls_in_window
    (t0 : Z) (times : list Z) (ep : string) (limits : gmap string RateLimitInfo)
    (Hnew : limits !! ep = None)
    (Hwindow : Forall (fun t => t <= t0 + 60000) times) :
  exists info,
    snd (delaysAt (t0 :: times) ep limits) !! ep = Some info
    /\ callCount info = Z.min (1 + Z.of_nat (length times)) 60
    /\ resetTime info = t0 + 60000
    /\ forall i t, times !! i = Some t -> (59 <= i)%nat ->
         fst (delaysAt (t0 :: times) ep limits) !! S i = Some (t0 + 60000 - t).
Proof.
  set (first := {| lastCall := t0; callCount := 1; resetTime := t0 + RESET_INTERVAL |}).
  assert (Hsd : shouldDelay t0 ep limits = (0, <[ep:=first]> limits))
    by (unfold shouldDelay; by rewrite Hnew).
  cbn [delaysAt]. rewrite Hsd.
  assert (Hl : <[ep:=first]> limits !! ep = Some first) by apply lookup_insert_eq.
  destruct (delaysAt_counts ep times (<[ep:=first]> limits) first Hl)
    as (info & H1 & H2 & H3); [simpl; unfold MAX_CALLS_PER_MINUTE; lia | exact Hwindow |].
  destruct (delaysAt times ep (<[ep:=first]> limits)) as [ds limits'] eqn:Hds.
  exists info. simpl in *. split; [done|].
  split; [unfold MAX_CALLS_PER_MINUTE in H2; lia|]. split; [done|].
  intros i t Hi Hge.
  pose proof (delaysAt_beyond_cap ep times (<[ep:=first]> limits) first i t Hl Hwindow Hi)
    as Hb.
  rewrite Hds in Hb. simpl in Hb. apply Hb. unfold MAX_CALLS_PER_MINUTE. lia.
Qed.

Lemma shouldDelay_counts_calls_in_window_witness :
  exists info,
    snd (delaysAt [1000; 1200; 1900] "songs" ∅) !! "songs" = Some info
    /\ callCount info = 3 /\ resetTime info = 61000.
Proof.
  destruct (shouldDelay_counts_calls_in_window 1000 [1200; 1900] "songs" ∅
              (lookup_empty "songs") ltac:(repeat constructor; lia))
    as (info & H1 & H2 & H3 & _).
  exists info. split; [exact H1|]. split; [exact H2 | exact H3].
Defined.

(** X5. [getStatus] and [shouldDelay] agree. When [getStatus] reports the
    endpoint as limited, [shouldDelay] returns exactly the reported time
    until reset, which is positive, and records nothing. When it reports
    the endpoint as not limited and the clock has not run backwards, the
    recommended wait is at most the 500 ms spacing. *)
Theorem getStatus_agrees_with_shouldDelay
    (now : Z) (ep : string) (limits : gmap string RateLimitInfo) :
  let '(count, untilReset, limited) := getStatus now ep limits in
  (limited = true ->
     shouldDelay now ep limits = (untilReset, limits) /\ 0 < untilReset)
  /\ (limited = false ->
      (forall info, limits !! ep = Some info -> lastCall info <= now) ->
      0 <= fst (shouldDelay now ep limits) <= 500).
Proof.
  unfold getStatus, shouldDelay, MAX_CALLS_PER_MINUTE, DEFAULT_DELAY.
  destruct (limits !! ep) as [info|]; [|split; [done | simpl; lia]].
  split.
  - intros [Hcap Hpos]%andb_true_iff.
    apply Z.leb_le in Hcap. apply Z.ltb_lt in Hpos.
    destruct (Z.ltb_spec (resetTime info) now); [lia|].
    destruct (Z.leb_spec 60 (callCount info)); [|lia].
    split; [f_equal; lia | lia].
  - intros Hnot Hclock. specialize (Hclock info eq_refl).
    destruct (Z.ltb_spec (resetTime info) now); simpl; [lia|].
    destruct (Z.leb_spec 60 (callCount info)); simpl; [|lia].
    simpl in Hnot. apply Z.ltb_ge in Hnot. lia.
Qed.

Lemma getStatus_agrees_with_shouldDelay_witness :
  shouldDelay 950 "songs" cappedLimits = (50, cappedLimits).
Proof.
  pose proof (getStatus_agrees_with_shouldDelay 950 "songs" cappedLimits) as H.
  unfold getStatus in H.
  assert (Hl : cappedLimits !! "songs" = Some cappedInfo) by apply lookup_singleton_eq.
  rewrite Hl in H. exact (proj1 (proj1 H eq_refl)).
Defined.

(** *** A retry inside makeRateLimitedCall *)

Lemma shouldDelay_records now ep (limits : gmap string RateLimitInfo) :
  is_Some (snd (shouldDelay now ep limits) !! ep).
Proof.
  unfold shouldDelay. destruct (limits !! ep) as [info|] eqn:Hinfo; simpl.
  - destruct (resetTime info <? now); simpl; [rewrite lookup_insert_eq; eauto|].
    destruct (MAX_CALLS_PER_MINUTE <=? callCount info); simpl.
    + rewrite Hinfo; eauto.
    + rewrite lookup_insert_eq; eauto.
  - rewrite lookup_insert_eq; eauto.
Qed.

Lemma consultLimiter_records ep w : is_Some (limits (consultLimiter ep w) !! ep).
Proof.
  unfold consultLimiter.
  pose proof (shouldDelay_records (clock w) ep (limits w)) as H.
  destruct (shouldDelay (clock w) ep (limits w)) as [delay limits'].
  by destruct (0 <? delay).
Qed.

(** After a 403 the endpoint's record is saturated until 120 s later. *)
Lemma afterRejection_saturated {T} (apiCall : Z -> Z * Settled T) ep a e w :
  status e = Some 403 ->
  exists info, limits (afterRejection apiCall ep a e w) !! ep = Some info
    /\ callCount info = 60
    /\ resetTime info = clock (afterRejection apiCall ep a e w) + 120000.
Proof.
  intros Hs. unfold afterRejection, noteFailure, statusTruthy. rewrite Hs. simpl.
  destruct (consultLimiter_records ep w) as [info Hinfo].
  unfold recordFailure. simpl. rewrite Hinfo.
  eexists. rewrite lookup_insert_eq. split; [done|]. simpl.
  unfold MAX_CALLS_PER_MINUTE, RESET_INTERVAL. split; lia.
Qed.

(** X6. A retry comes exactly 120 s after the 403. When attempt [a] is
    rejected with status 403 and a retry is left, the wrapper waits the
    backoff [retryDelay * (a + 1)] and then, because the failure has
    saturated the endpoint's record, the rest of the extended window: as
    long as the backoff is below 120 s, attempt [a + 1] is invoked
    exactly 120 000 ms after the rejection was recorded. *)
Theorem retry_after_403_waits_out_the_window {T : Type}
    (apiCall : Z -> Z * Settled T) (ep : string) (mr rd a : Z)
    (e : ApiError) (w : World)
    (Hretry : 0 <= a < mr)
    (Hcall : snd (apiCall a) = Rejected e)
    (Hstatus : status e = Some 403)
    (Hbackoff : 0 <= rd * (a + 1) < 120000) :
  let failed := afterRejection apiCall ep a e w in
  let b := rd * (a + 1) in
  clock (consultLimiter ep (sleep b (emit (Backoff b) failed))) = clock failed + 120000
  /\ exists evs,
      trace (snd (attempts apiCall ep mr rd (Z.to_nat (mr + 1 - a)) a w))
      = trace failed ++ [Backoff b; RateDelay (120000 - b); Invoke (a + 1)] ++ evs.
Proof.
  intros failed b.
  destruct (afterRejection_saturated apiCall ep a e w Hstatus)
    as (info & Hinfo & Hcount & Hreset). fold failed in Hinfo, Hreset.
  set (w4 := sleep b (emit (Backoff b) failed)).
  assert (Hsd : shouldDelay (clock w4) ep (limits w4) = (120000 - b, limits w4)).
  { rewrite (RateLimitProofs.shouldDelay_capped (clock w4) ep (limits w4) info);
      subst w4; simpl; [f_equal; lia | done | unfold MAX_CALLS_PER_MINUTE; lia | lia]. }
  assert (Hrec : recommended ep w4 = [RateDelay (120000 - b)]).
  { unfold recommended. rewrite Hsd. simpl.
    destruct (Z.ltb_spec 0 (120000 - b)); [done|lia]. }
  split.
  - unfold consultLimiter. fold w4. rewrite Hsd.
    destruct (Z.ltb_spec 0 (120000 - b)); [|lia].
    subst w4. simpl. lia.
  - replace (Z.to_nat (mr + 1 - a)) with (S (Z.to_nat (mr + 1 - (a + 1)))) by lia.
    cbn [attempts]. rewrite Hcall.
    assert (H403 : is403 e = true) by (unfold is403; by rewrite Hstatus).
    rewrite H403. destruct (Z.ltb_spec a mr); [|lia]. cbn [andb].
    change (noteFailure ep e _) with failed. fold b. fold w4.
    destruct (RateLimitProofs.attempts_settle apiCall ep mr rd
                (Z.to_nat (mr + 1 - (a + 1))) (a + 1) w4 eq_refl ltac:(lia))
      as (k & _ & _ & [evs Hevs] & _).
    exists evs. rewrite Hevs, Hrec. subst w4. simpl.
    rewrite <- !app_assoc. reflexivity.
Qed.

Lemma retry_after_403_waits_out_the_window_witness :
  exists evs,
    trace (snd (attempts alwaysForbidden "songs" 2 1000 3 0 startWorld))
    = [Invoke 0; Backoff 1000; RateDelay 119000; Invoke 1] ++ evs.
Proof.
  destruct (retry_after_403_waits_out_the_window alwaysForbidden "songs" 2 1000 0
              forbidden startWorld ltac:(lia) eq_refl eq_refl ltac:(lia))
    as (_ & evs & Hevs).
  exists evs. exact Hevs.
Defined.

End RateLimitFacts.

(** ** Source Selector: parsing, ties and labels *)

Module SelectorFacts.
Import JsString SourceSelector.

Lemma parseQualityTag_tier q :
  tierBitrate (fst (parseQualityTag q)) (snd (parseQualityTag q)).
Proof.
  unfold parseQualityTag.
  repeat (match goal with
          | |- context [if ?c then _ else _] => destruct c
          end; simpl; auto).
Qed.

Lemma parseUrlPattern_tier u :
  tierBitrate (fst (parseUrlPattern u)) (snd (parseUrlPattern u)).
Proof.
  unfold parseUrlPattern.
  repeat (match goal with
          | |- context [if ?c then _ else _] => destruct c
          end; simpl; auto).
Qed.

Lemma parseCandidate_tier item :
  tierBitrate (quality (parseCandidate item)) (bitrate (parseCandidate item)).
Proof.
  unfold parseCandidate.
  match goal with |- context [parseQualityTag ?q] =>
    pose proof (parseQualityTag_tier q) as Ht;
    destruct (parseQualityTag q) as [t b] end.
  simpl in Ht. destruct t; simpl; try exact Ht.
  destruct (truthy (link item)); [|simpl; exact Ht].
  pose proof (parseUrlPattern_tier (link item)) as Hu.
  destruct (parseUrlPattern (link item)) as [t' b']. exact Hu.
Qed.

Lemma selector_tier_facts (downloadUrls : list DownloadItem) :
  let info := selectOptimalAudioSource downloadUrls in
  tierBitrate (detectedQuality info) (detectedBitrate info)
  /\ Forall (fun a => tierBitrate (quality a) (bitrate a)) (availableQualities info).
Proof.
  intros info.
  assert (Hall : Forall (fun a => tierBitrate (quality a) (bitrate a))
                        (availableQualities info)).
  { subst info. rewrite SelectorProofs.select_available.
    rewrite (SelectorProofs.sortBy_perm compareQualities).
    apply Forall_fmap, Forall_forall. intros item _. apply parseCandidate_tier. }
  split; [|exact Hall].
  subst info. rewrite SelectorProofs.select_unfold in *.
  destruct (sortBy compareQualities _) as [|top rest]; simpl in *; [done|].
  by apply Forall_cons in Hall as [Htop _].
Qed.

(** X7. Tier and bitrate always go together. Every candidate the selector
    keeps, and the decision it returns, has tier high with 320 or 256
    kbps, medium with 160 or 128, low with 96 or 64, or tier unknown
    with no bitrate at all. *)
Theorem selector_tier_determines_bitrate (downloadUrls : list DownloadItem) :
  let info := selectOptimalAudioSource downloadUrls in
  tierBitrate (detectedQuality info) (detectedBitrate info)
  /\ Forall (fun a => tierBitrate (quality a) (bitrate a)) (availableQualities info)
  /\ (detectedBitrate info = None <-> detectedQuality info = unknown).
Proof.
  intros info. destruct (selector_tier_facts downloadUrls) as [Hsel Hall].
  fold info in Hsel, Hall.
  split; [exact Hsel|]. split; [exact Hall|].
  destruct (detectedQuality info); simpl in Hsel; split; intros H;
    try done; try (destruct Hsel as [Hs|Hs]; rewrite Hs in H; done).
Qed.

(** X8. The label shown for a decision never names a bitrate that was not
    detected: for every candidate list it is one of seven fixed texts, and
    it is the plain "Good Quality (JioSaavn)" exactly when the tier is
    unknown. *)
Theorem description_of_a_decision (downloadUrls : list DownloadItem) :
  let info := selectOptimalAudioSource downloadUrls in
  let label := getQualityDescription (detectedQuality info) (detectedBitrate info) in
  label ∈ [ "High Quality (320kbps)"; "High Quality (256kbps)";
            "Standard Quality (160kbps)"; "Standard Quality (128kbps)";
            "Basic Quality (96kbps)"; "Basic Quality (64kbps)";
            "Good Quality (JioSaavn)" ]
  /\ (label = "Good Quality (JioSaavn)" <-> detectedQuality info = unknown).
Proof.
  intros info label.
  destruct (selector_tier_facts downloadUrls) as [Hsel _]. fold info in Hsel.
  subst label. destruct (detectedQuality info); simpl in Hsel.
  - destruct Hsel as [-> | ->]; split; try (split; discriminate);
      vm_compute; set_solver.
  - destruct Hsel as [-> | ->]; split; try (split; discriminate);
      vm_compute; set_solver.
  - destruct Hsel as [-> | ->]; split; try (split; discriminate);
      vm_compute; set_solver.
  - rewrite Hsel. split; [vm_compute; set_solver | done].
Qed.

(** The head of a stably sorted list is the first element of the input
    that nothing outranks. *)
Lemma sortBy_head_first_best {A} (cmp : A -> A -> Z)
    (cmp_total : forall a b, 0 < cmp a b -> cmp b a <= 0)
    (cmp_trans : forall a b c, cmp a b <= 0 -> cmp b c <= 0 -> cmp a c <= 0) :
  forall l top rest, sortBy cmp l = top :: rest ->
    exists before after, l = before ++ top :: after
      /\ Forall (fun y => 0 < cmp y top) before
      /\ Forall (fun y => cmp top y <= 0) after.
Proof.
  induction l as [|a l IH]; intros top rest Hs; [done|].
  change (sortBy cmp (a :: l)) with (insertSorted cmp a (sortBy cmp l)) in Hs.
  pose proof (SelectorProofs.sortBy_sorted cmp cmp_total cmp_trans l) as Hsorted.
  pose proof (SelectorProofs.sortBy_perm cmp l) as Hperm.
  destruct (sortBy cmp l) as [|h t] eqn:Hl.
  - apply Permutation_nil_l in Hperm as <-. simpl in Hs. injection Hs as <- <-.
    exists [], []. split; [done|]. split; constructor.
  - simpl in Hs. destruct (Z.leb_spec (cmp a h) 0) as [Hle|Hgt].
    + injection Hs as <- <-. exists [], l. split; [done|]. split; [constructor|].
      apply StronglySorted_inv in Hsorted as [_ Hall].
      rewrite <- Hperm. constructor; [exact Hle|].
      eapply Forall_impl; [exact Hall|]. intros y Hy.
      unfold precedes in Hy. eauto.
    + injection Hs as <- <-.
      destruct (IH h t eq_refl) as (before & after & -> & Hb & Ha).
      exists (a :: before), after. split; [done|]. split; [|exact Ha].
      constructor; [exact Hgt | exact Hb].
Qed.

(** X9. Ties go to the candidate listed first. The selected source is the
    first usable candidate, in the order of the input, that no other
    usable candidate outranks: every usable candidate listed before it
    ranks strictly lower, every one listed after it ranks no higher. *)
Theorem selection_is_first_best (downloadUrls : list DownloadItem)
    (top : AudioQuality) (rest : list AudioQuality)
    (Hsel : availableQualities (selectOptimalAudioSource downloadUrls) = top :: rest) :
  selectedUrl (selectOptimalAudioSource downloadUrls) = url top
  /\ exists before after,
      map parseCandidate (List.filter usable downloadUrls) = before ++ top :: after
      /\ Forall (fun c => ~ ranksNoLower c top) before
      /\ Forall (fun c => ranksNoLower top c) after.
Proof.
  rewrite SelectorProofs.select_available in Hsel.
  split.
  - rewrite SelectorProofs.select_unfold, Hsel. reflexivity.
  - destruct (sortBy_head_first_best compareQualities
                SelectorProofs.compare_total SelectorProofs.compare_trans _ _ _ Hsel)
      as (before & after & Heq & Hb & Ha).
    exists before, after. split; [exact Heq|]. split.
    + eapply Forall_impl; [exact Hb|]. intros c Hc Hr. simpl in Hc.
      apply SelectorProofs.compare_precedes_ranks in Hr. lia.
    + eapply Forall_impl; [exact Ha|]. intros c Hc. simpl in Hc.
      by apply SelectorProofs.compare_precedes_ranks.
Qed.

Lemma selection_is_first_best_witness :
  selectedUrl (selectOptimalAudioSource
                 [ {| quality_tag := Some "320kbps"; link := "https://cdn/first_320.mp4" |};
                   {| quality_tag := Some "high"; link := "https://cdn/second_320.mp4" |} ])
  = "https://cdn/first_320.mp4".
Proof.
  exact (proj1 (selection_is_first_best
                  [ {| quality_tag := Some "320kbps"; link := "https://cdn/first_320.mp4" |};
                    {| quality_tag := Some "high"; link := "https://cdn/second_320.mp4" |} ]
                  {| url := "https://cdn/first_320.mp4"; bitrate := Some 320;
                     format := "mp4"; quality := high |}
                  [ {| url := "https://cdn/second_320.mp4"; bitrate := Some 320;
                       format := "mp4"; quality := high |} ]
                  eq_refl)).
Defined.

(** X10. The decision is empty exactly when no candidate has a usable
    link; otherwise the selected URL is the non-blank link of one of the
    usable candidates. *)
Theorem selection_empty_iff_nothing_usable (downloadUrls : list DownloadItem) :
  let info := selectOptimalAudioSource downloadUrls in
  (selectedUrl info = "" <-> Forall (fun item => usable item = false) downloadUrls)
  /\ (info = emptyDecision <-> Forall (fun item => usable item = false) downloadUrls)
  /\ (selectedUrl info <> "" ->
      exists item, item ∈ downloadUrls /\ usable item = true
                   /\ link item = selectedUrl info
                   /\ nonblank (selectedUrl info) = true).
Proof.
  intros info.
  assert (Hpick : forall top rest,
            sortBy compareQualities (map parseCandidate (List.filter usable downloadUrls))
            = top :: rest ->
            exists item, item ∈ downloadUrls /\ usable item = true
                         /\ link item = url top).
  { intros top rest Hs.
    pose proof (SelectorProofs.sortBy_perm compareQualities
                  (map parseCandidate (List.filter usable downloadUrls))) as Hperm.
    rewrite Hs in Hperm.
    assert (Hin : top ∈ map parseCandidate (List.filter usable downloadUrls))
      by (rewrite <- Hperm; apply list_elem_of_here).
    apply list_elem_of_fmap in Hin as (item & -> & Hitem).
    apply list_elem_of_In, filter_In in Hitem as [Hitem Hus].
    exists item. split; [by apply list_elem_of_In|]. split; [exact Hus|].
    symmetry. apply PlayerProofs.parseCandidate_url. }
  assert (Hnone : Forall (fun item => usable item = false) downloadUrls ->
                  info = emptyDecision)
    by apply PlayerProofs.select_none_usable.
  assert (Hsome : selectedUrl info = "" ->
                  Forall (fun item => usable item = false) downloadUrls).
  { subst info. rewrite SelectorProofs.select_unfold.
    destruct (sortBy compareQualities _) as [|top rest] eqn:Hs; simpl.
    - intros _. apply Forall_forall. intros item Hitem.
      destruct (usable item) eqn:Hus; [|done].
      pose proof (SelectorProofs.sortBy_perm compareQualities
                    (map parseCandidate (List.filter usable downloadUrls))) as Hperm.
      rewrite Hs in Hperm. apply Permutation_nil_l in Hperm. symmetry in Hperm.
      apply fmap_nil_inv in Hperm.
      assert (Hin : In item (List.filter usable downloadUrls))
        by (apply filter_In; split; [by apply list_elem_of_In | done]).
      rewrite Hperm in Hin. destruct Hin.
    - intros Hempty. destruct (Hpick top rest eq_refl) as (item & _ & Hus & Hl).
      rewrite Hempty in Hl. unfold usable in Hus. rewrite Hl in Hus. discriminate. }
  split; [|split].
  - split; [exact Hsome|]. intros H. by rewrite (Hnone H).
  - split; [|exact Hnone]. intros H. apply Hsome. by rewrite H.
  - subst info. rewrite SelectorProofs.select_unfold.
    destruct (sortBy compareQualities _) as [|top rest] eqn:Hs; simpl; [done|].
    intros _. destruct (Hpick top rest eq_refl) as (item & Hin & Hus & Hl).
    exists item. split; [exact Hin|]. split; [exact Hus|]. split; [exact Hl|].
    rewrite <- Hl. unfold usable in Hus. by apply andb_true_iff in Hus as [_ ?].
Qed.

(** A link that is only a no-break space is blank for [trim]: the
    candidate is dropped, and the next usable one is selected. *)
Example no_break_space_link_is_dropped :
  usable (tagged "320kbps" noBreakSpace) = false
  /\ selectOptimalAudioSource [tagged "320kbps" noBreakSpace] = emptyDecision
  /\ selectedUrl (selectOptimalAudioSource
                    [tagged "320kbps" noBreakSpace; tagged "320kbps" "https://cdn/ok.mp4"])
     = "https://cdn/ok.mp4".
Proof. by vm_compute. Qed.

End SelectorFacts.

(** ** Playback Controller: previous, queue replacement, toggling *)

Module PlayerFacts.
Import JsNumber Player.

Lemma playPrevious_step c draws s i :
  pastRestartThreshold s = false ->
  0 < Z.of_nat (length (playlistToUse s)) -> 0 <= playlistIndex s ->
  resolvePrevious c draws s = Advance i ->
  playPrevious c draws s = Done (playSong (nthZ (playlistToUse s) i) (moveCursor i s)).
Proof.
  intros Hpos Hlen Hidx Hr. unfold playPrevious, moveCursor. rewrite Hpos.
  destruct (Z.ltb_spec 0 (Z.of_nat (length (playlistToUse s)))); [|lia].
  destruct (Z.leb_spec 0 (playlistIndex s)); [|lia].
  simpl. rewrite Hr.
  destruct (activePlaylist s) eqn:Hap; simpl; rewrite ?Hap; done.
Qed.

Lemma playPrevious_restart c draws s :
  pastRestartThreshold s = true ->
  exists a, audio s = Some a
    /\ playPrevious c draws s
       = Done (setAudio (Some {| paused := paused a; position := zero;
                                 src := src a; el_volume := el_volume a |}) s).
Proof.
  intros Hpos. unfold playPrevious. rewrite Hpos.
  unfold pastRestartThreshold in Hpos.
  destruct (audio s) as [a|]; [|done]. eauto.
Qed.

(** The step-back target of [playPrevious] without shuffle. *)
Lemma resolvePrevious_sequential c draws s :
  c_isShuffle c = false ->
  resolvePrevious c draws s
  = Advance (if playlistIndex s - 1 <? 0
             then match c_repeatMode c with
                  | repeat_all => Z.of_nat (length (playlistToUse s)) - 1
                  | _ => 0
                  end
             else playlistIndex s - 1).
Proof.
  intros Hsh. unfold resolvePrevious. rewrite Hsh. simpl.
  destruct (_ <? 0); [|done]. by destruct (c_repeatMode c).
Qed.

(** X11. Restart or step back. With the element more than 3 s into the
    track, [playPrevious] only rewinds it: cursors, queue, current song
    and play flag stay as they are. Otherwise, without shuffle and with
    the cursor inside the list, both cursors move one track back; from
    the first track they wrap to the last one under repeat-all and stay
    on the first one under the other modes; the track under the new
    cursor is the one handed to [playSong]. *)
Theorem playPrevious_restarts_or_steps_back
    (c : Closure) (draws : list Z) (s : State) :
  (pastRestartThreshold s = true ->
     exists s', playPrevious c draws s = Done s'
       /\ (position <$> audio s') = Some zero
       /\ queueIndex s' = queueIndex s /\ activePlaylist s' = activePlaylist s
       /\ queue s' = queue s /\ currentSong s' = currentSong s
       /\ isPlaying s' = isPlaying s)
  /\ (pastRestartThreshold s = false -> c_isShuffle c = false -> cursorInRange s ->
      exists s' target, playPrevious c draws s = Done s'
        /\ queueIndex s' = target /\ playlistIndex s' = target
        /\ s' = playSong (nthZ (playlistToUse s) target) (moveCursor target s)
        /\ (0 < playlistIndex s -> target = playlistIndex s - 1)
        /\ (playlistIndex s = 0 -> c_repeatMode c = repeat_all ->
            target = Z.of_nat (length (playlistToUse s)) - 1)
        /\ (playlistIndex s = 0 -> c_repeatMode c <> repeat_all -> target = 0)
        /\ (forall prev u, nthZ (playlistToUse s) target = Some prev ->
              playableUrl prev = Some u -> currentSong s' = Some prev)).
Proof.
  split.
  - intros Hpos. destruct (playPrevious_restart c draws s Hpos) as (a & Ha & ->).
    eexists. split; [reflexivity|]. simpl. repeat split.
  - intros Hpos Hsh [Hlo Hhi].
    pose proof (resolvePrevious_sequential c draws s Hsh) as Hr.
    eexists. eexists. split; [apply playPrevious_step; [done|lia|lia|exact Hr]|].
    match goal with |- context [moveCursor ?t s] => set (target := t) end.
    destruct (PlayerProofs.playSong_cursors (nthZ (playlistToUse s) target) target s)
      as (Hq & Hp & _).
    split; [exact Hq|]. split; [exact Hp|]. split; [reflexivity|].
    split; [|split; [|split]].
    + intros H0. subst target. destruct (Z.ltb_spec (playlistIndex s - 1) 0); lia.
    + intros H0 Hall. subst target. rewrite H0, Hall. reflexivity.
    + intros H0 Hnot. subst target. rewrite H0. simpl.
      by destruct (c_repeatMode c).
    + intros prev u Hprev Hu. subst target. rewrite Hprev.
      exact (proj1 (PlayerProofs.playSong_playable prev u _ Hu)).
Qed.

Lemma playPrevious_restarts_or_steps_back_witness :
  exists s', playPrevious repeatAllNoShuffle [] (withQueue [songA; songB] 0 initialState)
             = Done s'
             /\ queueIndex s' = 1.
Proof.
  destruct (proj2 (playPrevious_restarts_or_steps_back repeatAllNoShuffle []
                     (withQueue [songA; songB] 0 initialState))
              eq_refl eq_refl ltac:(split; vm_compute; congruence))
    as (s' & target & Hdone & Hq & _ & _ & _ & Hwrap & _).
  exists s'. split; [exact Hdone|]. rewrite Hq. exact (Hwrap eq_refl eq_refl).
Defined.

(** *** The cursor stays inside the list *)

Lemma drawOther_member draws avoid len d :
  drawOther draws avoid len = Some d -> d ∈ draws.
Proof.
  intros H. apply PlayerProofs.drawOther_inv in H as (rej & rest & -> & _ & _).
  apply elem_of_app. right. apply list_elem_of_here.
Qed.

Lemma resolveNext_in_range c draws s i :
  cursorInRange s ->
  validDraws (Z.of_nat (length (playlistToUse s))) draws ->
  resolveNext c draws s = Advance i ->
  0 <= i < Z.of_nat (length (playlistToUse s)).
Proof.
  intros [Hlo Hhi] Hvalid. unfold resolveNext.
  destruct (c_isShuffle c && (1 <? _)).
  - destruct (playlistLanguage s) as [lang|].
    + destruct (1 <? Z.of_nat (length (sameLanguageSongs lang (playlistToUse s)))).
      * destruct (drawOther draws _ _) as [d|]; [|done].
        destruct (nthZ (sameLanguageSongs lang (playlistToUse s)) d) as [e|] eqn:He;
          [|done].
        intros [= <-].
        assert (Hin : snd e ∈ poolIndices lang (playlistToUse s)).
        { unfold poolIndices. apply list_elem_of_fmap. exists e. split; [done|].
          apply PlayerProofs.nthZ_Some in He as [_ He].
          by eapply list_elem_of_lookup_2. }
        apply PlayerProofs.poolIndices_spec in Hin as (song & Hsong & _).
        apply PlayerProofs.nthZ_Some in Hsong as [H0 Hsong].
        apply lookup_lt_Some in Hsong. lia.
      * intros [= <-]. unfold wrapNext.
        destruct (Z.leb_spec (Z.of_nat (length (playlistToUse s))) (playlistIndex s + 1));
          lia.
    + destruct (drawOther draws _ _) as [d|] eqn:Hd; [|done].
      intros [= <-]. apply drawOther_member in Hd.
      unfold validDraws in Hvalid. rewrite Forall_forall in Hvalid. by apply Hvalid.
  - unfold sequentialNext.
    destruct (Z.leb_spec (Z.of_nat (length (playlistToUse s))) (playlistIndex s + 1)).
    + destruct (c_repeatMode c); try done; intros [= <-]; lia.
    + intros [= <-]. lia.
Qed.

Lemma resolvePrevious_in_range c draws s i :
  cursorInRange s ->
  validDraws (Z.of_nat (length (playlistToUse s))) draws ->
  resolvePrevious c draws s = Advance i ->
  0 <= i < Z.of_nat (length (playlistToUse s)).
Proof.
  intros [Hlo Hhi] Hvalid. unfold resolvePrevious.
  destruct (c_isShuffle c && (1 <? _)).
  - destruct (drawOther draws _ _) as [d|] eqn:Hd; [|done].
    intros [= <-]. apply drawOther_member in Hd.
    unfold validDraws in Hvalid. rewrite Forall_forall in Hvalid. by apply Hvalid.
  - destruct (Z.ltb_spec (playlistIndex s - 1) 0).
    + destruct (c_repeatMode c); intros [= <-]; lia.
    + intros [= <-]. lia.
Qed.

Lemma stopPlayback_cursor s :
  playlistIndex (stopPlayback s) = playlistIndex s
  /\ playlistToUse (stopPlayback s) = playlistToUse s.
Proof.
  destruct (PlayerProofs.stopPlayback_effect s) as (_ & _ & Hq & Hp & Hqu & _).
  unfold playlistIndex, playlistToUse. by rewrite Hq, Hp, Hqu.
Qed.

(** X12. [playNext] and [playPrevious] keep the cursor inside the list.
    If the cursor is in range and the random draws are indices of the
    list, then whenever either call completes, the list in use is the
    same and the cursor is still in range. *)
Theorem next_and_previous_keep_cursor_in_range
    (c : Closure) (draws : list Z) (s s' : State)
    (Hcursor : cursorInRange s)
    (Hdraws : validDraws (Z.of_nat (length (playlistToUse s))) draws)
    (Hdone : playNext c draws s = Done s' \/ playPrevious c draws s = Done s') :
  playlistToUse s' = playlistToUse s /\ cursorInRange s'.
Proof.
  pose proof Hcursor as [Hlo Hhi].
  assert (Hmoved : forall i, 0 <= i < Z.of_nat (length (playlistToUse s)) ->
            playlistToUse (playSong (nthZ (playlistToUse s) i) (moveCursor i s))
            = playlistToUse s
            /\ cursorInRange (playSong (nthZ (playlistToUse s) i) (moveCursor i s))).
  { intros i Hi.
    destruct (PlayerProofs.playSong_cursors (nthZ (playlistToUse s) i) i s)
      as (_ & Hp & Hpl).
    split; [exact Hpl|]. unfold cursorInRange. rewrite Hp, Hpl. exact Hi. }
  destruct Hdone as [Hdone|Hdone].
  - destruct (PlayerProofs.playNext_done_inv c draws s s' ltac:(lia) Hlo Hdone)
      as [(i & Hr & ->)|[_ ->]].
    + apply Hmoved. by eapply resolveNext_in_range.
    + destruct (stopPlayback_cursor s) as [Hi Hl].
      split; [exact Hl|]. unfold cursorInRange. by rewrite Hi, Hl.
  - destruct (pastRestartThreshold s) eqn:Hpos.
    + destruct (playPrevious_restart c draws s Hpos) as (a & _ & Heq).
      rewrite Heq in Hdone. injection Hdone as <-. split; [done | exact Hcursor].
    + destruct (resolvePrevious c draws s) as [i| | |] eqn:Hr.
      * rewrite (playPrevious_step c draws s i Hpos ltac:(lia) Hlo Hr) in Hdone.
        injection Hdone as <-. apply Hmoved. by eapply resolvePrevious_in_range.
      * unfold resolvePrevious in Hr.
        destruct (c_isShuffle c && _); [by destruct (drawOther _ _ _)|].
        destruct (_ <? 0); [by destruct (c_repeatMode c)|done].
      * unfold playPrevious in Hdone. rewrite Hpos, Hr in Hdone.
        destruct (Z.ltb_spec 0 (Z.of_nat (length (playlistToUse s)))); [|lia].
        destruct (Z.leb_spec 0 (playlistIndex s)); [|lia]. done.
      * unfold playPrevious in Hdone. rewrite Hpos, Hr in Hdone.
        destruct (Z.ltb_spec 0 (Z.of_nat (length (playlistToUse s)))); [|lia].
        destruct (Z.leb_spec 0 (playlistIndex s)); [|lia]. done.
Qed.

Lemma next_and_previous_keep_cursor_in_range_witness :
  cursorInRange
    (playSong (Some songA) (moveCursor 0 (withQueue [songA; songB] 1 initialState))).
Proof.
  refine (proj2 (next_and_previous_keep_cursor_in_range repeatAllNoShuffle []
                   (withQueue [songA; songB] 1 initialState) _ _ _ _)).
  - split; vm_compute; congruence.
  - constructor.
  - left. reflexivity.
Defined.

(** *** setPlaylistAndPlay *)

Lemma filter_keeps_all {A} (f : A -> bool) (l : list A) :
  Forall (fun x => f x = true) l -> List.filter f l = l.
Proof. induction 1 as [|x l Hx _ IH]; simpl; [done|]. by rewrite Hx, IH. Qed.

Lemma filter_drops_all {A} (f : A -> bool) (l : list A) :
  Forall (fun x => f x = false) l -> List.filter f l = [].
Proof. induction 1 as [|x l Hx _ IH]; simpl; [done|]. by rewrite Hx. Qed.

Lemma filter_nonempty {A} (f : A -> bool) (l : list A) :
  Exists (fun x => f x = true) l -> List.filter f l <> [].
Proof.
  intros (x & Hx & Hf)%Exists_exists Hnil.
  assert (Hin : In x (List.filter f l))
    by (apply filter_In; split; [by apply list_elem_of_In | done]).
  rewrite Hnil in Hin. destruct Hin.
Qed.

Lemma filter_all_pass {A} (f : A -> bool) (l : list A) :
  Forall (fun x => f x = true) (List.filter f l).
Proof.
  apply Forall_forall. intros x Hx.
  apply list_elem_of_In, filter_In in Hx. tauto.
Qed.

(** The state [setPlaylistAndPlay] hands to [playSong]. *)
Lemma setPlaylistAndPlay_accepts now playlist index s :
  0 <= index < Z.of_nat (length playlist) ->
  List.filter validSong playlist <> [] ->
  exists pl validIndex,
    validIndex = (if Z.of_nat (length (List.filter validSong playlist)) <=? index
                  then 0 else index)
    /\ tracks pl = List.filter validSong playlist
    /\ currentIndex pl = Some validIndex
    /\ pl_language pl = None
    /\ setPlaylistAndPlay now playlist index s
       = playSong (nthZ (List.filter validSong playlist) validIndex)
           (setQueueIndex validIndex
              (setQueue (List.filter validSong playlist)
                 (setActivePlaylist (Some pl) s))).
Proof.
  intros Hidx Hvalid. unfold setPlaylistAndPlay.
  destruct (Z.eqb_spec (Z.of_nat (length playlist)) 0); [lia|].
  destruct (Z.ltb_spec index 0); [lia|].
  destruct (Z.leb_spec (Z.of_nat (length playlist)) index); [lia|]. simpl.
  destruct (Z.eqb_spec (Z.of_nat (length (List.filter validSong playlist))) 0)
    as [Hzero|_].
  - destruct (List.filter validSong playlist); [done | simpl in Hzero; lia].
  - eexists. eexists. split; [reflexivity|]. split; [|split; [|split]];
      [| | |reflexivity]; reflexivity.
Qed.

(** X13. Replacing the queue. [setPlaylistAndPlay] ignores an empty list
    and an index outside the list; a list without any valid track (id
    and name present) only sets an error. Otherwise the queue and the
    active playlist both become the list of valid tracks, the two
    cursors agree and point into it, and when every track is valid the
    cursor is the requested index and the requested track is played. *)
Theorem setPlaylistAndPlay_replaces_queue
    (now : Z) (playlist : list Song) (index : Z) (s : State) :
  let s' := setPlaylistAndPlay now playlist index s in
  (playlist = [] \/ index < 0 \/ Z.of_nat (length playlist) <= index -> s' = s)
  /\ (0 <= index < Z.of_nat (length playlist) ->
      Forall (fun song => validSong song = false) playlist ->
      s' = setError (Some "No valid songs to play") s)
  /\ (0 <= index < Z.of_nat (length playlist) ->
      Exists (fun song => validSong song = true) playlist ->
      queue s' = List.filter validSong playlist
      /\ (tracks <$> activePlaylist s') = Some (queue s')
      /\ queueIndex s' = playlistIndex s'
      /\ cursorInRange s'
      /\ Forall (fun song => validSong song = true) (queue s')
      /\ (Forall (fun song => validSong song = true) playlist ->
          queue s' = playlist /\ queueIndex s' = index
          /\ forall chosen u, nthZ playlist index = Some chosen ->
               playableUrl chosen = Some u -> currentSong s' = Some chosen)).
Proof.
  intros s'. split; [|split].
  - intros H. subst s'. unfold setPlaylistAndPlay.
    destruct H as [->|[H|H]]; [done| |].
    + destruct (_ =? 0); [done|]. destruct (Z.ltb_spec index 0); [done|lia].
    + destruct (_ =? 0); [done|].
      destruct (Z.leb_spec (Z.of_nat (length playlist)) index); [|lia].
      by rewrite orb_true_r.
  - intros Hidx Hnone. subst s'. unfold setPlaylistAndPlay.
    destruct (Z.eqb_spec (Z.of_nat (length playlist)) 0); [lia|].
    destruct (Z.ltb_spec index 0); [lia|].
    destruct (Z.leb_spec (Z.of_nat (length playlist)) index); [lia|]. simpl.
    by rewrite (filter_drops_all validSong playlist Hnone).
  - intros Hidx Hsome.
    pose proof (filter_nonempty validSong playlist Hsome) as Hne.
    destruct (setPlaylistAndPlay_accepts now playlist index s Hidx Hne)
      as (pl & validIndex & Hvi & Htr & Hci & _ & Heq).
    fold s' in Heq.
    match type of Heq with _ = playSong ?o ?s0 =>
      destruct (PlayerProofs.playSong_keeps_queue o s0) as (Hq & Hi & Hap & _) end.
    rewrite <- Heq in Hq, Hi, Hap. simpl in Hq, Hi, Hap.
    assert (Hrange : 0 <= validIndex
                     < Z.of_nat (length (List.filter validSong playlist))).
    { rewrite Hvi.
      destruct (Z.leb_spec (Z.of_nat (length (List.filter validSong playlist))) index);
        [|lia].
      destruct (List.filter validSong playlist); [done | simpl; lia]. }
    assert (Hpi : playlistIndex s' = validIndex)
      by (unfold playlistIndex; rewrite Hap, Hci; reflexivity).
    assert (Hpl : playlistToUse s' = List.filter validSong playlist)
      by (unfold playlistToUse; rewrite Hap; exact Htr).
    split; [exact Hq|]. split; [by rewrite Hap, Hq; simpl; rewrite Htr|].
    split; [by rewrite Hi, Hpi|].
    split; [unfold cursorInRange; by rewrite Hpi, Hpl|].
    split; [rewrite Hq; apply filter_all_pass|].
    intros Hall. pose proof (filter_keeps_all validSong playlist Hall) as Hf.
    rewrite Hf in *.
    assert (Hsame : validIndex = index).
    { rewrite Hvi. destruct (Z.leb_spec (Z.of_nat (length playlist)) index); lia. }
    split; [exact Hq|]. split; [by rewrite Hi|].
    intros chosen u Hchosen Hu. rewrite Heq, Hsame, Hchosen.
    exact (proj1 (PlayerProofs.playSong_playable chosen u _ Hu)).
Qed.

Lemma setPlaylistAndPlay_replaces_queue_witness :
  queue (setPlaylistAndPlay 1700000000000 [songA; songB] 1 initialState) = [songA; songB]
  /\ currentSong (setPlaylistAndPlay 1700000000000 [songA; songB] 1 initialState)
     = Some songB.
Proof.
  destruct (proj2 (proj2 (setPlaylistAndPlay_replaces_queue 1700000000000
                            [songA; songB] 1 initialState))
              ltac:(simpl; lia) ltac:(constructor; reflexivity))
    as (_ & _ & _ & _ & _ & Hall).
  destruct (Hall ltac:(repeat constructor)) as (Hq & _ & Hplay).
  split; [exact Hq|]. exact (Hplay songB "https://cdn/b_320.mp4" eq_refl eq_refl).
Defined.

(** *** togglePlayPause *)

(** X14. Toggling reads the element, and a double click acts as one.
    Without a current song or a media element [togglePlayPause] does
    nothing. Otherwise the play flag becomes the opposite of what the
    element is actually doing, whatever the cached flag was, and the
    element itself is not touched yet. A second toggle before the timer
    has fired replaces the pending callback by one that has captured the
    same element state, so flag and pending action are those of a single
    toggle. When the callback of a toggle on a playing element runs, the
    element is paused. *)
Theorem togglePlayPause_reads_element_state (t1 t2 : Z) (s : State) :
  (currentSong s = None \/ audio s = None -> togglePlayPause t1 s = (s, None))
  /\ forall song a, currentSong s = Some song -> audio s = Some a ->
       let once := togglePlayPause t1 s in
       let twice := togglePlayPause t2 (fst once) in
       isPlaying (fst once) = paused a
       /\ snd once = Some {| wasPlaying := negb (paused a) |}
       /\ audio (fst once) = audio s
       /\ playPauseTimeout (fst once) = Some t1
       /\ isPlaying (fst twice) = isPlaying (fst once)
       /\ snd twice = snd once
       /\ playPauseTimeout (fst twice) = Some t2
       /\ (paused a = false ->
           exists s', toggleTimerFired {| wasPlaying := true |} (fst once) = Settled s'
                      /\ (paused <$> audio s') = Some true
                      /\ isPlaying (handlePause s') = false).
Proof.
  split.
  { unfold togglePlayPause. intros [->| ->]; [done|]. by destruct (currentSong s). }
  intros song a Hsong Haudio once twice.
  assert (Honce : once = (setPlayPauseTimeout (Some t1)
                            (setIsPlaying (negb (negb (paused a)))
                               (clearPlayPauseTimeout s)),
                          Some {| wasPlaying := negb (paused a) |})).
  { subst once. unfold togglePlayPause. by rewrite Hsong, Haudio. }
  assert (Htwice : twice = (setPlayPauseTimeout (Some t2)
                              (setIsPlaying (negb (negb (paused a)))
                                 (clearPlayPauseTimeout (fst once))),
                            Some {| wasPlaying := negb (paused a) |})).
  { subst twice. rewrite Honce. unfold togglePlayPause. simpl.
    by rewrite Hsong, Haudio. }
  rewrite Htwice, Honce. simpl. rewrite negb_involutive.
  repeat split; try done.
  intros Hplaying. unfold toggleTimerFired. simpl. rewrite Haudio.
  eexists. split; [reflexivity|]. done.
Qed.

Lemma togglePlayPause_reads_element_state_witness :
  isPlaying (fst (togglePlayPause 2 (fst (togglePlayPause 1 repeatOneState)))) = true.
Proof.
  exact (eq_trans
           (proj1 (proj2 (proj2 (proj2 (proj2
              (proj2 (togglePlayPause_reads_element_state 1 2 repeatOneState) songA
                 {| paused := true; position := zero; src := ""; el_volume := 1%Q |}
                 eq_refl eq_refl))))))
           eq_refl).
Defined.

(** *** Liked songs *)

Lemma isSongLiked_spec l i :
  isSongLiked l i = true <-> exists song, song ∈ l /\ id song = i.
Proof.
  unfold isSongLiked. rewrite existsb_exists. split.
  - intros (song & Hin & Heq). exists song.
    split; [by apply list_elem_of_In | by apply String.eqb_eq].
  - intros (song & Hin & Heq). exists song.
    split; [by apply list_elem_of_In | by apply String.eqb_eq].
Qed.

Lemma isSongLiked_false l i :
  isSongLiked l i = false <-> i ∉ id <$> l.
Proof.
  rewrite <- not_true_iff_false, isSongLiked_spec, list_elem_of_fmap. split.
  - intros H (song & -> & Hin). apply H. eauto.
  - intros H (song & Hin & <-). apply H. eauto.
Qed.

Lemma remove_fresh_id l i : i ∉ id <$> l -> removeFromLikedSongs i l = l.
Proof.
  intros Hi. unfold removeFromLikedSongs. apply filter_keeps_all.
  apply Forall_forall. intros song Hsong.
  apply negb_true_iff, String.eqb_neq. intros Heq. apply Hi.
  apply list_elem_of_fmap. eauto.
Qed.

Lemma remove_ids i l :
  forall j, j ∈ id <$> removeFromLikedSongs i l <-> j ∈ id <$> l /\ j <> i.
Proof.
  intros j. unfold removeFromLikedSongs. rewrite !list_elem_of_fmap. split.
  - intros (song & -> & Hin). apply list_elem_of_In, filter_In in Hin as [Hin Hne].
    apply negb_true_iff, String.eqb_neq in Hne.
    split; [exists song; split; [done | by apply list_elem_of_In] | done].
  - intros [(song & -> & Hin) Hne]. exists song. split; [done|].
    apply list_elem_of_In, filter_In. split; [by apply list_elem_of_In|].
    by apply negb_true_iff, String.eqb_neq.
Qed.

Lemma remove_keeps_NoDup i l :
  NoDup (id <$> l) -> NoDup (id <$> removeFromLikedSongs i l).
Proof.
  unfold removeFromLikedSongs. induction l as [|song l IH]; [done|].
  rewrite fmap_cons. intros [Hx Hl]%NoDup_cons. simpl List.filter.
  destruct (negb _); [|by apply IH].
  rewrite fmap_cons. apply NoDup_cons. split; [|by apply IH].
  intros Hin. apply Hx. by apply (remove_ids i l) in Hin as [? _].
Qed.

(** X15. Liked songs behave as a set of ids as long as every call comes
    from a render that shows the current list. Then, after
    [addToLikedSongs] the song is liked, and adding it again changes
    nothing; after [removeFromLikedSongs] it is not liked; liking and
    then unliking a song that was not liked gives the list back; whether
    any other id is liked is unaffected; and a list without repeated ids
    stays so. Two calls of [addToLikedSongs] from the same render, for a
    song that render does not show as liked, append the song twice. A
    call from a render that shows the song as liked changes nothing,
    whatever the latest list is. *)
Theorem liked_songs_form_a_set (song : Song) (likedSongs : list Song) :
  let added := addToLikedSongs likedSongs song likedSongs in
  isSongLiked added (id song) = true
  /\ addToLikedSongs added song added = added
  /\ isSongLiked (removeFromLikedSongs (id song) likedSongs) (id song) = false
  /\ (isSongLiked likedSongs (id song) = false ->
      removeFromLikedSongs (id song) added = likedSongs)
  /\ (forall other, other <> id song ->
        isSongLiked added other = isSongLiked likedSongs other
        /\ isSongLiked (removeFromLikedSongs (id song) likedSongs) other
           = isSongLiked likedSongs other)
  /\ (NoDup (id <$> likedSongs) ->
      NoDup (id <$> added)
      /\ NoDup (id <$> removeFromLikedSongs (id song) likedSongs))
  /\ (isSongLiked likedSongs (id song) = false ->
      addToLikedSongs likedSongs song added = likedSongs ++ [song; song]
      /\ ~ NoDup (id <$> addToLikedSongs likedSongs song added))
  /\ (forall latest, isSongLiked likedSongs (id song) = true ->
        addToLikedSongs likedSongs song latest = latest).
Proof.
  intros added.
  assert (Hadded : isSongLiked added (id song) = true).
  { subst added. unfold addToLikedSongs.
    destruct (isSongLiked likedSongs (id song)) eqn:Hl; simpl; [done|].
    unfold isSongLiked. rewrite existsb_app. simpl.
    by rewrite String.eqb_refl, orb_true_r. }
  split; [exact Hadded|]. split; [|split; [|split; [|split; [|split; [|split]]]]].
  - unfold addToLikedSongs at 1. by rewrite Hadded.
  - apply isSongLiked_false. intros Hin. by apply remove_ids in Hin as [_ ?].
  - intros Hnot. subst added. unfold addToLikedSongs. rewrite Hnot. simpl.
    unfold removeFromLikedSongs. rewrite List.filter_app. simpl.
    rewrite String.eqb_refl. simpl. rewrite app_nil_r.
    apply remove_fresh_id. by apply isSongLiked_false.
  - intros other Hne. split.
    + subst added. unfold addToLikedSongs. destruct (negb _); [|done].
      unfold isSongLiked. rewrite existsb_app. simpl.
      apply String.eqb_neq in Hne. rewrite String.eqb_sym in Hne.
      by rewrite Hne, !orb_false_r.
    + destruct (isSongLiked likedSongs other) eqn:Hl.
      * apply isSongLiked_spec in Hl as (x & Hin & Hx).
        apply isSongLiked_spec. exists x. split; [|done].
        apply list_elem_of_In, filter_In. split; [by apply list_elem_of_In|].
        apply negb_true_iff, String.eqb_neq. congruence.
      * apply isSongLiked_false. apply isSongLiked_false in Hl.
        intros Hin. apply Hl. by apply remove_ids in Hin as [? _].
  - intros Hnd. split; [|by apply remove_keeps_NoDup].
    subst added. unfold addToLikedSongs.
    destruct (isSongLiked likedSongs (id song)) eqn:Hl; [done|].
    simpl. rewrite fmap_app. simpl. apply NoDup_app. split; [done|].
    split; [|apply NoDup_singleton].
    intros x Hx ->%list_elem_of_singleton. by apply isSongLiked_false in Hl.
  - intros Hnot.
    assert (Htwice : addToLikedSongs likedSongs song added = likedSongs ++ [song; song]).
    { subst added. unfold addToLikedSongs. rewrite Hnot. simpl.
      by rewrite <- app_assoc. }
    split; [exact Htwice|]. rewrite Htwice, fmap_app. simpl.
    intros (_ & _ & Hnd)%NoDup_app. apply NoDup_cons in Hnd as [Hin _].
    apply Hin. apply list_elem_of_here.
  - intros latest Hliked. unfold addToLikedSongs. by rewrite Hliked.
Qed.

Lemma liked_songs_form_a_set_witness :
  isSongLiked [] (id songA) = false
  /\ addToLikedSongs [] songA (addToLikedSongs [] songA []) = [songA; songA].
Proof.
  destruct (liked_songs_form_a_set songA [])
    as (_ & _ & _ & _ & _ & _ & Hstale & _).
  split; [reflexivity|]. exact (proj1 (Hstale eq_refl)).
Defined.

(** *** Saved playlists *)

Lemma findIndexFrom_cases {A} (p : A -> bool) (l : list A) : forall k,
  (findIndexFrom p l k = -1 /\ Forall (fun x => p x = false) l)
  \/ (exists i x, findIndexFrom p l k = k + Z.of_nat i
                   /\ l !! i = Some x /\ p x = true
                   /\ Forall (fun y => p y = false) (take i l)).
Proof.
  induction l as [|y l IH]; intros k; simpl; [left; done|].
  destruct (p y) eqn:Hy.
  - right. exists O, y. split; [lia|]. split; [done|]. split; [done|constructor].
  - destruct (IH (k + 1)) as [[H1 H2]|(i & x & H1 & H2 & H3 & H4)].
    + left. split; [done|]. by constructor.
    + right. exists (S i), x. split; [lia|]. split; [done|]. split; [done|].
      simpl. by constructor.
Qed.

Lemma findIndexFrom_first {A} (p : A -> bool) (l : list A) i x : forall k,
  l !! i = Some x -> p x = true -> Forall (fun y => p y = false) (take i l) ->
  findIndexFrom p l k = k + Z.of_nat i.
Proof.
  revert i. induction l as [|y l IH]; intros i k Hi Hx Hbefore; [done|].
  destruct i as [|i]; simpl in *.
  - injection Hi as ->. rewrite Hx. lia.
  - apply Forall_cons in Hbefore as [Hy Hbefore]. rewrite Hy.
    rewrite (IH i (k + 1) Hi Hx Hbefore). lia.
Qed.

(** Where [savePlaylist] puts the playlist when the render shows the
    list that is updated. *)
Lemma savePlaylist_slot playlist l :
  exists i, savePlaylist l playlist l !! i = Some playlist
    /\ Forall (fun q => sameId playlist q = false) (take i (savePlaylist l playlist l))
    /\ (forall j, j <> i -> savePlaylist l playlist l !! j = l !! j)
    /\ ((0 <= findIndex (sameId playlist) l /\ (i < length l)%nat
         /\ length (savePlaylist l playlist l) = length l
         /\ exists old, l !! i = Some old /\ pl_id old = pl_id playlist)
        \/ (findIndex (sameId playlist) l = -1 /\ i = length l
            /\ length (savePlaylist l playlist l) = S (length l)
            /\ Forall (fun q => sameId playlist q = false) l)).
Proof.
  unfold savePlaylist. fold (sameId playlist). unfold findIndex.
  destruct (findIndexFrom_cases (sameId playlist) l 0)
    as [[Hnone Hall]|(i & old & Hfound & Hold & Hp & Hbefore)].
  - rewrite Hnone. simpl. exists (length l).
    split; [by rewrite lookup_app_r, Nat.sub_diag|].
    split; [by rewrite take_app_length|].
    split.
    + intros j Hj. destruct (decide (j < length l)%nat).
      * by rewrite lookup_app_l.
      * rewrite lookup_app_r by lia. rewrite (lookup_ge_None_2 l j) by lia.
        destruct (j - length l)%nat eqn:Hd; [lia|done].
    + right. split; [done|]. split; [done|]. split; [|done].
      rewrite length_app. simpl. lia.
  - rewrite Hfound. destruct (Z.leb_spec 0 (0 + Z.of_nat i)); [|lia].
    replace (Z.to_nat (0 + Z.of_nat i)) with i by lia.
    pose proof (lookup_lt_Some _ _ _ Hold) as Hlt.
    exists i. split; [by apply list_lookup_insert_eq|].
    split; [by rewrite take_insert_ge|].
    split; [intros j Hj; by apply list_lookup_insert_ne|].
    left. split; [lia|]. split; [done|]. split; [apply length_insert|].
    exists old. split; [done|]. by apply String.eqb_eq.
Qed.

(** X16. Saving a playlist is an insert-or-replace keyed by id as long as
    the call comes from a render that shows the current list. Then,
    after [savePlaylist], looking the id up by [findIndex] lands on the
    playlist just saved; saving it again changes nothing; the list grows
    by one exactly when the id was new; and the playlists stored under
    other ids are the same as before. Two calls from the same render for
    an id that render does not hold append the playlist twice. A call
    from a render that holds the id replaces the entry in the list of
    that render, and the result does not depend on the latest list. *)
Theorem savePlaylist_is_insert_or_replace
    (playlist : Playlist) (savedPlaylists : list Playlist) :
  let saved := savePlaylist savedPlaylists playlist savedPlaylists in
  nthZ saved (findIndex (sameId playlist) saved) = Some playlist
  /\ savePlaylist saved playlist saved = saved
  /\ length saved
     = (if 0 <=? findIndex (sameId playlist) savedPlaylists
        then length savedPlaylists else S (length savedPlaylists))
  /\ (forall q, pl_id q <> pl_id playlist -> (q ∈ saved <-> q ∈ savedPlaylists))
  /\ (findIndex (sameId playlist) savedPlaylists = -1 ->
      savePlaylist savedPlaylists playlist saved
      = savedPlaylists ++ [playlist; playlist])
  /\ (0 <= findIndex (sameId playlist) savedPlaylists ->
      forall latest, savePlaylist savedPlaylists playlist latest = saved).
Proof.
  intros saved.
  destruct (savePlaylist_slot playlist savedPlaylists)
    as (i & Hi & Hbefore & Hothers & Hcase).
  fold saved in Hi, Hbefore, Hothers, Hcase.
  assert (Hself : sameId playlist playlist = true) by apply String.eqb_refl.
  assert (Hfind : findIndex (sameId playlist) saved = Z.of_nat i).
  { unfold findIndex.
    rewrite (findIndexFrom_first (sameId playlist) saved i playlist 0 Hi Hself Hbefore).
    lia. }
  split; [by rewrite Hfind, PlayerProofs.nthZ_of_nat|].
  split; [|split; [|split; [|split]]].
  - unfold savePlaylist at 1. fold (sameId playlist). rewrite Hfind.
    destruct (Z.leb_spec 0 (Z.of_nat i)); [|lia].
    rewrite Nat2Z.id. by apply list_insert_id.
  - destruct Hcase as [(Hf & _ & Hlen & _)|(Hf & _ & Hlen & _)].
    + destruct (Z.leb_spec 0 (findIndex (sameId playlist) savedPlaylists)); [done|lia].
    + rewrite Hf. done.
  - intros q Hq. rewrite !list_elem_of_lookup. split.
    + intros [j Hj]. destruct (decide (j = i)) as [->|Hne].
      * rewrite Hi in Hj. injection Hj as <-. done.
      * exists j. by rewrite <- Hothers.
    + intros [j Hj]. destruct (decide (j = i)) as [->|Hne].
      * destruct Hcase as [(_ & _ & _ & old & Hold & Hid)|(_ & -> & _ & _)].
        -- rewrite Hold in Hj. injection Hj as ->. done.
        -- apply lookup_lt_Some in Hj. lia.
      * exists j. by rewrite Hothers.
  - intros Hnew. subst saved. unfold savePlaylist. fold (sameId playlist).
    rewrite Hnew. simpl. by rewrite <- app_assoc.
  - intros Hold latest. subst saved. unfold savePlaylist. fold (sameId playlist).
    by destruct (Z.leb_spec 0 (findIndex (sameId playlist) savedPlaylists)); [|lia].
Qed.

Lemma savePlaylist_is_insert_or_replace_witness :
  findIndex (sameId hindiPlaylist) [] = -1
  /\ savePlaylist [] hindiPlaylist (savePlaylist [] hindiPlaylist [])
     = [hindiPlaylist; hindiPlaylist].
Proof.
  destruct (savePlaylist_is_insert_or_replace hindiPlaylist [])
    as (_ & _ & _ & _ & Hstale & _).
  split; [reflexivity|]. exact (Hstale eq_refl).
Defined.

(** *** The displayed times *)

Lemma playSong_times o s :
  currentTime (playSong o s) = currentTime s /\ duration (playSong o s) = duration s.
Proof.
  destruct o as [song|]; [|done].
  unfold playSong, proceedWithPlayback.
  destruct (resolveSource song) as [info|]; [|done].
  destruct (urlMissing _); [done|].
  simpl. destruct (audio s) eqn:Hau; simpl; rewrite ?Hau; done.
Qed.

Lemma moveCursor_times i s :
  currentTime (moveCursor i s) = currentTime s /\ duration (moveCursor i s) = duration s.
Proof. unfold moveCursor. by destruct (activePlaylist s). Qed.

Lemma stopPlayback_times s :
  currentTime (stopPlayback s) = currentTime s /\ duration (stopPlayback s) = duration s.
Proof. unfold stopPlayback. simpl. by destruct (audio s). Qed.

Lemma moved_times o i s :
  currentTime (playSong o (moveCursor i s)) = currentTime s
  /\ duration (playSong o (moveCursor i s)) = duration s.
Proof.
  destruct (playSong_times o (moveCursor i s)) as [-> ->]. apply moveCursor_times.
Qed.

Lemma playNext_times c draws s s' :
  playNext c draws s = Done s' ->
  currentTime s' = currentTime s /\ duration s' = duration s.
Proof.
  unfold playNext. destruct (_ && _).
  - destruct (resolveNext c draws s) as [i| | |]; try done; intros [= <-].
    + change (setQueueIndex i _) with (moveCursor i s). apply moved_times.
    + apply stopPlayback_times.
  - intros [= <-]. apply stopPlayback_times.
Qed.

Lemma playPrevious_times c draws s s' :
  playPrevious c draws s = Done s' ->
  currentTime s' = currentTime s /\ duration s' = duration s.
Proof.
  unfold playPrevious. destruct (pastRestartThreshold s).
  - destruct (audio s); intros [= <-]; done.
  - destruct (_ && _); [|by intros [= <-]].
    destruct (resolvePrevious c draws s) as [i| | |]; try done; intros [= <-]; [|done].
    change (setQueueIndex i _) with (moveCursor i s). apply moved_times.
Qed.

(** X17. The displayed times are always numbers. If neither
    [currentTime] nor [duration] is NaN, they stay so under every event
    handler and transport operation: time updates (a NaN reading is
    skipped), loaded metadata (a NaN or zero duration is shown as 0),
    load start, errors, seeking, playing a song, next, previous, the
    'ended' handler and replacing the queue. Loaded metadata establishes
    the property from any state. *)
Theorem displayed_times_are_never_NaN (s : State) (Htimes : timesAreNumbers s) :
  timesAreNumbers (handleTimeUpdate s)
  /\ (forall d s0, timesAreNumbers (handleLoadedMetadata d s0))
  /\ timesAreNumbers (handleLoadStart s)
  /\ (forall code, timesAreNumbers (handleError code s))
  /\ (forall t, timesAreNumbers (seekTo t s))
  /\ (forall o, timesAreNumbers (playSong o s))
  /\ (forall c draws s',
        playNext c draws s = Done s' \/ playPrevious c draws s = Done s'
        \/ handleEnded c draws s = Done s' ->
        timesAreNumbers s')
  /\ (forall now playlist index, timesAreNumbers (setPlaylistAndPlay now playlist index s)).
Proof.
  destruct Htimes as [Hc Hd]. unfold timesAreNumbers.
  split; [|split; [|split; [|split; [|split; [|split; [|split]]]]]].
  - unfold handleTimeUpdate. destruct (audio s) as [a|]; [|done].
    destruct (isNaN (position a)) eqn:Hn; simpl; [done|]. by rewrite Hn.
  - intros d s0. unfold handleLoadedMetadata. simpl. split; [done|].
    destruct d as [| neg | q]; simpl; try done. by destruct (negb _).
  - done.
  - intros code. unfold handleError. simpl. repeat case_match; done.
  - intros t. unfold seekTo. destruct (audio s) as [a|]; [|done].
    destruct (isNaN t) eqn:Hn; simpl; [done|].
    destruct (ge t zero); simpl; [|done].
    destruct (isFinite t); simpl; [|done]. by rewrite Hn.
  - intros o. destruct (playSong_times o s) as [-> ->]. done.
  - intros c draws s' [H|[H|H]].
    + apply playNext_times in H as [-> ->]. done.
    + apply playPrevious_times in H as [-> ->]. done.
    + unfold handleEnded in H. apply playNext_times in H as [-> ->]. done.
  - intros now playlist index. unfold setPlaylistAndPlay.
    destruct (_ =? 0); [done|]. destruct (_ || _); [done|]. simpl.
    destruct (_ =? 0); [done|].
    match goal with |- context [playSong ?o ?s0] =>
      destruct (playSong_times o s0) as [-> ->] end.
    done.
Qed.

Lemma displayed_times_are_never_NaN_witness :
  timesAreNumbers (handleLoadedMetadata NaN initialState)
  /\ timesAreNumbers (seekTo NaN initialState).
Proof.
  destruct (displayed_times_are_never_NaN initialState ltac:(split; reflexivity))
    as (_ & Hmeta & _ & _ & Hseek & _).
  split; [apply Hmeta | apply Hseek].
Defined.

(** X18. A play is tracked exactly when it starts. [playSong] hands the
    song to the analytics call once when a source was found for it, and
    not at all when the song is rejected; next, previous and the 'ended'
    handler therefore track at most one play per call. *)
Theorem plays_are_tracked_once (song : Song) (s : State) :
  (forall u, playableUrl song = Some u ->
     tracked (playSong (Some song) s) = tracked s ++ [song])
  /\ (playableUrl song = None -> tracked (playSong (Some song) s) = tracked s)
  /\ (forall c draws s',
        playNext c draws s = Done s' \/ playPrevious c draws s = Done s'
        \/ handleEnded c draws s = Done s' ->
        tracked s' = tracked s \/ exists next, tracked s' = tracked s ++ [next]).
Proof.
  assert (Hplay : forall o s0,
            tracked (playSong o s0) = tracked s0
            \/ exists next, tracked (playSong o s0) = tracked s0 ++ [next]).
  { intros [x|] s0; [|by left]. unfold playSong, proceedWithPlayback.
    destruct (resolveSource x) as [info|]; [|by left].
    destruct (urlMissing _); [by left|]. right. exists x.
    simpl. destruct (audio s0) eqn:Hau; simpl; rewrite ?Hau; done. }
  assert (Hmove : forall o i s0,
            tracked (playSong o (moveCursor i s0)) = tracked s0
            \/ exists next, tracked (playSong o (moveCursor i s0)) = tracked s0 ++ [next]).
  { intros o i s0. destruct (Hplay o (moveCursor i s0)) as [H|[next H]];
      rewrite H; unfold moveCursor; destruct (activePlaylist s0); eauto. }
  assert (Hstop : forall s0, tracked (stopPlayback s0) = tracked s0).
  { intros s0. unfold stopPlayback. simpl. by destruct (audio s0). }
  assert (Hnext : forall c draws s0 s',
            playNext c draws s0 = Done s' ->
            tracked s' = tracked s0 \/ exists next, tracked s' = tracked s0 ++ [next]).
  { intros c draws s0 s'. unfold playNext. destruct (_ && _).
    - destruct (resolveNext c draws s0) as [i| | |]; try done; intros [= <-].
      + change (setQueueIndex i _) with (moveCursor i s0). apply Hmove.
      + left. apply Hstop.
    - intros [= <-]. left. apply Hstop. }
  split; [|split].
  - intros u Hu. unfold playableUrl in Hu. unfold playSong, proceedWithPlayback.
    destruct (resolveSource song) as [info|]; [|done].
    destruct (urlMissing _); [done|].
    simpl. destruct (audio s) eqn:Hau; simpl; rewrite ?Hau; done.
  - intros Hnone. by rewrite (PlayerProofs.playSong_unplayable song s Hnone).
  - intros c draws s' [H|[H|H]].
    + by eapply Hnext.
    + revert H. unfold playPrevious. destruct (pastRestartThreshold s).
      * destruct (audio s); intros [= <-]; by left.
      * destruct (_ && _); [|intros [= <-]; by left].
        destruct (resolvePrevious c draws s) as [i| | |]; try done; intros [= <-];
          [|by left].
        change (setQueueIndex i _) with (moveCursor i s). apply Hmove.
    + unfold handleEnded in H. by apply Hnext in H.
Qed.

End PlayerFacts.

(** ** Processing Graph: construction *)

Module ProcessorFacts.
Import Processor.

Lemma released_is_new p : released p -> p = newProcessor (config p).
Proof.
  destruct p. unfold released, newProcessor. simpl.
  intros (-> & -> & -> & -> & -> & -> & -> & -> & -> & ->). reflexivity.
Qed.

Section AnyPlatform.
Variable platform : list Call -> Call -> option Exn.
Variables supported suspended : bool.

(** An initialized processor is disposed of first. *)
Lemma initializeBody_after_dispose m :
  isInitialized (proc m) = true ->
  initializeBody platform supported suspended m
  = initializeBody platform supported suspended (disposed m).
Proof.
  intros Hinit.
  transitivity
    (bind (dispose platform)
       (fun _ => initializeBody platform supported suspended) m).
  - unfold initializeBody at 2. unfold initializeBody.
    unfold bind at 1. unfold get at 1. unfold bind at 1. rewrite Hinit.
    cbn [when]. rewrite (ProcessorProofs.dispose_run platform m).
    rewrite (ProcessorProofs.bind_run _ _ _ _ _ (ProcessorProofs.dispose_run platform m)).
    reflexivity.
  - by rewrite (ProcessorProofs.bind_run _ _ _ _ _ (ProcessorProofs.dispose_run platform m)).
Qed.

Ltac run_platform :=
  repeat (match goal with
          | |- context [platform ?h ?c] =>
              destruct (platform h c) as [[|?]|] eqn:?; cbn
          | |- context [if ?b then _ else _] => destruct b; cbn
          end).

Ltac unfold_initializeBody :=
  unfold initializeBody, setupEqualizer, setupDynamicsProcessing,
    connectProcessingChain, bind, get, modify, when, construct, call,
    tryCatch, ret, throw.

(** Construction on a processor that holds nothing. *)
Lemma initializeBody_fresh cfg cs fr :
  match initializeBody platform supported suspended
          {| proc := newProcessor cfg; calls := cs; fresh := fr |} with
  | (inr true, m') =>
      config (proc m') = cfg /\ built (proc m')
      /\ audioContext (proc m') = Some fr
  | (inr false, m') =>
      config (proc m') = cfg /\ released (proc m')
      /\ (fr < fresh m' -> Close fr ∈ calls m')%nat
  | (inl _, m') =>
      config (proc m') = cfg
      /\ (fr < fresh m' -> audioContext (proc m') = Some fr)%nat
  end.
Proof.
  unfold_initializeBody. destruct cfg as [eq lim]. cbn.
  destruct supported; cbn.
  2:{ unfold released; cbn. repeat split; auto. lia. }
  run_platform.
  all: unfold built, released; cbn.
  all: repeat split; eauto; intros; try lia; set_solver.
Qed.

Lemma replay_app done g a b :
  replay platform done g (a ++ b)
  = replay platform (done ++ a) (replay platform done g a) b.
Proof.
  revert done g. induction a as [|c a IH]; intros done g; simpl.
  - by rewrite app_nil_r.
  - rewrite IH. by rewrite <- app_assoc.
Qed.

Lemma connections_snoc h c :
  connections platform (h ++ [c])
  = match platform h c with
    | Some _ => connections platform h
    | None => effect c (connections platform h)
    end.
Proof. unfold connections. by rewrite replay_app. Qed.

Ltac replay_log :=
  repeat (rewrite connections_snoc;
          match goal with
          | H : platform ?h ?c = None |- context [platform ?h ?c] => rewrite H
          end);
  cbn [effect].

Ltac edge_in :=
  repeat first
    [ solve [apply elem_of_union_r, elem_of_singleton; reflexivity]
    | apply elem_of_union_l ].

Lemma initializeBody_fresh_wired cfg cs fr :
  match initializeBody platform supported suspended
          {| proc := newProcessor cfg; calls := cs; fresh := fr |} with
  | (inr true, m') => wired platform m'
  | _ => True
  end.
Proof.
  unfold_initializeBody. destruct cfg as [eq lim]. cbn.
  destruct supported; cbn; [|done].
  run_platform; try done.
  all: unfold wired; cbn [calls proc].
  all: replay_log.
  all: unfold chainEdges.
  all: match goal with |- context [chainCalls ?p] =>
         let cc := fresh "cc" in set (cc := chainCalls p); cbn in cc; subst cc end.
  all: match goal with |- context [signalPath ?p] =>
         let sp := fresh "sp" in set (sp := signalPath p); cbn in sp; subst sp end.
  all: cbn [foldr effect inOrder gainNode analyserNode audioContext].
  all: split;
    [intros e He;
     rewrite !elem_of_union, !elem_of_singleton, elem_of_empty in He;
     destruct_or!; try done; subst e; edge_in|].
  all: split; [repeat split; edge_in|].
  all: eexists _, _; split; [reflexivity|]; split; [reflexivity|].
  all: split; [edge_in|].
  all: intros a [= <-]; edge_in.
Qed.

Lemma replay_passes h g cs :
  passes platform h cs -> replay platform h g cs = foldl (flip effect) g cs.
Proof.
  revert h g. induction cs as [|c cs IH]; intros h g; simpl; [done|].
  intros [-> Hrest]. by apply IH.
Qed.

Lemma foldl_connects g cs :
  forallb connects cs = true ->
  foldl (flip effect) g cs = g ∪ foldr effect ∅ cs.
Proof.
  revert g. induction cs as [|c cs IH]; intros g; simpl.
  - intros _. by rewrite union_empty_r_L.
  - intros [Hc Hcs]%andb_prop. rewrite (IH _ Hcs).
    destruct c; try done; simpl.
    all: apply set_eq; intros x; rewrite !elem_of_union; tauto.
Qed.

Lemma chainCalls_connects p : forallb connects (chainCalls p) = true.
Proof.
  destruct p as [[c|] [s|] gn ls mp hs cn ln an ini [eq lim]]; try done.
  unfold chainCalls.
  cbn [sourceNode audioContext gainNode lowShelf midPeaking highShelf
       compressorNode limiterNode analyserNode config enableEQ enableLimiter].
  rewrite !forallb_app.
  destruct eq, ls, mp, hs; cbn [fst snd forallb connects andb].
  all: destruct lim, cn, ln; cbn [fst snd forallb connects andb].
  all: by destruct gn, an.
Qed.

Lemma chain_connections h p :
  passes platform h (chainCalls p) ->
  connections platform (h ++ chainCalls p) = connections platform h ∪ chainEdges p.
Proof.
  intros Hpass. unfold connections. rewrite replay_app. simpl.
  rewrite (replay_passes _ _ _ Hpass).
  apply foldl_connects, chainCalls_connects.
Qed.

Ltac run_in H :=
  repeat (first
    [ match type of H with context [if ?b then _ else _] =>
        is_var b; destruct b end
    | match type of H with context [match ?o with Some _ => _ | None => _ end] =>
        is_var o; destruct o end
    | match type of H with context [platform ?h ?c] =>
        destruct (platform h c) as [?|] eqn:? end ];
    cbn in H).

Lemma connectProcessingChain_run p cs fr m' :
  connectProcessingChain platform {| proc := p; calls := cs; fresh := fr |}
  = (inr tt, m') ->
  m' = {| proc := p; calls := cs ++ chainCalls p; fresh := fr |}
  /\ passes platform cs (chainCalls p).
Proof.
  unfold connectProcessingChain, bind, get, call, ret.
  destruct p as [ctx src gn ls mp hs cn ln an ini [eq lim]].
  intros H. cbn in H.
  run_in H; try discriminate H.
  all: injection H as <-.
  all: unfold chainCalls; cbn.
  all: split; [f_equal; rewrite <- ?app_assoc, ?app_nil_r; reflexivity|].
  all: repeat split; assumption.
Qed.

Lemma elem_of_disposeCalls_close p ctx :
  audioContext p = Some ctx -> Close ctx ∈ disposeCalls p.
Proof.
  intros Hctx. unfold disposeCalls. rewrite Hctx. simpl.
  rewrite !elem_of_app. do 8 right. constructor.
Qed.

Lemma initializeBody_start m :
  settled (proc m) ->
  exists cs,
    initializeBody platform supported suspended m
    = initializeBody platform supported suspended
        {| proc := newProcessor (config (proc m)); calls := cs; fresh := fresh m |}.
Proof.
  intros [Hinit|Hrel].
  - exists (calls m ++ disposeCalls (proc m)).
    by rewrite (initializeBody_after_dispose m Hinit).
  - exists (calls m). destruct m as [p cs fr]. simpl.
    by rewrite <- (released_is_new p Hrel).
Qed.

Lemma setBypass_on_run p cs fr m1 :
  setBypass platform true {| proc := p; calls := cs; fresh := fr |} = (inr tt, m1) ->
  proc m1 = p
  /\ match sourceNode p, audioContext p with
     | Some s, Some ctx =>
         connections platform (calls m1)
         = filter (fun e => e.1 <> s) (connections platform cs)
           ∪ {[ (s, ToDestination ctx) ]}
     | _, _ => calls m1 = cs
     end.
Proof.
  intros H. unfold setBypass, bind, get, call, ret in H. cbn [proc] in H.
  destruct (sourceNode p) as [s|], (audioContext p) as [ctx|];
    try (by injection H as <-).
  cbn in H.
  destruct (platform cs (Disconnect s)) eqn:Hd; rewrite ?Hd in H; cbn in H;
    [done|].
  destruct (platform (cs ++ [Disconnect s]) (ConnectDestination s ctx)) eqn:Hc;
    rewrite ?Hc in H; cbn in H; [done|].
  injection H as <-. split; [done|]. cbn [calls].
  by rewrite !connections_snoc, Hc, Hd.
Qed.

Lemma setBypass_off_run p cs fr m2 :
  setBypass platform false {| proc := p; calls := cs; fresh := fr |} = (inr tt, m2) ->
  proc m2 = p
  /\ match sourceNode p, audioContext p with
     | Some s, Some ctx =>
         connections platform (calls m2)
         = filter (fun e => e.1 <> s) (connections platform cs) ∪ chainEdges p
     | _, _ => calls m2 = cs
     end.
Proof.
  intros H. unfold setBypass, get, ret in H. unfold bind at 1 in H.
  cbn [proc] in H.
  destruct (sourceNode p) as [s|], (audioContext p) as [ctx|];
    try (by injection H as <-).
  unfold bind, call in H. cbn [proc calls fresh] in H.
  destruct (platform cs (Disconnect s)) eqn:Hd; rewrite ?Hd in H; [done|].
  apply connectProcessingChain_run in H as [-> Hpass].
  split; [done|]. cbn [calls].
  by rewrite (chain_connections _ _ Hpass), connections_snoc, Hd.
Qed.





End AnyPlatform.

Lemma processing_exact p : processing p (chainEdges p).
Proof. split; [done|]. by intros s e _ He _. Qed.

(** X19. Starting from a processor that is initialized or holds nothing,
    [initializeProcessing] always returns, whatever the platform raises,
    and leaves the processor either with every node its configuration asks
    for and [isInitialized] set (result true) or holding nothing at all
    (result false); the configuration is kept. When the result is false
    and a context had been created, [close] was called on it. *)
Theorem initializeProcessing_builds_or_releases
    (platform : list Call -> Call -> option Exn) (supported suspended : bool)
    (m : Machine) (Hsettled : settled (proc m)) :
  exists ok m',
    initializeProcessing platform supported suspended m = (inr ok, m')
    /\ config (proc m') = config (proc m)
    /\ settled (proc m')
    /\ if ok then
         built (proc m') /\ audioContext (proc m') = Some (fresh m)
       else
         released (proc m')
         /\ ((fresh m < fresh m')%nat -> Close (fresh m) ∈ calls m').
Proof.
  destruct (initializeBody_start platform supported suspended m Hsettled)
    as [cs Hstart].
  pose proof (initializeBody_fresh platform supported suspended
                (config (proc m)) cs (fresh m)) as Hrun.
  rewrite <- Hstart in Hrun. unfold initializeProcessing, tryCatch.
  destruct (initializeBody platform supported suspended m) as [[e|[|]] m'].
  - rewrite (ProcessorProofs.bind_run _ _ _ _ _
               (ProcessorProofs.dispose_run platform m')).
    exists false, (disposed m'). destruct Hrun as [Hcfg Hctx].
    split; [done|]. split; [done|].
    split; [right; apply ProcessorProofs.disposed_released|].
    split; [apply ProcessorProofs.disposed_released|].
    intros Hlt. simpl. apply elem_of_app. right.
    by apply elem_of_disposeCalls_close, Hctx.
  - exists true, m'. destruct Hrun as (Hcfg & Hbuilt & Hctx).
    split; [done|]. split; [done|]. split; [left; apply Hbuilt|]. done.
  - exists false, m'. destruct Hrun as (Hcfg & Hrel & Hclose).
    split; [done|]. split; [done|]. split; [by right|]. done.
Qed.

Lemma initializeProcessing_builds_or_releases_witness :
  settled (proc startMachine)
  /\ exists ok m',
       initializeProcessing failsOnGain true false startMachine = (inr ok, m')
       /\ config (proc m') = config (proc startMachine)
       /\ settled (proc m')
       /\ if ok then
            built (proc m') /\ audioContext (proc m') = Some (fresh startMachine)
          else
            released (proc m')
            /\ ((fresh startMachine < fresh m')%nat
                -> Close (fresh startMachine) ∈ calls m').
Proof.
  assert (Hs : settled (proc startMachine)).
  { right. unfold released. simpl. tauto. }
  split; [exact Hs|].
  exact (initializeProcessing_builds_or_releases failsOnGain true false
           startMachine Hs).
Defined.

(** X20. After a successful [initializeProcessing] the chain is connected:
    the source feeds the equalizer bands (when enabled), these the
    compressor and the limiter (when enabled), these the gain node, each
    stage connected to the next in this order; the gain node is connected
    to the analyser and to the destination of the context. *)
Theorem initializeProcessing_wires_the_chain
    (platform : list Call -> Call -> option Exn) (supported suspended : bool)
    (m m' : Machine) (Hsettled : settled (proc m))
    (Hok : initializeProcessing platform supported suspended m = (inr true, m')) :
  let g := connections platform (calls m') in
  chainEdges (proc m') ⊆ g
  /\ inOrder g (signalPath (proc m'))
  /\ length (signalPath (proc m'))
     = ((if enableEQ (config (proc m')) then 3 else 0)
        + (if enableLimiter (config (proc m')) then 2 else 0) + 2)%nat
  /\ exists out ctx,
       gainNode (proc m') = Some out /\ audioContext (proc m') = Some ctx
       /\ (out, ToDestination ctx) ∈ g
       /\ forall a, analyserNode (proc m') = Some a -> (out, ToNode a) ∈ g.
Proof.
  destruct (initializeBody_start platform supported suspended m Hsettled)
    as [cs Hstart].
  pose proof (initializeBody_fresh_wired platform supported suspended
                (config (proc m)) cs (fresh m)) as Hwired.
  pose proof (initializeBody_fresh platform supported suspended
                (config (proc m)) cs (fresh m)) as Hrun.
  rewrite <- Hstart in Hwired, Hrun.
  unfold initializeProcessing, tryCatch in Hok.
  destruct (initializeBody platform supported suspended m) as [[e|[|]] m0].
  - by rewrite (ProcessorProofs.bind_run _ _ _ _ _
                  (ProcessorProofs.dispose_run platform m0)) in Hok.
  - injection Hok as <-. destruct Hwired as (Hsub & Hord & Hout).
    destruct Hrun as (_ & Hbuilt & _).
    split; [done|]. split; [done|]. split; [|done].
    destruct Hbuilt as (_ & _ & [s Hs] & [g Hg] & _ & Heq & Hlim).
    unfold signalPath. rewrite Hs, Hg.
    destruct (enableEQ (config (proc m0))).
    + destruct (Heq eq_refl) as ([l ->] & [mp ->] & [h ->]).
      destruct (enableLimiter (config (proc m0))); [|done].
      by destruct (Hlim eq_refl) as ([c ->] & [l' ->]).
    + destruct (enableLimiter (config (proc m0))); [|done].
      by destruct (Hlim eq_refl) as ([c ->] & [l' ->]).
  - done.
Qed.

Lemma initializeProcessing_wires_the_chain_witness :
  settled (proc startMachine)
  /\ initializeProcessing quiet true false startMachine = (inr true, builtMachine)
  /\ (let g := connections quiet (calls builtMachine) in
      chainEdges (proc builtMachine) ⊆ g
      /\ inOrder g (signalPath (proc builtMachine))
      /\ length (signalPath (proc builtMachine))
         = ((if enableEQ (config (proc builtMachine)) then 3 else 0)
            + (if enableLimiter (config (proc builtMachine)) then 2 else 0) + 2)%nat
      /\ exists out ctx,
           gainNode (proc builtMachine) = Some out
           /\ audioContext (proc builtMachine) = Some ctx
           /\ (out, ToDestination ctx) ∈ g
           /\ forall a, analyserNode (proc builtMachine) = Some a
                        -> (out, ToNode a) ∈ g).
Proof.
  assert (Hs : settled (proc startMachine)).
  { right. unfold released. simpl. tauto. }
  assert (Hok : initializeProcessing quiet true false startMachine
                = (inr true, builtMachine)) by reflexivity.
  split; [exact Hs|]. split; [exact Hok|].
  exact (initializeProcessing_wires_the_chain quiet true false
           startMachine builtMachine Hs Hok).
Defined.

(** X21. Switching the bypass on and off again restores the connections:
    if the processing chain is what is connected to the source node and
    both [setBypass(true)] and [setBypass(false)] complete, the processor
    is unchanged and the connections are the same as before; in between,
    the only connection leaving the source node goes to the destination. *)
Theorem setBypass_round_trip
    (platform : list Call -> Call -> option Exn) (m m1 m2 : Machine)
    (Hproc : processing (proc m) (connections platform (calls m)))
    (Hon : setBypass platform true m = (inr tt, m1))
    (Hoff : setBypass platform false m1 = (inr tt, m2)) :
  proc m2 = proc m
  /\ connections platform (calls m2) = connections platform (calls m)
  /\ forall s ctx,
       sourceNode (proc m) = Some s -> audioContext (proc m) = Some ctx ->
       forall e, e.1 = s ->
         e ∈ connections platform (calls m1) <-> e = (s, ToDestination ctx).
Proof.
  destruct m as [p cs fr], m1 as [p1 cs1 fr1].
  apply setBypass_on_run in Hon as [Hp1 Hg1].
  apply setBypass_off_run in Hoff as [Hp2 Hg2].
  simpl in *. subst p1. destruct Hproc as [Hsub Hsrc].
  split; [done|].
  destruct (sourceNode p) as [s|] eqn:Hs.
  2:{ split; [congruence | done]. }
  destruct (audioContext p) as [ctx|] eqn:Hctx.
  2:{ split; [congruence | done]. }
  split.
  - rewrite Hg2, Hg1. apply set_eq. intros e.
    rewrite elem_of_union, elem_of_filter, elem_of_union, elem_of_filter,
      elem_of_singleton.
    split.
    + intros [ [Hne [ [_ He] | -> ] ] | He ]; [done| |by apply Hsub]. by destruct Hne.
    + intros He. destruct (decide (e.1 = s)) as [Heq|Hne].
      * right. by apply (Hsrc s).
      * left. split; [done|]. left. done.
  - intros s' ctx' [= <-] [= <-] e He. rewrite Hg1.
    rewrite elem_of_union, elem_of_filter, elem_of_singleton.
    split; [|by right]. by intros [ [Hne _] | -> ].
Qed.

Lemma setBypass_round_trip_witness :
  processing (proc builtMachine) (connections quiet (calls builtMachine))
  /\ setBypass quiet true builtMachine = (inr tt, bypassedMachine)
  /\ (exists m2,
        setBypass quiet false bypassedMachine = (inr tt, m2)
        /\ proc m2 = proc builtMachine
        /\ connections quiet (calls m2) = connections quiet (calls builtMachine)
        /\ forall s ctx,
             sourceNode (proc builtMachine) = Some s ->
             audioContext (proc builtMachine) = Some ctx ->
             forall e, e.1 = s ->
               e ∈ connections quiet (calls bypassedMachine)
               <-> e = (s, ToDestination ctx)).
Proof.
  assert (Hg : connections quiet (calls builtMachine)
               = chainEdges (proc builtMachine)) by (vm_compute; reflexivity).
  assert (Hproc : processing (proc builtMachine)
                    (connections quiet (calls builtMachine))).
  { rewrite Hg. apply processing_exact. }
  assert (Hon : setBypass quiet true builtMachine = (inr tt, bypassedMachine))
    by reflexivity.
  split; [exact Hproc|]. split; [exact Hon|].
  eexists. split; [reflexivity|].
  exact (setBypass_round_trip quiet builtMachine bypassedMachine _
           Hproc Hon eq_refl).
Defined.



End ProcessorFacts.
